(** * Py-AST-Mutator: a two-pass AST mutation tester

    Shallow embedding of [main.py] and the properties its specification
    states about it.  The development follows the file top to bottom:
    the operator tables, the site collector ([MutationSiteCollector]),
    the single-site applier ([SingleSiteApplier]), the mutant generator,
    the sandboxed test oracle and target discovery. *)

From Stdlib Require Import ZArith String List Bool Lia.
From stdpp Require Import base option list gmap strings fin_maps pretty.

Open Scope string_scope.
Open Scope list_scope.
Open Scope Z_scope.

(** ** Python values that appear in the tree and in sites *)

(** What a [Constant] node can hold.  [isinstance(v, bool)] is true on
    [PyBool] only; the other literal kinds are told apart by tag. *)
Inductive constant :=
| PyBool (b : bool)
| PyInt (z : Z)
| PyStr (s : string)
| PyNone
| PyOther (repr : string).

(** ** The syntax tree ([ast.AST])

    The three classes for which the visitors define a [visit_] method are
    constructors of their own with the fields the code reads.  Every other
    class ([Module], [If], [Name], [Load], ...) is an [Other] node: its
    class name, its position when the class has one, and its fields in
    [_fields] order.  A field value is, as in Python, an AST node, a list,
    or anything else.

    An operator object ([ast.Eq()], [ast.Add()], ...) has no fields and no
    position, so it is represented by its class name, which is what
    [type(op).__name__] returns and what [getattr(ast, name)()] builds. *)
Module ast.

#[local] Unset Elimination Schemes.
Inductive node :=
| Compare (lineno col_offset : Z) (left : node) (ops : list string)
          (comparators : list node)
| BinOp (lineno col_offset : Z) (left : node) (op : string) (right : node)
| Constant (lineno col_offset : Z) (value : constant)
| Other (cls : string) (pos : option (Z * Z))
        (fields : list (string * value))
with value :=
| VNode (n : node)
| VList (items : list value)
| VRaw (c : constant).
#[local] Set Elimination Schemes.

(** The comparison operator classes of the grammar ([cmpop]). *)
Inductive cmpop := Eq | NotEq | Lt | LtE | Gt | GtE | Is | IsNot | In | NotIn.

(** The binary operator classes of the grammar ([operator]). *)
Inductive operator :=
| Add | Sub | Mult | MatMult | Div | Mod | Pow
| LShift | RShift | BitOr | BitXor | BitAnd | FloorDiv.

(** [type(op).__name__] *)
Definition cmpop_name (c : cmpop) : string :=
  match c with
  | Eq => "Eq" | NotEq => "NotEq" | Lt => "Lt" | LtE => "LtE"
  | Gt => "Gt" | GtE => "GtE" | Is => "Is" | IsNot => "IsNot"
  | In => "In" | NotIn => "NotIn"
  end.

Definition operator_name (o : operator) : string :=
  match o with
  | Add => "Add" | Sub => "Sub" | Mult => "Mult" | MatMult => "MatMult"
  | Div => "Div" | Mod => "Mod" | Pow => "Pow" | LShift => "LShift"
  | RShift => "RShift" | BitOr => "BitOr" | BitXor => "BitXor"
  | BitAnd => "BitAnd" | FloorDiv => "FloorDiv"
  end.

End ast.

(** ** Operator tables *)

(** A dict display [{k1: v1, k2: v2, ...}] stores its items left to right,
    so a key written twice keeps the value written last. *)
Definition dict_display {K V} `{Countable K} (items : list (K * V)) : gmap K V :=
  fold_left (fun d kv => <[kv.1 := kv.2]> d) items ∅.

Definition OP_MUTATION_MAP : gmap string string :=
  dict_display
    [ ("Eq", "NotEq");
      ("NotEq", "Eq");
      ("Lt", "Gt");
      ("Gt", "Lt");
      ("Add", "Sub");
      ("Sub", "Add");
      ("Add", "Mult");
      ("Mult", "Add") ].

Definition CONST_BOOL_MUTATIONS : gmap bool bool :=
  dict_display [ (true, false); (false, true) ].

(** ** Mutation sites

    A site is the dict the collector builds.  Its ["kind"] entry decides
    which other entries it has, so it is a tagged union: only a [Compare]
    site has an ["op_index"], and ["orig"]/["target"] are class names for
    the operator kinds and booleans for [ConstantBool]. *)
Inductive site :=
| CompareSite (lineno col_offset : Z) (op_index : Z) (orig target : string)
| BinOpSite (lineno col_offset : Z) (orig target : string)
| ConstantBoolSite (lineno col_offset : Z) (orig target : bool).

Inductive site_kind := KCompare | KBinOp | KConstantBool.

#[global] Instance site_kind_eq_dec : EqDecision site_kind.
Proof. solve_decision. Defined.

Definition kind (s : site) : site_kind :=
  match s with
  | CompareSite _ _ _ _ _ => KCompare
  | BinOpSite _ _ _ _ => KBinOp
  | ConstantBoolSite _ _ _ _ => KConstantBool
  end.

Definition lineno (s : site) : Z :=
  match s with
  | CompareSite l _ _ _ _ | BinOpSite l _ _ _ | ConstantBoolSite l _ _ _ => l
  end.

Definition col_offset (s : site) : Z :=
  match s with
  | CompareSite _ c _ _ _ | BinOpSite _ c _ _ | ConstantBoolSite _ c _ _ => c
  end.

Definition op_index (s : site) : option Z :=
  match s with
  | CompareSite _ _ i _ _ => Some i
  | _ => None
  end.

(** The key by which the applier looks a site's node up. *)
Definition site_key (s : site) : site_kind * Z * Z * option Z :=
  (kind s, lineno s, col_offset s, op_index s).

(** ** What a site says

    [from_tables s]: the ["orig"] and ["target"] entries of [s] are an
    item of the table of its kind.  [changes s]: they differ. *)
Definition from_tables (s : site) : Prop :=
  match s with
  | CompareSite _ _ idx orig target =>
      0 <= idx /\ OP_MUTATION_MAP !! orig = Some target
  | BinOpSite _ _ orig target => OP_MUTATION_MAP !! orig = Some target
  | ConstantBoolSite _ _ orig target =>
      CONST_BOOL_MUTATIONS !! orig = Some target
  end.

Definition changes (s : site) : Prop :=
  match s with
  | CompareSite _ _ _ orig target | BinOpSite _ _ orig target => orig <> target
  | ConstantBoolSite _ _ orig target => orig <> target
  end.

Definition is_operator_site (s : site) : bool :=
  match kind s with KConstantBool => false | _ => true end.

(** ** Pass 1: [MutationSiteCollector] *)
Module MutationSiteCollector.
Import ast.

(** The loop of [visit_Compare]: [enumerate(node.ops)] from index [idx]
    on, appending to [self.sites]. *)
Fixpoint compare_loop (lineno col_offset : Z) (idx : Z) (ops : list string)
    (sites : list site) : list site :=
  match ops with
  | [] => sites
  | op_name :: rest =>
      let sites :=
        match OP_MUTATION_MAP !! op_name with
        | Some target =>
            sites ++ [CompareSite lineno col_offset idx op_name target]
        | None => sites
        end in
      compare_loop lineno col_offset (idx + 1) rest sites
  end.

(** The site-recording part of [visit_BinOp]. *)
Definition binop_step (lineno col_offset : Z) (op_name : string)
    (sites : list site) : list site :=
  match OP_MUTATION_MAP !! op_name with
  | Some target => sites ++ [BinOpSite lineno col_offset op_name target]
  | None => sites
  end.

(** [visit_Constant] *)
Definition constant_step (lineno col_offset : Z) (v : constant)
    (sites : list site) : list site :=
  match v with
  | PyBool b =>
      match CONST_BOOL_MUTATIONS !! b with
      | Some target => sites ++ [ConstantBoolSite lineno col_offset b target]
      | None => sites
      end
  | _ => sites
  end.

(** [NodeVisitor.visit] with the three [visit_] methods and
    [generic_visit], threading [self.sites].  [generic_visit] walks the
    fields in order; it visits a field that is a node, and the items of a
    list field that are nodes.  The operator objects it meets in [ops] and
    [op] have no [visit_] method and no fields, so visiting them does
    nothing. *)
Fixpoint visit (n : node) (sites : list site) {struct n} : list site :=
  match n with
  | Compare lineno col_offset left_ ops comparators =>
      let sites := compare_loop lineno col_offset 0 ops sites in
      let sites := visit left_ sites in
      fold_left (fun acc c => visit c acc) comparators sites
  | BinOp lineno col_offset left_ op right_ =>
      let sites := binop_step lineno col_offset op sites in
      let sites := visit left_ sites in
      visit right_ sites
  | Constant lineno col_offset v => constant_step lineno col_offset v sites
  | Other _ _ fields =>
      fold_left (fun acc fv => visit_value (snd fv) acc) fields sites
  end
with visit_value (v : value) (sites : list site) {struct v} : list site :=
  match v with
  | VNode n => visit n sites
  | VList items =>
      fold_left
        (fun acc item =>
           match item with VNode n => visit n acc | _ => acc end)
        items sites
  | VRaw _ => sites
  end.

(** [collector = MutationSiteCollector(); collector.visit(root);
    collector.sites] *)
Definition collect (root : node) : list site := visit root [].

End MutationSiteCollector.

(** The keys of the sites a tree has. *)
Definition keys (n : ast.node) : list (site_kind * Z * Z * option Z) :=
  site_key <$> MutationSiteCollector.collect n.

Definition keys_value (v : ast.value) : list (site_kind * Z * Z * option Z) :=
  site_key <$> MutationSiteCollector.visit_value v [].

(** ** Pass 2: [SingleSiteApplier] *)

(** A map over a list that threads a state, first item first: the shape of
    the loops of [NodeTransformer.generic_visit]. *)
Section map_state.
Context {A S : Type} (f : A -> S -> A * S).

Fixpoint map_state (l : list A) (s : S) : list A * S :=
  match l with
  | [] => ([], s)
  | x :: l =>
      let '(x', s) := f x s in
      let '(l', s) := map_state l s in
      (x' :: l', s)
  end.
End map_state.

Module SingleSiteApplier.
Import ast.

Section applier.
(** [self.site] *)
Variable the_site : site.

Definition matches_location (node_lineno node_col_offset : Z) : bool :=
  (node_lineno =? lineno the_site) && (node_col_offset =? col_offset the_site).

Definition kind_is (k : site_kind) : bool :=
  match kind the_site, k with
  | KCompare, KCompare | KBinOp, KBinOp | KConstantBool, KConstantBool => true
  | _, _ => false
  end.

(** The guarded assignment [node.ops[idx] = new_op_cls()] of
    [visit_Compare]: the new operator list when every test passes. *)
Definition mutate_ops (node_lineno node_col_offset : Z) (ops : list string)
    : option (list string) :=
  match the_site with
  | CompareSite _ _ idx orig target =>
      if matches_location node_lineno node_col_offset then
        if (0 <=? idx) && (idx <? Z.of_nat (length ops)) then
          match ops !! Z.to_nat idx with
          | Some op =>
              if String.eqb op orig
              then Some (<[Z.to_nat idx := target]> ops)
              else None
          | None => None
          end
        else None
      else None
  | _ => None
  end.

(** The guarded assignment [node.op = new_op_cls()] of [visit_BinOp]. *)
Definition mutate_op (node_lineno node_col_offset : Z) (op : string)
    : option string :=
  match the_site with
  | BinOpSite _ _ orig target =>
      if matches_location node_lineno node_col_offset then
        if String.eqb op orig then Some target else None
      else None
  | _ => None
  end.

(** The replacement value of [visit_Constant] when every test passes. *)
Definition mutate_value (node_lineno node_col_offset : Z) (v : constant)
    : option constant :=
  match the_site with
  | ConstantBoolSite _ _ orig target =>
      if matches_location node_lineno node_col_offset then
        match v with
        | PyBool b => if Bool.eqb b orig then Some (PyBool target) else None
        | _ => None
        end
      else None
  | _ => None
  end.

(** [ast.fix_missing_locations] fills in positions that are missing
    below a node.  Operators carry none and every other node keeps the
    one it has, so on a tree whose positioned nodes have their
    positions, as every tree in the store does, it returns its
    argument. *)
Definition fix_missing_locations (n : node) : node := n.

(** [NodeTransformer.visit] with the three [visit_] methods and
    [generic_visit], threading [self.applied].  The result is the node
    that takes the place of the visited one, and the new flag.

    [visit_Compare] and [visit_BinOp] return without visiting the
    children once they have mutated the node.  [visit_Constant] returns
    a new node built by [ast.Constant(value=...)] at the old one's
    position ([ast.copy_location]) and leaves [self.applied] alone. *)
Fixpoint visit (n : node) (applied : bool) {struct n} : node * bool :=
  match n with
  | Compare ln co left_ ops comparators =>
      let generic_visit :=
        let '(left_', a) := visit left_ applied in
        let '(comparators', a) := map_state visit comparators a in
        (Compare ln co left_' ops comparators', a) in
      if applied || negb (kind_is KCompare) then generic_visit
      else
        match mutate_ops ln co ops with
        | Some ops' =>
            (fix_missing_locations (Compare ln co left_ ops' comparators), true)
        | None => generic_visit
        end
  | BinOp ln co left_ op right_ =>
      let generic_visit :=
        let '(left_', a) := visit left_ applied in
        let '(right_', a) := visit right_ a in
        (BinOp ln co left_' op right_', a) in
      if applied || negb (kind_is KBinOp) then generic_visit
      else
        match mutate_op ln co op with
        | Some op' => (fix_missing_locations (BinOp ln co left_ op' right_), true)
        | None => generic_visit
        end
  | Constant ln co v =>
      if applied || negb (kind_is KConstantBool) then (n, applied)
      else
        match mutate_value ln co v with
        | Some v' => (Constant ln co v', applied)
        | None => (n, applied)
        end
  | Other cls pos fields =>
      let '(fields', a) :=
        map_state
          (fun fv a =>
             let '(v', a) := visit_value (snd fv) a in ((fst fv, v'), a))
          fields applied in
      (Other cls pos fields', a)
  end
with visit_value (v : value) (applied : bool) {struct v} : value * bool :=
  match v with
  | VNode n => let '(n', a) := visit n applied in (VNode n', a)
  | VList items =>
      let '(items', a) :=
        map_state
          (fun item a =>
             match item with
             | VNode n => let '(n', a) := visit n a in (VNode n', a)
             | _ => (item, a)
             end)
          items applied in
      (VList items', a)
  | VRaw _ => (v, applied)
  end.

(** The parts of [visit], by name: [generic_visit] on a [Compare] and on
    a [BinOp] node, and what it does to one field and to one list item of
    any other node. *)
Definition generic_Compare ln co l ops cs (a : bool) : node * bool :=
  let '(l', a) := visit l a in
  let '(cs', a) := map_state visit cs a in
  (Compare ln co l' ops cs', a).

Definition generic_BinOp ln co l op r (a : bool) : node * bool :=
  let '(l', a) := visit l a in
  let '(r', a) := visit r a in
  (BinOp ln co l' op r', a).

Definition visit_field (fv : string * value) (a : bool) :=
  let '(v', a) := visit_value (snd fv) a in ((fst fv, v'), a).

Definition visit_item (item : value) (a : bool) : value * bool :=
  match item with
  | VNode n => let '(n', a) := visit n a in (VNode n', a)
  | _ => (item, a)
  end.
End applier.

End SingleSiteApplier.

(** ** The printer ([ast.unparse])

    The printer belongs to the standard library.  This is its behaviour
    on the part of the grammar the scenarios of the specification use:
    modules, expression statements, assignments, [return], [if]/[elif]/
    [else], names, constants, binary operations and comparisons, with the
    parentheses it derives from operator precedence.  A node outside that
    part prints as its class name in angle brackets. *)
Module unparser.
Import ast.

(** [_Precedence] *)
Definition TUPLE : nat := 2.
Definition YIELD : nat := 3.
Definition TEST : nat := 4.
Definition CMP : nat := 8.
Definition BOR : nat := 9.
Definition BXOR : nat := 10.
Definition BAND : nat := 11.
Definition SHIFT : nat := 12.
Definition ARITH : nat := 13.
Definition TERM : nat := 14.
Definition POWER : nat := 16.

(** [binop], [binop_precedence] and [binop_rassoc], keyed by class name:
    the symbol, its precedence, and whether it associates to the right. *)
Definition binop : gmap string (string * nat * bool) :=
  dict_display
    [ ("Add", ("+", ARITH, false)); ("Sub", ("-", ARITH, false));
      ("Mult", ("*", TERM, false)); ("MatMult", ("@", TERM, false));
      ("Div", ("/", TERM, false)); ("Mod", ("%", TERM, false));
      ("LShift", ("<<", SHIFT, false)); ("RShift", (">>", SHIFT, false));
      ("BitOr", ("|", BOR, false)); ("BitXor", ("^", BXOR, false));
      ("BitAnd", ("&", BAND, false)); ("FloorDiv", ("//", TERM, false));
      ("Pow", ("**", POWER, true)) ].

(** [cmpops] *)
Definition cmpops : gmap string string :=
  dict_display
    [ ("Eq", "=="); ("NotEq", "!="); ("Lt", "<"); ("LtE", "<=");
      ("Gt", ">"); ("GtE", ">="); ("Is", "is"); ("IsNot", "is not");
      ("In", "in"); ("NotIn", "not in") ].

Definition require_parens (needed : bool) (s : string) : string :=
  if needed then "(" +:+ s +:+ ")" else s.

Definition repr (c : constant) : string :=
  match c with
  | PyBool true => "True"
  | PyBool false => "False"
  | PyInt z => pretty z
  | PyStr s => "'" +:+ s +:+ "'"
  | PyNone => "None"
  | PyOther r => r
  end.

(** An expression, printed under the precedence its parent set for it. *)
Fixpoint expr (prec : nat) (n : node) {struct n} : string :=
  match n with
  | BinOp _ _ left_ op right_ =>
      match (binop !! op : option (string * nat * bool)) with
      | Some (symbol, p, rassoc) =>
          let left_prec := if rassoc then S p else p in
          let right_prec := if rassoc then p else S p in
          require_parens (p <? prec)%nat
            (expr left_prec left_ +:+ " " +:+ symbol +:+ " "
             +:+ expr right_prec right_)
      | None => "<" +:+ op +:+ ">"
      end
  | Compare _ _ left_ ops comparators =>
      require_parens (CMP <? prec)%nat
        (expr (S CMP) left_ +:+
         (fix chain (ops : list string) (es : list node) {struct es} : string :=
            match ops, es with
            | o :: ops, e :: es =>
                " " +:+ default ("<" +:+ o +:+ ">") (cmpops !! o) +:+ " "
                +:+ expr (S CMP) e +:+ chain ops es
            | _, _ => ""
            end) ops comparators)
  | Constant _ _ v => repr v
  | Other cls _ fields =>
      match fields with
      | [(_, VRaw (PyStr id)); _] =>
          if String.eqb cls "Name" then id else "<" +:+ cls +:+ ">"
      | _ => "<" +:+ cls +:+ ">"
      end
  end.

Fixpoint indentation (indent : nat) : string :=
  match indent with
  | O => ""
  | S k => "    " +:+ indentation k
  end.

(** A statement, as the lines it prints.  [elif] tells an [If] that it
    is the single statement of an enclosing [orelse]. *)
Fixpoint stmt (elif : bool) (indent : nat) (n : node) {struct n} : list string :=
  let fill := fun text => indentation indent +:+ text in
  match n with
  | Other cls _ fields =>
      if String.eqb cls "Expr" then
        match fields with
        | [(_, VNode e)] => [fill (expr YIELD e)]
        | _ => [fill "<Expr>"]
        end
      else if String.eqb cls "Assign" then
        match fields with
        | (_, VList targets) :: (_, VNode e) :: _ =>
            [fill
               ((fix go (ts : list value) : string :=
                   match ts with
                   | VNode t :: ts => expr TUPLE t +:+ " = " +:+ go ts
                   | _ => ""
                   end) targets +:+ expr TEST e)]
        | _ => [fill "<Assign>"]
        end
      else if String.eqb cls "Return" then
        match fields with
        | [(_, VNode e)] => [fill ("return " +:+ expr TEST e)]
        | _ => [fill "return"]
        end
      else if String.eqb cls "If" then
        match fields with
        | [(_, VNode test); (_, VList body); (_, VList orelse)] =>
            let block :=
              fix block (items : list value) : list string :=
                match items with
                | VNode s :: items => stmt false (S indent) s ++ block items
                | _ => []
                end in
            [fill ((if elif then "elif " else "if ") +:+ expr TEST test +:+ ":")]
            ++ block body
            ++ match orelse with
               | [] => []
               | [VNode (Other cls' _ _ as nested)] =>
                   if String.eqb cls' "If" then stmt true indent nested
                   else [fill "else:"] ++ block orelse
               | _ => [fill "else:"] ++ block orelse
               end
        | _ => [fill "<If>"]
        end
      else [fill ("<" +:+ cls +:+ ">")]
  | _ => [fill (expr TEST n)]
  end.

(** [ast.unparse] of a tree: the statements of a [Module], one per line. *)
Definition unparse (n : node) : string :=
  match n with
  | Other cls _ ((_, VList body) :: _) =>
      if String.eqb cls "Module" then
        String.concat (String (Ascii.ascii_of_nat 10) "")
          ((fix go (items : list value) : list string :=
              match items with
              | VNode s :: items => stmt false 0 s ++ go items
              | _ => []
              end) body)
      else String.concat (String (Ascii.ascii_of_nat 10) "") (stmt false 0 n)
  | _ => String.concat (String (Ascii.ascii_of_nat 10) "") (stmt false 0 n)
  end.

End unparser.

(** ** Objects and references

    A parsed tree is a mutable object, and [root], [tree_copy] and
    [mutated_tree] are references to such objects.  The store maps a
    reference to the tree that hangs below the object it names; a node
    object is identified by the reference of its tree and its place in
    it.  Trees of different references share no node: [ast.parse] builds
    a tree and [copy.deepcopy] builds every node anew.  An assignment to
    a field of a node object is therefore a change of the one tree the
    node belongs to, written back to the store. *)
Abbreviation ref := nat.
Abbreviation store := (list ast.node).

#[global] Instance node_inhabited : Inhabited ast.node :=
  populate (ast.Other "" None []).

(** [copy.deepcopy(root)]: a new object with an equal tree below it. *)
Definition deepcopy (r : ref) (σ : store) : ref * store :=
  (length σ, σ ++ [σ !!! r]).

(** [applier = SingleSiteApplier(site); applier.visit(tree_copy)]: the
    transformer rewrites the object it is given in place and returns it;
    [applier.applied] is read afterwards. *)
Definition apply_in_place (s : site) (r : ref) (σ : store)
    : ref * bool * store :=
  let '(t', applied) := SingleSiteApplier.visit s (σ !!! r) false in
  (r, applied, <[r := t']> σ).

(** Every object of [σ] is in [σ'] as it was. *)
Definition untouched (σ σ' : store) : Prop :=
  forall r : ref, (r < length σ)%nat -> σ' !! r = σ !! r.

(** ** [generate_mutants_from_source] *)

Definition kind_name (k : site_kind) : string :=
  match k with
  | KCompare => "Compare"
  | KBinOp => "BinOp"
  | KConstantBool => "ConstantBool"
  end.

Definition str_bool (b : bool) : string := if b then "True" else "False".

(** The f-string that labels a mutant. *)
Definition description (s : site) : string :=
  let '(orig, target) :=
    match s with
    | CompareSite _ _ _ o t | BinOpSite _ _ o t => (o, t)
    | ConstantBoolSite _ _ o t => (str_bool o, str_bool t)
    end in
  kind_name (kind s) +:+ " @ " +:+ pretty (lineno s) +:+ ":"
  +:+ pretty (col_offset s) +:+ " (" +:+ orig +:+ " -> " +:+ target +:+ ")".

Section generator.
(** The printer is a collaborator of the generator. *)
Variable unparse : ast.node -> string.

(** The [for] loop over [sites], with [mutants] and the store threaded
    through it. *)
Fixpoint mutant_loop (root : ref) (sites : list site)
    (mutants : list (string * string)) (σ : store)
    : list (string * string) * store :=
  match sites with
  | [] => (mutants, σ)
  | site :: sites =>
      let '(tree_copy, σ) := deepcopy root σ in
      let '(mutated_tree, applied, σ) := apply_in_place site tree_copy σ in
      if negb applied then mutant_loop root sites mutants σ
      else
        let mutated_code := unparse (σ !!! mutated_tree) in
        mutant_loop root sites
          (mutants ++ [(description site, mutated_code)]) σ
  end.

(** What the loop adds for a site when the site is applied to the tree
    [t] itself. *)
Definition mutant_of (t : ast.node) (s : site) : option (string * string) :=
  let '(t', applied) := SingleSiteApplier.visit s t false in
  if applied then Some (description s, unparse t') else None.

(** The body of [generate_mutants_from_source] once [ast.parse] has
    returned the tree [parsed]: [root] is the one object of the store. *)
Definition generate_mutants (parsed : ast.node) : list (string * string) :=
  let σ : store := [parsed] in
  let root : ref := 0%nat in
  let sites := MutationSiteCollector.collect (σ !!! root) in
  fst (mutant_loop root sites [] σ).

(** [ast.parse] raises [SyntaxError] on text that is no program. *)
Definition generate_mutants_from_source (parse : string -> option ast.node)
    (source_code : string) : option (list (string * string)) :=
  generate_mutants <$> parse source_code.
End generator.

(** ** The scenarios of the specification, as [ast.parse] returns them *)
Module scenarios.
Import ast.

Definition Load : value := VNode (Other "Load" None []).
Definition Store : value := VNode (Other "Store" None []).

Definition Name (id : string) (ctx : value) (lineno col_offset : Z) : node :=
  Other "Name" (Some (lineno, col_offset)) [("id", VRaw (PyStr id)); ("ctx", ctx)].

Definition Module (body : list node) : node :=
  Other "Module" None [("body", VList (VNode <$> body)); ("type_ignores", VList [])].

(** [x = a + b] with the operator of the right-hand side left open. *)
Definition assign_x_a_b (op : string) : node :=
  Module
    [ Other "Assign" (Some (1, 0))
        [ ("targets", VList [VNode (Name "x" Store 1 0)]);
          ("value", VNode (BinOp 1 4 (Name "a" Load 1 4) op (Name "b" Load 1 8)));
          ("type_comment", VRaw PyNone) ] ].

(** Scenario B: [x = a + b] *)
Definition scenario_B : node := assign_x_a_b "Add".

(** [if a ?? b: return v] with the comparison and the literal left open. *)
Definition if_a_b_return (op : string) (v : bool) : node :=
  Module
    [ Other "If" (Some (1, 0))
        [ ("test",
           VNode (Compare 1 3 (Name "a" Load 1 3) [op] [Name "b" Load 1 8]));
          ("body",
           VList [VNode (Other "Return" (Some (1, 11))
                           [("value", VNode (Constant 1 18 (PyBool v)))])]);
          ("orelse", VList []) ] ].

(** Scenario A: [if a == b: return True] *)
Definition scenario_A : node := if_a_b_return "Eq" true.

(** [a op1 b op2 c], which the grammar groups to the left: the outer
    operation starts where its left operand starts, at column 0. *)
Definition left_nested (op1 op2 : string) : node :=
  Module
    [ Other "Expr" (Some (1, 0))
        [ ("value",
           VNode (BinOp 1 0
                    (BinOp 1 0 (Name "a" Load 1 0) op1 (Name "b" Load 1 4))
                    op2
                    (Name "c" Load 1 8))) ] ].

(** [a + b + c] *)
Definition sum_of_three : node := left_nested "Add" "Add".

End scenarios.

(** [x = True]: a source whose only mutation site is a boolean literal. *)
Definition assign_x_True : ast.node :=
  scenarios.Module
    [ ast.Other "Assign" (Some (1, 0))
        [ ("targets", ast.VList [ast.VNode (scenarios.Name "x" scenarios.Store 1 0)]);
          ("value", ast.VNode (ast.Constant 1 4 (PyBool true)));
          ("type_comment", ast.VRaw PyNone) ] ].

(** ** The sandboxed test oracle

    The oracle acts on the process and the file system.  Of these the
    model keeps what the clean-up depends on: the working directory of
    the process and the directories that exist, a sandbox counting as one
    directory (what is copied or created below its root goes when the root
    is removed).  What the outside world decides during one evaluation,
    namely which names [mkdtemp] draws, which system calls fail and how
    the test process ends, is given by a [world]. *)
Module oracle.

Inductive exn :=
| TimeoutExpired
| CalledProcessError (returncode : Z)
| OSError (what : string)
| SyntaxError.

Inductive result (A : Type) :=
| Return (a : A)
| Raise (e : exn).
Arguments Return {A} a.
Arguments Raise {A} e.

(** How the child process of [subprocess.run] ends. *)
Inductive run_outcome :=
| Exited (returncode : Z)
| TimedOut
| LaunchFailed (what : string).

Record world := {
  candidates : list string;      (* names [mkdtemp] draws, in order *)
  listdir_error : option string; (* [os.listdir(".")] *)
  makedirs_error : option string;
  write_error : option string;   (* [open(target_path, "w")], [tf.write] *)
  test_run : run_outcome
}.

Record os_state := {
  cwd : string;
  dirs : gset string
}.

(** Code that reads and changes the state and may raise. *)
Definition M (A : Type) : Type := os_state -> result A * os_state.

#[global] Instance M_ret : MRet M := fun A a st => (Return a, st).
#[global] Instance M_bind : MBind M := fun A B f m st =>
  match m st with
  | (Return a, st) => f a st
  | (Raise e, st) => (Raise e, st)
  end.

Definition raise {A} (e : exn) : M A := fun st => (Raise e, st).

(** [try: body finally: handler] *)
Definition try_finally {A} (body : M A) (handler : M unit) : M A := fun st =>
  let '(r, st) := body st in
  match handler st with
  | (Return _, st) => (r, st)
  | (Raise e, st) => (Raise e, st)
  end.

(** A system call that does nothing to the state unless it fails. *)
Definition syscall (error : option string) : M unit :=
  match error with
  | Some what => raise (OSError what)
  | None => mret tt
  end.

(** [tempfile.mkdtemp]: create the first drawn name that does not exist;
    [FileExistsError] when the draws run out. *)
Fixpoint mkdtemp (names : list string) : M string := fun st =>
  match names with
  | [] => (Raise (OSError "FileExistsError"), st)
  | name :: names =>
      if decide (name ∈ dirs st) then mkdtemp names st
      else (Return name, {| cwd := cwd st; dirs := {[name]} ∪ dirs st |})
  end.

(** [TemporaryDirectory.cleanup] *)
Definition cleanup (tmpdir : string) : M unit := fun st =>
  (Return tt, {| cwd := cwd st; dirs := dirs st ∖ {[tmpdir]} |}).

(** [with tempfile.TemporaryDirectory() as tmpdir: body] *)
Definition with_TemporaryDirectory {A} (w : world) (body : string -> M A) : M A :=
  tmpdir ← mkdtemp (candidates w);
  try_finally (body tmpdir) (cleanup tmpdir).

Definition getcwd : M string := fun st => (Return (cwd st), st).

Definition chdir (path : string) : M unit := fun st =>
  if decide (path ∈ dirs st)
  then (Return tt, {| cwd := path; dirs := dirs st |})
  else (Raise (OSError "FileNotFoundError"), st).

(** [subprocess.run(..., check=True, timeout=timeout)]: the return code,
    or the exception the call raises. *)
Definition subprocess_run (check : bool) (o : run_outcome) : result Z :=
  match o with
  | LaunchFailed what => Raise (OSError what)
  | TimedOut => Raise TimeoutExpired
  | Exited returncode =>
      if check && negb (returncode =? 0)
      then Raise (CalledProcessError returncode)
      else Return returncode
  end.

Definition run_pytest_in_cwd (w : world) : M bool := fun st =>
  match subprocess_run true (test_run w) with
  | Return _ => (Return true, st)
  | Raise TimeoutExpired => (Return false, st)
  | Raise (CalledProcessError _) => (Return false, st)
  | Raise e => (Raise e, st)
  end.

(** [copy_project_to]: a failure to copy one entry is caught and printed;
    only listing the project root can raise. *)
Definition copy_project_to (w : world) (tmpdir : string) : M unit :=
  syscall (listdir_error w).

Record verdict := {
  mutation : string;
  killed : bool
}.

(** The set-up of an evaluation meets no obstacle: a drawn name is free
    and no system call fails. *)
Definition setup_ok (w : world) (st : os_state) : Prop :=
  (exists name, name ∈ candidates w /\ name ∉ dirs st) /\
  listdir_error w = None /\
  makedirs_error w = None /\
  write_error w = None.

(** The body of the [for] loop of [mutate_file_and_test]. *)
Definition evaluate_mutant (w : world) (mutant : string * string) : M verdict :=
  let '(desc, mutated_source) := mutant in
  with_TemporaryDirectory w (fun tmpdir =>
    _ ← copy_project_to w tmpdir;
    _ ← syscall (makedirs_error w);
    _ ← syscall (write_error w);
    cwd ← getcwd;
    passed ← try_finally (_ ← chdir tmpdir; run_pytest_in_cwd w) (chdir cwd);
    mret {| mutation := desc; killed := negb passed |}).

(** The [for] loop: the [i]-th evaluation meets the world [env i]. *)
Fixpoint evaluate_all (env : nat -> world) (i : nat)
    (mutants : list (string * string)) (results : list verdict)
    : M (list verdict) :=
  match mutants with
  | [] => mret results
  | mutant :: mutants =>
      v ← evaluate_mutant (env i) mutant;
      evaluate_all env (S i) mutants (results ++ [v])
  end.

Section mutate_file_and_test.
Variable parse : string -> option ast.node.
Variable unparse : ast.node -> string.

(** [original] is the text read from [path_to_file]. *)
Definition mutate_file_and_test (env : nat -> world) (original : string)
    : M (list verdict) :=
  match generate_mutants_from_source unparse parse original with
  | Some mutants => evaluate_all env 0 mutants []
  | None => raise SyntaxError
  end.
End mutate_file_and_test.

End oracle.

(** The verdict that a test run which took place leaves for a mutant. *)
Definition verdict_of (desc : string) (o : oracle.run_outcome) : oracle.verdict :=
  {| oracle.mutation := desc;
     oracle.killed :=
       match o with
       | oracle.Exited returncode => negb (returncode =? 0)
       | _ => true
       end |}.

(** ** Target discovery ([collect_python_files])

    The file system as the function sees it: an entry is a regular file
    or a directory of named entries.  A path is the list of names that
    leads to an entry, so [os.path.join(root, f)] is [root ++ [f]].
    Symbolic links and unreadable directories are left out. *)
Module discovery.

#[local] Unset Elimination Schemes.
Inductive entry :=
| File
| Dir (children : list (string * entry)).
#[local] Set Elimination Schemes.

Definition path := list string.

Definition child (name : string) (children : list (string * entry))
    : option entry :=
  snd <$> find (fun ne => String.eqb name (fst ne)) children.

(** The entry a path names, looked up from [top]. *)
Fixpoint resolve (top : entry) (p : path) : option entry :=
  match p with
  | [] => Some top
  | name :: p =>
      match top with
      | Dir children =>
          match child name children with
          | Some e => resolve e p
          | None => None
          end
      | File => None
      end
  end.

Definition isfile (fs : entry) (p : path) : bool :=
  match resolve fs p with Some File => true | _ => false end.

Definition isdir (fs : entry) (p : path) : bool :=
  match resolve fs p with Some (Dir _) => true | _ => false end.

Definition is_dir_entry (ne : string * entry) : bool :=
  match snd ne with Dir _ => true | File => false end.

(** [os.walk(top)], top down: the triple of a directory, then the walks
    of its subdirectories. *)
Fixpoint walk (root : path) (e : entry) {struct e}
    : list (path * list string * list string) :=
  match e with
  | File => []
  | Dir children =>
      (root,
       fst <$> filter (fun ne => is_dir_entry ne = true) children,
       fst <$> filter (fun ne => is_dir_entry ne = false) children)
      :: (children ≫= fun ne => walk (root ++ [fst ne]) (snd ne))
  end.

(** [f.endswith(suffix)] *)
Definition endswith (s suffix : string) : bool :=
  let n := String.length s in
  let m := String.length suffix in
  (m <=? n)%nat && String.eqb (substring (n - m) m s) suffix.

Definition collect_python_files (fs : entry) (p : path) : list path :=
  if isfile fs p then [p]
  else if isdir fs p then
    match resolve fs p with
    | Some top =>
        walk p top ≫= fun '(root, _, filenames) =>
          (fun f => root ++ [f]) <$>
            filter (fun f => endswith f ".py" = true) filenames
    | None => []
    end
  else [].

(** [below top rel e]: the names [rel] lead from [top] down to [e]. *)
Inductive below : entry -> path -> entry -> Prop :=
| below_here e : below e [] e
| below_child children name e rel e' :
    (name, e) ∈ children -> below e rel e' ->
    below (Dir children) (name :: rel) e'.

End discovery.

(** No directory at or below [e] has two entries of one name, as in a
    file system. *)
Fixpoint distinct_names (e : discovery.entry) : bool :=
  match e with
  | discovery.File => true
  | discovery.Dir children =>
      bool_decide (NoDup children.*1) &&
      forallb (fun ne => distinct_names (snd ne)) children
  end.

(** ** Trees that differ in one place

    [one_edit n n']: [n'] is [n] with one operator of one [Compare] node,
    the operator of one [BinOp] node, or the value of one [Constant] node
    replaced, and nothing else changed. *)
Inductive one_edit : ast.node -> ast.node -> Prop :=
| edit_ops ln co l ops (i : nat) op cs :
    (i < length ops)%nat ->
    one_edit (ast.Compare ln co l ops cs) (ast.Compare ln co l (<[i := op]> ops) cs)
| edit_op ln co l op op' r :
    one_edit (ast.BinOp ln co l op r) (ast.BinOp ln co l op' r)
| edit_value ln co v v' :
    one_edit (ast.Constant ln co v) (ast.Constant ln co v')
| edit_Compare_left ln co l l' ops cs :
    one_edit l l' ->
    one_edit (ast.Compare ln co l ops cs) (ast.Compare ln co l' ops cs)
| edit_Compare_comparator ln co l ops cs1 c c' cs2 :
    one_edit c c' ->
    one_edit (ast.Compare ln co l ops (cs1 ++ c :: cs2))
             (ast.Compare ln co l ops (cs1 ++ c' :: cs2))
| edit_BinOp_left ln co l l' op r :
    one_edit l l' ->
    one_edit (ast.BinOp ln co l op r) (ast.BinOp ln co l' op r)
| edit_BinOp_right ln co l op r r' :
    one_edit r r' ->
    one_edit (ast.BinOp ln co l op r) (ast.BinOp ln co l op r')
| edit_Other cls pos fs1 name v v' fs2 :
    one_edit_value v v' ->
    one_edit (ast.Other cls pos (fs1 ++ (name, v) :: fs2))
             (ast.Other cls pos (fs1 ++ (name, v') :: fs2))
with one_edit_value : ast.value -> ast.value -> Prop :=
| edit_VNode n n' :
    one_edit n n' -> one_edit_value (ast.VNode n) (ast.VNode n')
| edit_VList items1 n n' items2 :
    one_edit n n' ->
    one_edit_value (ast.VList (items1 ++ ast.VNode n :: items2))
                   (ast.VList (items1 ++ ast.VNode n' :: items2)).

(** The positions of the boolean literals of a tree, in document order. *)
Fixpoint bool_positions (n : ast.node) {struct n} : list (Z * Z) :=
  match n with
  | ast.Compare _ _ left_ _ comparators =>
      bool_positions left_ ++ flat_map bool_positions comparators
  | ast.BinOp _ _ left_ _ right_ => bool_positions left_ ++ bool_positions right_
  | ast.Constant ln co (PyBool _) => [(ln, co)]
  | ast.Constant _ _ _ => []
  | ast.Other _ _ fields =>
      flat_map (fun fv => bool_positions_value (snd fv)) fields
  end
with bool_positions_value (v : ast.value) {struct v} : list (Z * Z) :=
  match v with
  | ast.VNode n => bool_positions n
  | ast.VList items =>
      flat_map
        (fun item =>
           match item with ast.VNode n => bool_positions n | _ => [] end)
        items
  | ast.VRaw _ => []
  end.

(** A small directory tree to run the discovery on: a directory whose
    name ends in [.py] is among its entries. *)
Module discovery_examples.
Import discovery.

Definition tree : entry :=
  Dir [ ("a.py", File);
        ("notes.txt", File);
        ("pkg", Dir [("b.py", File); ("b.pyc", File)]);
        ("d.py", Dir [("c.py", File)]) ].

End discovery_examples.

(** A project directory and a world in which every system call succeeds,
    to run the oracle on. *)
Module oracle_examples.
Import oracle.

Definition project : os_state := {| cwd := "/project"; dirs := {["/project"]} |}.

Definition a_world (o : run_outcome) : world :=
  {| candidates := ["/tmp/tmpa"; "/tmp/tmpb"];
     listdir_error := None;
     makedirs_error := None;
     write_error := None;
     test_run := o |}.

End oracle_examples.

(** ** The files of the project and of the sandbox

    What [copy_project_to] copies and where the mutated source is
    written depends on the contents of directories, which the oracle
    above leaves out.  Here a file system is the tree of its entries: a
    regular file with its text, or a directory with its named entries in
    the order [os.listdir] gives them.  A path is the list of the names
    that lead to an entry from the root directory, none of them [.] or
    [..]; symbolic links are left out.  No two entries of a directory
    have one name; where a list has, the first entry is the one the name
    refers to. *)
Module files.

#[local] Unset Elimination Schemes.
Inductive node :=
| File (content : string)
| Dir (children : list (string * node)).
#[local] Set Elimination Schemes.

Abbreviation listing := (list (string * node)).
Abbreviation path := (list string).

(** The entry of a name in a directory. *)
Definition lookup (name : string) (l : listing) : option node :=
  snd <$> find (fun ne => String.eqb name (fst ne)) l.

(** What a path names, from a directory down. *)
Fixpoint get (n : node) (p : path) : option node :=
  match p with
  | [] => Some n
  | name :: p =>
      match n with
      | Dir l => e ← lookup name l; get e p
      | File _ => None
      end
  end.

Definition isdir (fs : node) (p : path) : bool :=
  match get fs p with Some (Dir _) => true | _ => false end.

(** Put an entry under a name: in place of the entry of that name, or as
    a new last entry. *)
Fixpoint set_entry (name : string) (e : node) (l : listing) : listing :=
  match l with
  | [] => [(name, e)]
  | (n, x) :: l =>
      if String.eqb name n then (n, e) :: l else (n, x) :: set_entry name e l
  end.

(** Make [e] the entry at a path whose parent directory exists. *)
Fixpoint put (n : node) (p : path) (e : node) : option node :=
  match p with
  | [] => Some e
  | name :: p =>
      match n with
      | Dir l =>
          sub ← match lookup name l with
                | Some sub => put sub p e
                | None => match p with [] => Some e | _ => None end
                end;
          Some (Dir (set_entry name sub l))
      | File _ => None
      end
  end.

(** Two paths part ways at some name: neither leads through the other. *)
Fixpoint apart (p q : path) : bool :=
  match p, q with
  | x :: p, y :: q => if String.eqb x y then apart p q else true
  | _, _ => false
  end.

Abbreviation result := oracle.result.
Abbreviation Return := oracle.Return.
Abbreviation Raise := oracle.Raise.

Definition OSError {A} (what : string) : result A :=
  oracle.Raise (oracle.OSError what).

Definition bind {A B} (r : result A) (f : A -> result B) : result B :=
  match r with
  | oracle.Return a => f a
  | oracle.Raise e => oracle.Raise e
  end.

(** [os.makedirs(path, exist_ok=True)] *)
Fixpoint makedirs (n : node) (p : path) : result node :=
  match p with
  | [] =>
      match n with
      | Dir _ => Return n
      | File _ => OSError "FileExistsError"
      end
  | name :: p =>
      match n with
      | Dir l =>
          bind (makedirs (default (Dir []) (lookup name l)) p) (fun sub =>
          Return (Dir (set_entry name sub l)))
      | File _ => OSError "NotADirectoryError"
      end
  end.

(** [with open(path, "w") as f: f.write(text)] *)
Fixpoint write_file (n : node) (p : path) (text : string) : result node :=
  match p with
  | [] =>
      match n with
      | Dir _ => OSError "IsADirectoryError"
      | File _ => Return (File text)
      end
  | name :: p =>
      match n with
      | Dir l =>
          bind
            match lookup name l with
            | Some sub => write_file sub p text
            | None =>
                match p with
                | [] => Return (File text)
                | _ => OSError "FileNotFoundError"
                end
            end
            (fun sub => Return (Dir (set_entry name sub l)))
      | File _ => OSError "NotADirectoryError"
      end
  end.

(** [os.path.dirname] and [os.path.basename] *)
Definition dirname (p : path) : path := removelast p.
Definition basename (p : path) : string := List.last p "".

(** [shutil.ignore_patterns("__pycache__", ".pytest_cache")]: the
    patterns have no wildcard, so a name matches when it is one of
    them. *)
Definition ignored (name : string) : bool :=
  String.eqb name "__pycache__" || String.eqb name ".pytest_cache".

(** The tree [shutil.copytree(src, dst, ignore=...)] makes of the tree
    at [src]: at every level the entries with an ignored name are left
    out. *)
Fixpoint copy_of (src : node) : node :=
  match src with
  | File content => File content
  | Dir children =>
      Dir ((fix copy (l : listing) : listing :=
              match l with
              | [] => []
              | (name, e) :: l =>
                  if ignored name then copy l else (name, copy_of e) :: copy l
              end) children)
  end.

(** [shutil.copytree(src, dst, ignore=...)]: [dst] must not exist; it is
    made with the directories above it. *)
Definition copytree (fs : node) (src dst : path) : result node :=
  match get fs src with
  | Some tree =>
      match get fs dst with
      | Some _ => OSError "FileExistsError"
      | None =>
          bind (makedirs fs (dirname dst)) (fun fs =>
          match put fs dst (copy_of tree) with
          | Some fs => Return fs
          | None => OSError "FileNotFoundError"
          end)
      end
  | None => OSError "FileNotFoundError"
  end.

(** [shutil.copy2(src, dst)]: into [dst] when that is a directory. *)
Definition copy2 (fs : node) (src dst : path) : result node :=
  match get fs src with
  | Some (File content) =>
      let dst := if isdir fs dst then dst ++ [basename src] else dst in
      if decide (src = dst) then OSError "SameFileError"
      else write_file fs dst content
  | Some (Dir _) => OSError "IsADirectoryError"
  | None => OSError "FileNotFoundError"
  end.

(** What the outside world decides when an entry is copied: nothing
    ([None]: the copy goes its way), or that it fails for a reason the
    tree does not show (permissions, a full disk), and what the failed
    copy has left at the destination. *)
Definition copy_errors := string -> option (option node).

Definition default_exclude_names : list string := [".git"; "__pycache__"].

(** One turn of the loop of [copy_project_to]: the file system, and the
    entries a warning has been printed for. *)
Definition copy_item (errors : copy_errors) (exclude_names : list string)
    (cwd tmpdir : path) (st : node * list string) (item : string)
    : node * list string :=
  let '(fs, warned) := st in
  if bool_decide (item ∈ exclude_names) then (fs, warned)
  else
    let src := cwd ++ [item] in
    let dst := tmpdir ++ [item] in
    match errors item with
    | Some left_over =>
        (default fs (e ← left_over; put fs dst e), warned ++ [item])
    | None =>
        match (if isdir fs src then copytree fs src dst
               else copy2 fs src dst) with
        | oracle.Return fs => (fs, warned)
        | oracle.Raise _ => (fs, warned ++ [item])
        end
    end.

(** [copy_project_to(tmpdir, exclude_names)] in the working directory
    [cwd]; of the set of excluded names only membership is used. *)
Definition copy_project_to (errors : copy_errors) (cwd tmpdir : path)
    (exclude_names : option (list string)) (fs : node)
    : result (node * list string) :=
  let exclude_names := default default_exclude_names exclude_names in
  match get fs cwd with
  | Some (Dir project) =>
      Return (fold_left (copy_item errors exclude_names cwd tmpdir)
                project.*1 (fs, []))
  | Some (File _) => OSError "NotADirectoryError"
  | None => OSError "FileNotFoundError"
  end.

(** The entries of the temporary directory after a copy of [project] in
    which nothing fails. *)
Definition sandbox_of (exclude_names : list string) (project : listing)
    : listing :=
  omap (fun '(name, e) =>
          if bool_decide (name ∈ exclude_names) then None
          else Some (name, copy_of e))
    project.

(** What one turn of the loop keeps: the temporary directory is a
    directory, and it has no entry of the name. *)
Definition without (tmpdir : path) (name : string) (fs : node) : Prop :=
  (exists l, get fs tmpdir = Some (Dir l)) /\ get fs (tmpdir ++ [name]) = None.

(** A path as the program has it: relative to the working directory, or
    absolute. *)
Inductive pypath :=
| Relative (names : path)
| Absolute (names : path).

(** [os.path.join(tmpdir, path)]: an absolute [path] discards
    [tmpdir]. *)
Definition os_path_join (tmpdir : path) (p : pypath) : path :=
  match p with
  | Relative names => tmpdir ++ names
  | Absolute names => names
  end.

(** The sandbox of one mutant: the first statements of the body of
    [with tempfile.TemporaryDirectory() as tmpdir] in
    [mutate_file_and_test], up to the write of the mutated source. *)
Definition stage_mutant (errors : copy_errors) (cwd tmpdir : path)
    (path_to_file : pypath) (mutated_source : string) (fs : node)
    : result node :=
  bind (copy_project_to errors cwd tmpdir None fs) (fun '(fs, _) =>
  let target_path := os_path_join tmpdir path_to_file in
  bind (makedirs fs (dirname target_path)) (fun fs =>
  write_file fs target_path mutated_source)).

(** The paths below the working directory that [copy_project_to] copies:
    the first name is not excluded, and no name after it is ignored. *)
Definition copied (exclude_names : list string) (q : path) : bool :=
  match q with
  | [] => false
  | name :: q =>
      negb (bool_decide (name ∈ exclude_names)) &&
      forallb (fun name => negb (ignored name)) q
  end.

End files.

Module files_examples.
Import files.

Definition project : listing :=
  [ (".git", Dir [("HEAD", File "ref")]);
    ("mathfuncs.py", File "def inc(x): return x + 1");
    (".pytest_cache", Dir [("v", Dir [])]);
    ("tests", Dir [ ("__pycache__", Dir [("t.pyc", File "")]);
                    ("test_math.py", File "assert inc(1) == 2") ]);
    ("__pycache__", Dir []) ].

Definition cwd : path := ["home"; "project"].
Definition tmpdir : path := ["tmp"; "tmpab12"].

Definition fs : node :=
  Dir [ ("home", Dir [("project", Dir project)]);
        ("tmp", Dir [("tmpab12", Dir [])]) ].

Definition no_errors : copy_errors := fun _ => None.

(** The copy of [tests] fails when the directory has been made and
    nothing is in it yet. *)
Definition tests_fail : copy_errors := fun item =>
  if String.eqb item "tests" then Some (Some (Dir [])) else None.

End files_examples.

(** ** The command line ([main])

    [main] prints and calls the oracle.  The process is what it has
    printed, one string for each call of [print], and the state the
    oracle acts on.  The two functions [main] calls are collaborators:
    [collect_python_files] with the path of the command line, and
    [mutate_file_and_test] with each target. *)
Module cli.
Import oracle.

Record process := {
  stdout : list string;
  os : os_state
}.

(** Code of [main]: it reads and changes the process and may raise. *)
Definition P (A : Type) : Type := process -> result A * process.

#[global] Instance P_ret : MRet P := fun A a p => (Return a, p).
#[global] Instance P_bind : MBind P := fun A B f m p =>
  match m p with
  | (Return a, p) => f a p
  | (Raise e, p) => (Raise e, p)
  end.

Definition print (text : string) : P unit := fun p =>
  (Return tt, {| stdout := stdout p ++ [text]; os := os p |}).

(** A call of a function of the oracle. *)
Definition call {A} (m : M A) : P A := fun p =>
  let '(r, st) := m (os p) in (r, {| stdout := stdout p; os := st |}).

(** The newline of the f-strings that start with one. *)
Definition nl : string := String (Ascii.ascii_of_nat 10) EmptyString.

Definition mutating_line (t : string) : string :=
  nl +:+ "=== Mutating " +:+ t +:+ " ===".

Definition result_line (r : verdict) : string :=
  let status := if killed r then "killed" else "survived" in
  "  " +:+ mutation r +:+ ": " +:+ status.

Definition summary_line : string := nl +:+ "=== Summary ===".

Definition file_line (filename : string) (killed total : nat) : string :=
  filename +:+ ": " +:+ pretty killed +:+ "/" +:+ pretty total +:+ " killed".

Definition overall_line (total_killed total_mutants : nat) : string :=
  nl +:+ "Overall: " +:+ pretty total_killed +:+ "/" +:+ pretty total_mutants
  +:+ " killed".

(** [sum(1 for r in results if r["killed"])] *)
Definition killed_of (results : list verdict) : nat :=
  sum_list ((fun _ => 1%nat) <$> filter (fun r => killed r = true) results).

Section main.
Variable collect_python_files : string -> P (list string).
Variable mutate_file_and_test : string -> M (list verdict).

(** [for r in res: print(...)] *)
Fixpoint print_results (res : list verdict) : P unit :=
  match res with
  | [] => mret tt
  | r :: res => _ ← print (result_line r); print_results res
  end.

(** [for t in targets: ...] *)
Fixpoint mutate_targets (targets : list string)
    (all_results : list (string * list verdict))
    : P (list (string * list verdict)) :=
  match targets with
  | [] => mret all_results
  | t :: targets =>
      _ ← print (mutating_line t);
      res ← call (mutate_file_and_test t);
      match res with
      | [] =>
          _ ← print "  No mutation sites found.";
          mutate_targets targets all_results
      | _ =>
          _ ← print_results res;
          mutate_targets targets (all_results ++ [(t, res)])
      end
  end.

(** [for filename, results in all_results: ...] *)
Fixpoint summarize (all_results : list (string * list verdict))
    (total_killed total_mutants : nat) : P (nat * nat) :=
  match all_results with
  | [] => mret (total_killed, total_mutants)
  | (filename, results) :: all_results =>
      let killed := killed_of results in
      let total := length results in
      let total_killed := (total_killed + killed)%nat in
      let total_mutants := (total_mutants + total)%nat in
      _ ← print (file_line filename killed total);
      summarize all_results total_killed total_mutants
  end.

(** [main] with [args.path] parsed from the command line. *)
Definition main (path : string) : P unit :=
  targets ← collect_python_files path;
  match targets with
  | [] => print "No Python files found."
  | _ =>
      all_results ← mutate_targets targets [];
      _ ← print summary_line;
      totals ← summarize all_results 0%nat 0%nat;
      print (overall_line totals.1 totals.2)
  end.
End main.

(** What [main] prints for a target with the verdicts [res]. *)
Definition section_lines (t : string) (res : list verdict) : list string :=
  mutating_line t ::
  match res with
  | [] => ["  No mutation sites found."]
  | _ => result_line <$> res
  end.

(** The report of a run in which the target [t] has the verdicts
    [results t]. *)
Definition report (targets : list string) (results : string -> list verdict)
    : list string :=
  let listed := filter (fun t => results t <> []) targets in
  flat_map (fun t => section_lines t (results t)) targets
  ++ [summary_line]
  ++ ((fun t => file_line t (killed_of (results t)) (length (results t)))
        <$> listed)
  ++ [overall_line (sum_list (killed_of ∘ results <$> targets))
        (sum_list (length ∘ results <$> targets))].

End cli.

Module cli_examples.
Import oracle cli.

(** Two targets are found; the first has two mutants, the second none. *)
Definition found : string -> P (list string) := fun _ => mret ["a.py"; "b.py"].

Definition verdicts (t : string) : list verdict :=
  if String.eqb t "a.py"
  then [ {| mutation := "Compare @ 1:3 (Eq -> NotEq)"; killed := true |};
         {| mutation := "BinOp @ 2:4 (Sub -> Add)"; killed := false |} ]
  else [].

Definition returns : string -> M (list verdict) := fun t => mret (verdicts t).

(** The text of the second target does not parse. *)
Definition b_fails : string -> M (list verdict) := fun t =>
  if String.eqb t "b.py" then raise SyntaxError else mret (verdicts t).

Definition start : process := {| stdout := []; os := oracle_examples.project |}.

End cli_examples.

(** ** The specification's own words

    What the text of the specification says the catalog holds, to
    compare the code against. *)
Module spec.
Import ast.

(** "each mapped to its logical opposite (equals, not-equals;
    less-than, greater-than)" *)
Definition logical_opposite (c : cmpop) : option cmpop :=
  match c with
  | Eq => Some NotEq
  | NotEq => Some Eq
  | Lt => Some Gt
  | Gt => Some Lt
  | _ => None
  end.

(** "one COMPARISON site per operator in the chain whose operator is one
    of equals, not-equals, less-than, greater-than [...]; operatorIndex
    is the operator's position within that chain" *)
Definition comparison_sites (lineno col_offset : Z) (chain : list cmpop)
    : list site :=
  mjoin
    (imap
       (fun i c =>
          match logical_opposite c with
          | Some c' =>
              [CompareSite lineno col_offset (Z.of_nat i)
                 (cmpop_name c) (cmpop_name c')]
          | None => []
          end)
       chain).

(** "one BINARY_OP site mapping addition to subtraction and subtraction
    to addition", and no site for any other operator *)
Definition binary_op_sites (lineno col_offset : Z) (o : operator) : list site :=
  match o with
  | Add => [BinOpSite lineno col_offset "Add" "Sub"]
  | Sub => [BinOpSite lineno col_offset "Sub" "Add"]
  | _ => []
  end.

End spec.

(** * Properties *)

(** ** Induction on trees

    A tree nests lists of trees, so the induction hypothesis for a node
    covers every node of its list fields. *)
Section tree_induction.
Import ast.
Variables (P : node -> Prop) (Q : value -> Prop).
Hypothesis P_Compare : forall ln co l ops cs,
  P l -> Forall P cs -> P (Compare ln co l ops cs).
Hypothesis P_BinOp : forall ln co l op r, P l -> P r -> P (BinOp ln co l op r).
Hypothesis P_Constant : forall ln co v, P (Constant ln co v).
Hypothesis P_Other : forall cls pos fields,
  Forall (fun fv => Q (snd fv)) fields -> P (Other cls pos fields).
Hypothesis Q_VNode : forall n, P n -> Q (VNode n).
Hypothesis Q_VList : forall items, Forall Q items -> Q (VList items).
Hypothesis Q_VRaw : forall c, Q (VRaw c).

Fixpoint node_induction (n : node) : P n :=
  match n with
  | Compare ln co l ops cs =>
      P_Compare ln co l ops cs (node_induction l)
        ((fix all (cs : list node) : Forall P cs :=
            match cs with
            | [] => Forall_nil_2 P
            | c :: cs => Forall_cons_2 P c cs (node_induction c) (all cs)
            end) cs)
  | BinOp ln co l op r =>
      P_BinOp ln co l op r (node_induction l) (node_induction r)
  | Constant ln co v => P_Constant ln co v
  | Other cls pos fields =>
      P_Other cls pos fields
        ((fix all (fs : list (string * value))
            : Forall (fun fv => Q (snd fv)) fs :=
            match fs with
            | [] => Forall_nil_2 _
            | fv :: fs =>
                Forall_cons_2 (fun fv => Q (snd fv)) fv fs
                  (value_induction (snd fv)) (all fs)
            end) fields)
  end
with value_induction (v : value) : Q v :=
  match v with
  | VNode n => Q_VNode n (node_induction n)
  | VList items =>
      Q_VList items
        ((fix all (vs : list value) : Forall Q vs :=
            match vs with
            | [] => Forall_nil_2 Q
            | v :: vs => Forall_cons_2 Q v vs (value_induction v) (all vs)
            end) items)
  | VRaw c => Q_VRaw c
  end.

Lemma tree_induction : (forall n, P n) /\ (forall v, Q v).
Proof. split; [exact node_induction | exact value_induction]. Qed.
End tree_induction.

(** ** The operator table *)

(** The table as it is after the display has been evaluated: the second
    ["Add"] item has replaced the first. *)
Lemma OP_MUTATION_MAP_lookup name target :
  OP_MUTATION_MAP !! name = Some target <->
  (name, target) ∈
    [ ("Eq", "NotEq"); ("NotEq", "Eq"); ("Lt", "Gt"); ("Gt", "Lt");
      ("Sub", "Add"); ("Add", "Mult"); ("Mult", "Add") ].
Proof.
  unfold OP_MUTATION_MAP, dict_display; simpl.
  rewrite !lookup_insert_Some, lookup_empty, !elem_of_cons, elem_of_nil.
  split.
  - intros H. repeat (destruct H as [[<- <-]|[? H]]; [tauto|]). discriminate.
  - intros H.
    repeat (destruct H as [[= -> ->]|H]; [intuition congruence|]). contradiction.
Qed.

Lemma OP_MUTATION_MAP_cmpop (c : ast.cmpop) :
  OP_MUTATION_MAP !! ast.cmpop_name c
  = ast.cmpop_name <$> spec.logical_opposite c.
Proof. destruct c; reflexivity. Qed.

(** ** The collector only appends *)
Section collector_facts.
Import ast MutationSiteCollector.

Lemma compare_loop_app ln co idx ops sites :
  compare_loop ln co idx ops sites = sites ++ compare_loop ln co idx ops [].
Proof.
  revert idx sites. induction ops as [|op ops IH]; intros idx sites; simpl.
  - by rewrite app_nil_r.
  - rewrite IH. rewrite (IH _ (match _ with Some _ => _ | None => _ end)).
    destruct (OP_MUTATION_MAP !! op); by rewrite <- ?app_assoc.
Qed.

Lemma fold_left_app_sites {A} (f : list site -> A -> list site) (l : list A) :
  Forall (fun x => forall sites, f sites x = sites ++ f [] x) l ->
  forall sites, fold_left f l sites = sites ++ flat_map (f []) l.
Proof.
  induction 1 as [|x l Hx _ IH]; intros sites; simpl.
  - by rewrite app_nil_r.
  - by rewrite IH, Hx, <- app_assoc.
Qed.

Lemma binop_step_app ln co op sites :
  binop_step ln co op sites = sites ++ binop_step ln co op [].
Proof. unfold binop_step. destruct (OP_MUTATION_MAP !! op); by rewrite ?app_nil_r. Qed.

Lemma constant_step_app ln co v sites :
  constant_step ln co v sites = sites ++ constant_step ln co v [].
Proof.
  destruct v as [b| | | |]; simpl; rewrite ?app_nil_r; try done.
  by destruct (CONST_BOOL_MUTATIONS !! b); rewrite ?app_nil_r.
Qed.

Lemma visit_app_both :
  (forall n sites, visit n sites = sites ++ visit n []) /\
  (forall v sites, visit_value v sites = sites ++ visit_value v []).
Proof.
  apply tree_induction.
  - intros ln co l ops cs IHl IHcs sites; simpl.
    rewrite !(fold_left_app_sites (fun acc c => visit c acc) cs IHcs).
    rewrite (IHl (compare_loop ln co 0 ops sites)), (compare_loop_app _ _ _ _ sites).
    rewrite (IHl (compare_loop ln co 0 ops [])).
    by rewrite <- !app_assoc.
  - intros ln co l op r IHl IHr sites; simpl.
    rewrite (IHr (visit l (binop_step ln co op sites))),
      (IHl (binop_step ln co op sites)), (binop_step_app _ _ _ sites).
    rewrite (IHr (visit l (binop_step ln co op []))),
      (IHl (binop_step ln co op [])).
    by rewrite <- !app_assoc.
  - intros ln co v sites; simpl. apply constant_step_app.
  - intros cls pos fields IH sites; simpl.
    by rewrite !(fold_left_app_sites
                   (fun acc fv => visit_value (snd fv) acc) fields IH).
  - intros n IH sites. apply IH.
  - intros items IH sites; simpl.
    assert (Forall
              (fun item : value => forall s : list site,
                   match item with VNode n => visit n s | _ => s end
                   = s ++ match item with VNode n => visit n [] | _ => [] end)
              items) as IH'.
    { eapply Forall_impl; [exact IH|]. intros [n|its|c] Hv s; simpl;
        rewrite ?app_nil_r; try done. apply (Hv s). }
    by rewrite !(fold_left_app_sites
                   (fun acc item =>
                      match item with VNode n => visit n acc | _ => acc end)
                   items IH').
  - intros c sites; simpl. by rewrite app_nil_r.
Qed.

Lemma visit_app n sites : visit n sites = sites ++ collect n.
Proof. apply visit_app_both. Qed.

Lemma fold_left_visit cs sites :
  fold_left (fun acc c => visit c acc) cs sites = sites ++ flat_map collect cs.
Proof.
  apply (fold_left_app_sites (fun acc c => visit c acc)).
  apply Forall_forall. intros c _ s. apply visit_app.
Qed.

Lemma compare_loop_spec ln co (chain : list cmpop) idx :
  compare_loop ln co idx (cmpop_name <$> chain) []
  = mjoin
      (imap
         (fun i c =>
            match spec.logical_opposite c with
            | Some c' =>
                [CompareSite ln co (idx + Z.of_nat i)
                   (cmpop_name c) (cmpop_name c')]
            | None => []
            end)
         chain).
Proof.
  revert idx. induction chain as [|c chain IH]; intros idx; [done|].
  simpl. rewrite compare_loop_app, OP_MUTATION_MAP_cmpop, IH.
  rewrite Z.add_0_r. f_equal.
  - by destruct (spec.logical_opposite c).
  - f_equal. apply imap_ext. intros i c' _; simpl.
    by replace (idx + 1 + Z.of_nat i) with (idx + Z.of_nat (S i)) by lia.
Qed.
End collector_facts.

(** ** What the collector records *)
Section catalog.
Import ast MutationSiteCollector.

(** C9: cataloging is deterministic.  Whatever a collector holds before
    it visits a tree, the visit appends the same sites in the same
    order, the ones a fresh collector finds; so two runs on one tree,
    by two collectors or by one, record the same ordered list. *)
Theorem collector_deterministic (root : node) (before1 before2 : list site) :
  visit root before1 = before1 ++ collect root /\
  visit root before2 = before2 ++ collect root /\
  visit root (visit root []) = collect root ++ collect root.
Proof. by rewrite !visit_app. Qed.

(** The sites a [BinOp] node adds for its own operator. *)
Lemma visit_BinOp ln co l op r sites :
  visit (BinOp ln co l op r) sites
  = sites ++ binop_step ln co op [] ++ collect l ++ collect r.
Proof.
  simpl. rewrite (visit_app r), (visit_app l), binop_step_app.
  by rewrite <- !app_assoc.
Qed.

(** The sites a [Compare] node adds for its own operators. *)
Lemma visit_Compare ln co l ops cs sites :
  visit (Compare ln co l ops cs) sites
  = sites ++ compare_loop ln co 0 ops [] ++ collect l ++ flat_map collect cs.
Proof.
  simpl. rewrite fold_left_visit, (visit_app l), compare_loop_app.
  by rewrite <- !app_assoc.
Qed.

(** C1 (as amended): a binary operation node adds exactly one [BinOp]
    site of its own when its operator is addition, subtraction or
    multiplication, and none for any other operator; the site of a
    subtraction maps it to addition and the site of a multiplication
    maps it to addition.  For [x = a + b] the catalog is one [BinOp]
    site, at the addition. *)
Theorem binop_sites_by_operator :
  (forall ln co (o : operator) l r sites,
     exists own,
       visit (BinOp ln co l (operator_name o) r) sites
       = sites ++ own ++ collect l ++ collect r /\
       match o with
       | Add => exists target, own = [BinOpSite ln co "Add" target]
       | Sub => own = [BinOpSite ln co "Sub" "Add"]
       | Mult => own = [BinOpSite ln co "Mult" "Add"]
       | _ => own = []
       end) /\
  (exists target,
     collect scenarios.scenario_B = [BinOpSite 1 4 "Add" target]).
Proof.
  split.
  - intros ln co o l r sites.
    exists (binop_step ln co (operator_name o) []).
    split; [apply visit_BinOp|].
    destruct o; try reflexivity. by eexists.
  - by eexists.
Qed.

(** C5: a comparison node adds one [Compare] site for each operator of
    its chain that is [Eq], [NotEq], [Lt] or [Gt], in chain order,
    mapped to its logical opposite and indexed by its position in the
    chain.  For [if a == b: return True] the catalog is the [Compare]
    site ([Eq] to [NotEq]) followed by the [ConstantBool] site ([True]
    to [False]), and applying the former to the tree gives the tree
    and the text of [if a != b: return True]. *)
Theorem comparison_sites_by_operator :
  (forall ln co l (chain : list cmpop) cs sites,
     visit (Compare ln co l (cmpop_name <$> chain) cs) sites
     = sites ++ spec.comparison_sites ln co chain
         ++ collect l ++ flat_map collect cs) /\
  collect scenarios.scenario_A
  = [CompareSite 1 3 0 "Eq" "NotEq"; ConstantBoolSite 1 18 true false] /\
  SingleSiteApplier.visit (CompareSite 1 3 0 "Eq" "NotEq")
    scenarios.scenario_A false
  = (scenarios.if_a_b_return "NotEq" true, true) /\
  unparser.unparse (scenarios.if_a_b_return "NotEq" true)
  = String.concat (String (Ascii.ascii_of_nat 10) "")
      ["if a != b:"; "    return True"].
Proof.
  split; [|by repeat split].
  intros ln co l chain cs sites.
  rewrite visit_Compare, compare_loop_spec. reflexivity.
Qed.
End catalog.

(** ** One traversal, one rewrite *)
Section map_state_facts.
Context {A : Type} (f : A -> bool -> A * bool).

Lemma map_state_applied (l : list A) :
  Forall (fun x => f x true = (x, true)) l -> map_state f l true = (l, true).
Proof.
  induction 1 as [|x l Hx _ IH]; simpl; [done|]. by rewrite Hx, IH.
Qed.

(** With a flag that is raised at most once, at most one item of the
    list is rewritten. *)
Lemma map_state_first_match (R : A -> A -> Prop) (l : list A) :
  Forall (fun x =>
            f x true = (x, true) /\
            (f x false = (x, false) \/
             exists x', f x false = (x', true) /\ R x x')) l ->
  map_state f l false = (l, false) \/
  exists l1 x x' l2,
    l = l1 ++ x :: l2 /\ R x x' /\
    map_state f l false = (l1 ++ x' :: l2, true).
Proof.
  induction 1 as [|x l [Ht Hf] Hl IH]; simpl; [by left|].
  destruct Hf as [Hf|(x' & Hf & HR)]; rewrite Hf.
  - destruct IH as [IH|(l1 & y & y' & l2 & -> & HR & IH)]; rewrite IH.
    + by left.
    + right. by exists (x :: l1), y, y', l2.
  - right. exists [], x, x', l. repeat split; try done.
    rewrite map_state_applied; [done|].
    eapply Forall_impl; [exact Hl|]. by intros ? [? _].
Qed.

(** With a flag that is never raised, the items that hold the key are
    the only ones that can be rewritten. *)
Context {K : Type} `{EqDecision K} (pos : A -> list K) (key : K).

Lemma map_state_untouched (l : list A) :
  Forall (fun x => key ∉ pos x -> f x false = (x, false)) l ->
  key ∉ flat_map pos l -> map_state f l false = (l, false).
Proof.
  induction 1 as [|x l Hx _ IH]; simpl; [done|].
  rewrite elem_of_app. intros Hkey.
  rewrite Hx, IH by tauto. done.
Qed.

Lemma map_state_unique_key (R : A -> A -> Prop) (l : list A) :
  Forall (fun x =>
            (key ∉ pos x -> f x false = (x, false)) /\
            (NoDup (pos x) ->
             f x false = (x, false) \/
             exists x', f x false = (x', false) /\ R x x')) l ->
  NoDup (flat_map pos l) ->
  map_state f l false = (l, false) \/
  exists l1 x x' l2,
    l = l1 ++ x :: l2 /\ R x x' /\
    map_state f l false = (l1 ++ x' :: l2, false).
Proof.
  induction 1 as [|x l [Hout Hin] Hl IH]; simpl; [by left|].
  rewrite NoDup_app. intros (Hx & Hdisj & Hrest).
  destruct (Hin Hx) as [Hf|(x' & Hf & HR)]; rewrite Hf.
  - destruct (IH Hrest) as [IH'|(l1 & y & y' & l2 & -> & HR & IH')];
      rewrite IH'.
    + by left.
    + right. by exists (x :: l1), y, y', l2.
  - destruct (decide (key ∈ pos x)) as [Hkey|Hkey].
    + right. exists [], x, x', l. repeat split; try done.
      rewrite map_state_untouched; [done| |by apply Hdisj].
      eapply Forall_impl; [exact Hl|]. by intros ? [? _].
    + rewrite Hout in Hf by done. injection Hf as <-.
      destruct (IH Hrest) as [IH'|(l1 & y & y' & l2 & -> & HR' & IH')];
        rewrite IH'.
      * by left.
      * right. by exists (x :: l1), y, y', l2.
Qed.
End map_state_facts.

Section applier_facts.
Import ast SingleSiteApplier.
Variable s : site.

Lemma visit_Compare_eq ln co l ops cs a :
  visit s (Compare ln co l ops cs) a
  = if a || negb (kind_is s KCompare) then generic_Compare s ln co l ops cs a
    else match mutate_ops s ln co ops with
         | Some ops' => (Compare ln co l ops' cs, true)
         | None => generic_Compare s ln co l ops cs a
         end.
Proof. reflexivity. Qed.

Lemma visit_BinOp_eq ln co l op r a :
  visit s (BinOp ln co l op r) a
  = if a || negb (kind_is s KBinOp) then generic_BinOp s ln co l op r a
    else match mutate_op s ln co op with
         | Some op' => (BinOp ln co l op' r, true)
         | None => generic_BinOp s ln co l op r a
         end.
Proof. reflexivity. Qed.

Lemma visit_Other_eq cls pos fields a :
  visit s (Other cls pos fields) a
  = let '(fields', a) := map_state (visit_field s) fields a in
    (Other cls pos fields', a).
Proof. reflexivity. Qed.

Lemma visit_VList_eq items a :
  visit_value s (VList items) a
  = let '(items', a) := map_state (visit_item s) items a in (VList items', a).
Proof. reflexivity. Qed.

Lemma visit_VNode_eq n a :
  visit_value s (VNode n) a = let '(n', a) := visit s n a in (VNode n', a).
Proof. reflexivity. Qed.

(** Once [self.applied] is set, the transformer changes nothing. *)
Lemma visit_applied_both :
  (forall n, visit s n true = (n, true)) /\
  (forall v, visit_value s v true = (v, true)).
Proof.
  apply tree_induction.
  - intros ln co l ops cs IHl IHcs.
    rewrite visit_Compare_eq; simpl. unfold generic_Compare.
    by rewrite IHl, (map_state_applied _ _ IHcs).
  - intros ln co l op r IHl IHr.
    rewrite visit_BinOp_eq; simpl. unfold generic_BinOp.
    by rewrite IHl, IHr.
  - done.
  - intros cls pos fields IH. rewrite visit_Other_eq.
    rewrite map_state_applied; [done|].
    eapply Forall_impl; [exact IH|]. intros [name v] Hv; simpl in *.
    unfold visit_field; simpl. by rewrite Hv.
  - intros n IH. by rewrite visit_VNode_eq, IH.
  - intros items IH. rewrite visit_VList_eq.
    rewrite map_state_applied; [done|].
    eapply Forall_impl; [exact IH|]. by intros [n|its|c] Hv.
  - done.
Qed.

Lemma mutate_ops_edit ln co ops ops' :
  mutate_ops s ln co ops = Some ops' ->
  exists (i : nat) op, (i < length ops)%nat /\ ops' = <[i := op]> ops.
Proof.
  unfold mutate_ops. destruct s as [sl sc idx orig target| |]; try done.
  destruct (matches_location _ _ _); [|done].
  destruct (_ && _) eqn:Hrange; [|done].
  destruct (ops !! Z.to_nat idx) as [op|] eqn:Hop; [|done].
  destruct (String.eqb op orig); [|done]. intros [= <-].
  exists (Z.to_nat idx), target. split; [|done].
  by eapply lookup_lt_Some.
Qed.

(** A site of an operator kind is applied at the first node that
    passes the tests, and nowhere else. *)
Lemma visit_first_match_both :
  kind s <> KConstantBool ->
  (forall n,
     visit s n false = (n, false) \/
     exists n', visit s n false = (n', true) /\ one_edit n n') /\
  (forall v,
     visit_value s v false = (v, false) \/
     exists v', visit_value s v false = (v', true) /\ one_edit_value v v').
Proof.
  intros Hkind. apply tree_induction.
  - intros ln co l ops cs IHl IHcs.
    assert (generic_Compare s ln co l ops cs false
            = (Compare ln co l ops cs, false) \/
            exists n', generic_Compare s ln co l ops cs false = (n', true) /\
                       one_edit (Compare ln co l ops cs) n') as Hgen.
    { unfold generic_Compare.
      destruct IHl as [->|(l' & -> & Hl)].
      - destruct (map_state_first_match (visit s) one_edit cs)
          as [->|(cs1 & c & c' & cs2 & -> & Hc & ->)].
        + eapply Forall_impl; [exact IHcs|]. intros c Hc. split; [|done].
          apply visit_applied_both.
        + by left.
        + right. eexists. split; [done|]. by constructor.
      - rewrite map_state_applied.
        + right. eexists. split; [done|]. by constructor.
        + apply Forall_forall. intros c _. apply visit_applied_both. }
    rewrite visit_Compare_eq; simpl.
    destruct (negb (kind_is s KCompare)); [done|].
    destruct (mutate_ops s ln co ops) as [ops'|] eqn:Hops; [|done].
    right. eexists. split; [done|].
    destruct (mutate_ops_edit _ _ _ _ Hops) as (i & op & Hi & ->).
    by constructor.
  - intros ln co l op r IHl IHr.
    assert (generic_BinOp s ln co l op r false = (BinOp ln co l op r, false) \/
            exists n', generic_BinOp s ln co l op r false = (n', true) /\
                       one_edit (BinOp ln co l op r) n') as Hgen.
    { unfold generic_BinOp.
      destruct IHl as [->|(l' & -> & Hl)].
      - destruct IHr as [->|(r' & -> & Hr)]; [by left|].
        right. eexists. split; [done|]. by constructor.
      - rewrite (proj1 visit_applied_both).
        right. eexists. split; [done|]. by constructor. }
    rewrite visit_BinOp_eq; simpl.
    destruct (negb (kind_is s KBinOp)); [done|].
    destruct (mutate_op s ln co op) as [op'|]; [|done].
    right. eexists. split; [done|]. constructor.
  - intros ln co v. left. simpl.
    replace (kind_is s KConstantBool) with false; [done|].
    unfold kind_is. by destruct (kind s).
  - intros cls pos fields IH. rewrite visit_Other_eq.
    destruct (map_state_first_match (visit_field s)
                (fun fv fv' => fst fv' = fst fv /\
                               one_edit_value (snd fv) (snd fv')) fields)
      as [->|(fs1 & [name v] & [name' v'] & fs2 & -> & [Hn Hv] & ->)].
    + eapply Forall_impl; [exact IH|]. intros [name v] Hv; simpl in *.
      unfold visit_field; simpl. split.
      * by rewrite (proj2 visit_applied_both).
      * destruct Hv as [->|(v' & -> & Hv)]; [by left|].
        right. by eexists.
    + by left.
    + right. eexists. split; [done|]. simpl in *. subst name'.
      by constructor.
  - intros n IH. rewrite visit_VNode_eq.
    destruct IH as [->|(n' & -> & Hn)]; [by left|].
    right. eexists. split; [done|]. by constructor.
  - intros items IH. rewrite visit_VList_eq.
    destruct (map_state_first_match (visit_item s)
                (fun it it' => exists n n', it = VNode n /\ it' = VNode n' /\
                                            one_edit n n') items)
      as [->|(is1 & it & it' & is2 & -> & (n & n' & -> & -> & Hn) & ->)].
    + eapply Forall_impl; [exact IH|]. intros [n|its|c] Hv; simpl.
      * split; [by rewrite (proj1 visit_applied_both)|].
        rewrite visit_VNode_eq in Hv.
        destruct (visit s n false) as [n' a] eqn:Hvis.
        destruct Hv as [Hv|(v' & Hv & He)]; simplify_eq; [by left|].
        right. eexists. split; [done|]. inversion He; subst. eauto.
      * split; [done|by left].
      * split; [done|by left].
    + by left.
    + right. eexists. split; [done|]. by constructor.
  - intros c. by left.
Qed.

Lemma generic_Compare_as_list ln co l ops cs a :
  generic_Compare s ln co l ops cs a
  = let '(lcs, a') := map_state (visit s) (l :: cs) a in
    (Compare ln co (hd l lcs) ops (tl lcs), a').
Proof.
  unfold generic_Compare; simpl.
  destruct (visit s l a) as [l' a1], (map_state (visit s) cs a1); done.
Qed.

Lemma generic_BinOp_as_list ln co l op r a :
  generic_BinOp s ln co l op r a
  = let '(lr, a') := map_state (visit s) [l; r] a in
    (BinOp ln co (hd l lr) op (hd r (tl lr)), a').
Proof.
  unfold generic_BinOp; simpl.
  destruct (visit s l a) as [l' a1], (visit s r a1); done.
Qed.

Lemma mutate_value_untouched ln co v :
  (lineno s, col_offset s) ∉ bool_positions (Constant ln co v) ->
  mutate_value s ln co v = None.
Proof.
  unfold mutate_value, matches_location.
  destruct s as [| |sl sc orig target]; try done; simpl.
  destruct v as [b| | | |]; simpl; intros Hpos;
    destruct (_ && _) eqn:Hloc; try done.
  exfalso. apply Hpos. apply andb_true_iff in Hloc as [Hl Hc].
  apply Z.eqb_eq in Hl, Hc. subst. left.
Qed.

(** A [ConstantBool] site never sets [self.applied]; it rewrites the
    boolean literals at its position and nothing else. *)
Lemma visit_constant_site_both :
  kind s = KConstantBool ->
  (forall n,
     ((lineno s, col_offset s) ∉ bool_positions n ->
      visit s n false = (n, false)) /\
     (NoDup (bool_positions n) ->
      visit s n false = (n, false) \/
      exists n', visit s n false = (n', false) /\ one_edit n n')) /\
  (forall v,
     ((lineno s, col_offset s) ∉ bool_positions_value v ->
      visit_value s v false = (v, false)) /\
     (NoDup (bool_positions_value v) ->
      visit_value s v false = (v, false) \/
      exists v', visit_value s v false = (v', false) /\ one_edit_value v v')).
Proof.
  intros Hkind.
  assert (kind_is s KCompare = false /\ kind_is s KBinOp = false /\
          kind_is s KConstantBool = true) as (HkC & HkB & HkK)
    by (unfold kind_is; rewrite Hkind; done).
  apply tree_induction.
  - intros ln co l ops cs IHl IHcs.
    rewrite visit_Compare_eq, HkC; simpl.
    rewrite generic_Compare_as_list.
    assert (Forall
              (fun x =>
                 ((lineno s, col_offset s) ∉ bool_positions x ->
                  visit s x false = (x, false)) /\
                 (NoDup (bool_positions x) ->
                  visit s x false = (x, false) \/
                  exists x', visit s x false = (x', false) /\ one_edit x x'))
              (l :: cs)) as IH by (by constructor).
    split.
    + intros Hpos.
      rewrite (map_state_untouched (visit s) bool_positions
                 (lineno s, col_offset s) (l :: cs)); [done| |done].
      eapply Forall_impl; [exact IH|]. by intros ? [? _].
    + intros Hnd.
      destruct (map_state_unique_key (visit s) bool_positions
                  (lineno s, col_offset s) one_edit (l :: cs) IH Hnd)
        as [->|(l1 & x & x' & l2 & Heq & Hx & ->)]; [by left|].
      right. eexists. split; [done|].
      destruct l1 as [|y l1]; simpl in *; simplify_eq; by constructor.
  - intros ln co l op r IHl IHr.
    rewrite visit_BinOp_eq, HkB; simpl.
    rewrite generic_BinOp_as_list.
    assert (Forall
              (fun x =>
                 ((lineno s, col_offset s) ∉ bool_positions x ->
                  visit s x false = (x, false)) /\
                 (NoDup (bool_positions x) ->
                  visit s x false = (x, false) \/
                  exists x', visit s x false = (x', false) /\ one_edit x x'))
              [l; r]) as IH by (by repeat first [apply Forall_cons_2|apply Forall_nil_2]).
    split.
    + intros Hpos.
      rewrite (map_state_untouched (visit s) bool_positions
                 (lineno s, col_offset s) [l; r]); [done|..].
      * eapply Forall_impl; [exact IH|]. by intros ? [? _].
      * simpl. by rewrite app_nil_r.
    + intros Hnd.
      destruct (map_state_unique_key (visit s) bool_positions
                  (lineno s, col_offset s) one_edit [l; r] IH)
        as [->|(l1 & x & x' & l2 & Heq & Hx & ->)].
      * simpl. by rewrite app_nil_r.
      * by left.
      * right. eexists. split; [done|].
        destruct l1 as [|y [|z l1]]; simpl in *; simplify_eq.
        -- by constructor.
        -- by constructor.
        -- by destruct l1.
  - intros ln co v. simpl visit. rewrite HkK; simpl. split.
    + intros Hpos. by rewrite mutate_value_untouched.
    + intros _. destruct (mutate_value s ln co v); [|by left].
      right. eexists. split; [done|]. constructor.
  - intros cls pos fields IH. rewrite visit_Other_eq.
    assert (Forall
              (fun fv : string * value =>
                 ((lineno s, col_offset s) ∉ bool_positions_value (snd fv) ->
                  visit_field s fv false = (fv, false)) /\
                 (NoDup (bool_positions_value (snd fv)) ->
                  visit_field s fv false = (fv, false) \/
                  exists fv', visit_field s fv false = (fv', false) /\
                              fst fv' = fst fv /\
                              one_edit_value (snd fv) (snd fv')))
              fields) as IH'.
    { eapply Forall_impl; [exact IH|]. intros [name v] [Hout Hin]; simpl in *.
      unfold visit_field; simpl. split.
      - intros Hpos. by rewrite Hout.
      - intros Hnd. destruct (Hin Hnd) as [->|(v' & -> & Hv)]; [by left|].
        right. by eexists. }
    split.
    + intros Hpos.
      rewrite (map_state_untouched (visit_field s)
                 (fun fv => bool_positions_value (snd fv))
                 (lineno s, col_offset s) fields); [done| |done].
      eapply Forall_impl; [exact IH'|]. by intros ? [? _].
    + intros Hnd.
      destruct (map_state_unique_key (visit_field s)
                  (fun fv => bool_positions_value (snd fv))
                  (lineno s, col_offset s)
                  (fun fv fv' => fst fv' = fst fv /\
                                 one_edit_value (snd fv) (snd fv'))
                  fields IH' Hnd)
        as [->|(fs1 & [name v] & [name' v'] & fs2 & -> & [Hn Hv] & ->)];
        [by left|].
      right. eexists. split; [done|]. simpl in *. subst name'.
      by constructor.
  - intros n [Hout Hin]. rewrite visit_VNode_eq. split.
    + intros Hpos. by rewrite Hout.
    + intros Hnd. destruct (Hin Hnd) as [->|(n' & -> & Hn)]; [by left|].
      right. eexists. split; [done|]. by constructor.
  - intros items IH. rewrite visit_VList_eq.
    set (pos := fun item =>
                  match item with VNode n => bool_positions n | _ => [] end).
    assert (Forall
              (fun it : value =>
                 ((lineno s, col_offset s) ∉ pos it ->
                  visit_item s it false = (it, false)) /\
                 (NoDup (pos it) ->
                  visit_item s it false = (it, false) \/
                  exists it', visit_item s it false = (it', false) /\
                              exists n n', it = VNode n /\ it' = VNode n' /\
                                           one_edit n n'))
              items) as IH'.
    { eapply Forall_impl; [exact IH|]. intros [n|its|c] [Hout Hin]; simpl.
      - rewrite visit_VNode_eq in Hout, Hin. simpl in Hout, Hin.
        destruct (visit s n false) as [n' a] eqn:Hvis. split.
        + intros Hpos. specialize (Hout Hpos). by simplify_eq.
        + intros Hnd. destruct (Hin Hnd) as [Hv|(v' & Hv & He)];
            simplify_eq; [by left|].
          right. eexists. split; [done|]. inversion He; subst. eauto.
      - split; [done|by left].
      - split; [done|by left]. }
    split.
    + intros Hpos.
      rewrite (map_state_untouched (visit_item s) pos
                 (lineno s, col_offset s) items); [done| |done].
      eapply Forall_impl; [exact IH'|]. by intros ? [? _].
    + intros Hnd.
      destruct (map_state_unique_key (visit_item s) pos
                  (lineno s, col_offset s)
                  (fun it it' => exists n n', it = VNode n /\ it' = VNode n' /\
                                              one_edit n n')
                  items IH' Hnd)
        as [->|(is1 & it & it' & is2 & -> & (n & n' & -> & -> & Hn) & ->)];
        [by left|].
      right. eexists. split; [done|]. by constructor.
  - intros c. split; [done|by left].
Qed.

(** The transformer changes the tree in at most one place.  For a site
    of an operator kind [self.applied] sees to it; for a [ConstantBool]
    site the positions of the boolean literals, which no two literals of
    a parsed text share, do. *)
Lemma visit_at_most_one_edit n :
  (kind s = KConstantBool -> NoDup (bool_positions n)) ->
  fst (visit s n false) = n \/ one_edit n (fst (visit s n false)).
Proof.
  intros Hnd. destruct (decide (kind s = KConstantBool)) as [Hk|Hk].
  - destruct (proj1 (visit_constant_site_both Hk) n) as [_ Hin].
    destruct (Hin (Hnd Hk)) as [->|(n' & -> & He)]; [by left|by right].
  - destruct (proj1 (visit_first_match_both Hk) n) as [->|(n' & -> & He)];
      [by left|by right].
Qed.
End applier_facts.

(** ** The loop of the generator *)
Section store_facts.
Import ast.
Variable unparse : node -> string.

Lemma deepcopy_fresh (σ : store) root t :
  σ !! root = Some t ->
  deepcopy root σ = (length σ, σ ++ [t]) /\ length σ <> root.
Proof.
  intros Hroot. unfold deepcopy.
  rewrite (list_lookup_total_correct _ _ _ Hroot). split; [done|].
  apply lookup_lt_Some in Hroot. lia.
Qed.

Lemma apply_in_place_copy s (σ : store) t :
  apply_in_place s (length σ) (σ ++ [t])
  = (length σ, snd (SingleSiteApplier.visit s t false),
     σ ++ [fst (SingleSiteApplier.visit s t false)]).
Proof.
  unfold apply_in_place.
  assert ((σ ++ [t]) !!! length σ = t) as ->.
  { apply list_lookup_total_correct. by rewrite lookup_app_r, Nat.sub_diag. }
  destruct (SingleSiteApplier.visit s t false) as [t' a]; simpl.
  f_equal. replace (length σ) with (length σ + 0)%nat at 1 by lia.
  by rewrite insert_app_r.
Qed.

Lemma mutant_loop_cons root s sites mutants (σ : store) :
  mutant_loop unparse root (s :: sites) mutants σ
  = let '(tree_copy, σ) := deepcopy root σ in
    let '(mutated_tree, applied, σ) := apply_in_place s tree_copy σ in
    if negb applied then mutant_loop unparse root sites mutants σ
    else mutant_loop unparse root sites
           (mutants ++ [(description s, unparse (σ !!! mutated_tree))]) σ.
Proof. reflexivity. Qed.

Lemma mutant_loop_spec root t sites :
  forall (σ : store) mutants,
    σ !! root = Some t ->
    exists σ',
      mutant_loop unparse root sites mutants σ
      = (mutants ++ omap (mutant_of unparse t) sites, σ ++ σ').
Proof.
  induction sites as [|s sites IH]; intros σ mutants Hroot.
  - exists []. simpl. by rewrite !app_nil_r.
  - rewrite mutant_loop_cons.
    destruct (deepcopy_fresh σ root t Hroot) as [-> _].
    rewrite apply_in_place_copy.
    destruct (SingleSiteApplier.visit s t false) as [t' applied] eqn:Hvis.
    simpl fst; simpl snd.
    assert ((σ ++ [t']) !! root = Some t) as Hroot'
      by (by apply lookup_app_l_Some).
    destruct applied; simpl negb; cbv iota.
    + destruct (IH (σ ++ [t'])
                  (mutants ++ [(description s, unparse ((σ ++ [t']) !!! length σ))])
                  Hroot') as [σ' ->].
      exists (t' :: σ'). simpl omap. unfold mutant_of at 2. rewrite Hvis.
      assert ((σ ++ [t']) !!! length σ = t') as ->.
      { apply list_lookup_total_correct.
        by rewrite lookup_app_r, Nat.sub_diag. }
      by rewrite <- !app_assoc.
    + destruct (IH (σ ++ [t']) mutants Hroot') as [σ' ->].
      exists (t' :: σ'). simpl omap. unfold mutant_of at 2. rewrite Hvis.
      by rewrite <- !app_assoc.
Qed.
End store_facts.

(** ** Sites the generator drops *)
Section dropped_sites.
Import ast SingleSiteApplier.

Lemma map_state_flag {A} (f : A -> bool -> A * bool) (l : list A) :
  Forall (fun x => forall a, snd (f x a) = a) l ->
  forall a, snd (map_state f l a) = a.
Proof.
  induction 1 as [|x l Hx _ IH]; intros a; simpl; [done|].
  specialize (Hx a). destruct (f x a) as [x' a1]; simpl in Hx; subst a1.
  specialize (IH a). by destruct (map_state f l a).
Qed.

(** A [ConstantBool] site leaves [self.applied] as it finds it. *)
Lemma visit_constant_site_flag s :
  kind s = KConstantBool ->
  (forall n a, snd (visit s n a) = a) /\
  (forall v a, snd (visit_value s v a) = a).
Proof.
  intros Hkind.
  assert (kind_is s KCompare = false /\ kind_is s KBinOp = false)
    as [HkC HkB] by (unfold kind_is; rewrite Hkind; done).
  apply tree_induction.
  - intros ln co l ops cs IHl IHcs a.
    rewrite visit_Compare_eq, HkC, orb_true_r. unfold generic_Compare.
    specialize (IHl a). destruct (visit s l a) as [l' a1]; simpl in IHl; subst.
    pose proof (map_state_flag (visit s) cs IHcs a) as Hcs.
    by destruct (map_state (visit s) cs a).
  - intros ln co l op r IHl IHr a.
    rewrite visit_BinOp_eq, HkB, orb_true_r. unfold generic_BinOp.
    specialize (IHl a). destruct (visit s l a) as [l' a1]; simpl in IHl; subst.
    specialize (IHr a). by destruct (visit s r a).
  - intros ln co v a; simpl.
    destruct (a || negb (kind_is s KConstantBool)); [done|].
    by destruct (mutate_value s ln co v).
  - intros cls pos fields IH a. rewrite visit_Other_eq.
    assert (Forall (fun fv => forall a, snd (visit_field s fv a) = a) fields)
      as IH'.
    { eapply Forall_impl; [exact IH|]. intros [name v] Hv a'; simpl in *.
      unfold visit_field; simpl. specialize (Hv a').
      by destruct (visit_value s v a'). }
    pose proof (map_state_flag (visit_field s) fields IH' a) as Hfs.
    by destruct (map_state (visit_field s) fields a).
  - intros n IH a. rewrite visit_VNode_eq. specialize (IH a).
    by destruct (visit s n a).
  - intros items IH a. rewrite visit_VList_eq.
    assert (Forall (fun it => forall a, snd (visit_item s it a) = a) items)
      as IH'.
    { eapply Forall_impl; [exact IH|]. intros [n|its|c] Hv a'; simpl; try done.
      specialize (Hv a'). rewrite visit_VNode_eq in Hv.
      by destruct (visit s n a'). }
    pose proof (map_state_flag (visit_item s) items IH' a) as His.
    by destruct (map_state (visit_item s) items a).
  - done.
Qed.

Lemma generate_mutants_spec unparse parsed :
  generate_mutants unparse parsed
  = omap (mutant_of unparse parsed) (MutationSiteCollector.collect parsed).
Proof.
  unfold generate_mutants.
  destruct (mutant_loop_spec unparse 0%nat parsed
              (MutationSiteCollector.collect parsed) [parsed] [] eq_refl)
    as [σ' Hloop].
  simpl in *. by rewrite Hloop.
Qed.

Lemma constant_site_never_a_mutant unparse t s :
  kind s = KConstantBool -> mutant_of unparse t s = None.
Proof.
  intros Hkind. unfold mutant_of.
  pose proof (proj1 (visit_constant_site_flag s Hkind) t false) as Hflag.
  destruct (visit s t false) as [t' a]; simpl in Hflag. by subst.
Qed.
End dropped_sites.

(** ** The scenarios, evaluated *)
Section scenario_facts.
Import ast MutationSiteCollector scenarios.

(** C1 (as stated) fails: the catalog of [x = a + b] maps the addition
    to a multiplication, the mutant reads [x = a * b], and a
    multiplication has a site of its own. *)
Lemma add_site_targets_mult :
  collect scenario_B = [BinOpSite 1 4 "Add" "Mult"] /\
  collect scenario_B <> spec.binary_op_sites 1 4 Add /\
  generate_mutants unparser.unparse scenario_B
  = [("BinOp @ 1:4 (Add -> Mult)", "x = a * b")] /\
  (snd <$> generate_mutants unparser.unparse scenario_B) <> ["x = a - b"] /\
  collect (assign_x_a_b (operator_name Mult)) = [BinOpSite 1 4 "Mult" "Add"] /\
  collect (assign_x_a_b (operator_name Mult)) <> spec.binary_op_sites 1 4 Mult.
Proof. repeat split; try reflexivity; discriminate. Qed.

(** C2 fails on the code for every boolean literal.  The mutants of a
    tree are what its sites give one by one, and a [ConstantBool] site
    gives none: the applier returns with [self.applied] unset, so the
    generator skips the site.  On [if a == b: return True] the catalog
    has two sites; the applier finds the node of the [ConstantBool] site
    and replaces its value, yet the generator returns one mutant. *)
Theorem boolean_site_dropped :
  (forall unparse parsed,
     generate_mutants unparse parsed
     = omap (mutant_of unparse parsed) (collect parsed)) /\
  (forall unparse parsed ln co orig target,
     mutant_of unparse parsed (ConstantBoolSite ln co orig target) = None) /\
  collect scenario_A
  = [CompareSite 1 3 0 "Eq" "NotEq"; ConstantBoolSite 1 18 true false] /\
  SingleSiteApplier.visit (ConstantBoolSite 1 18 true false) scenario_A false
  = (if_a_b_return "Eq" false, false) /\
  (fst <$> generate_mutants unparser.unparse scenario_A)
  = ["Compare @ 1:3 (Eq -> NotEq)"].
Proof.
  split; [apply generate_mutants_spec|].
  split; [intros; by apply constant_site_never_a_mutant|].
  repeat split; reflexivity.
Qed.

(** C3, evaluated on [a + b + c]: the two additions start at the same
    position, so the catalog holds two sites with the same kind, line,
    column and operator index, and the applier rewrites the outer
    addition for both. *)
Theorem left_nested_sites_collide :
  collect sum_of_three
  = [BinOpSite 1 0 "Add" "Mult"; BinOpSite 1 0 "Add" "Mult"] /\
  ~ NoDup (site_key <$> collect sum_of_three) /\
  generate_mutants unparser.unparse sum_of_three
  = [ ("BinOp @ 1:0 (Add -> Mult)", "(a + b) * c");
      ("BinOp @ 1:0 (Add -> Mult)", "(a + b) * c") ].
Proof.
  repeat split; try reflexivity.
  intros Hnd. apply NoDup_cons in Hnd as [Hnotin _]. apply Hnotin. left.
Qed.
End scenario_facts.

(** ** The original tree stays pristine *)
Section pristine.
Import ast.
Variable unparse : node -> string.

(** C8: the applier works on a deep copy and changes at most one node.
    Let [root] hold the tree [t].  The object a site is applied to is a
    new one that holds [t]; after the visit every object that existed
    before, [root] included, is as it was, and the visited copy is [t]
    or differs from [t] in one place (for a [ConstantBool] site, given
    that no two boolean literals of [t] share a position, as in every
    parsed text).  After the whole loop every object that existed before
    is as it was, and each mutant is the one its site gives on [t]
    itself, whatever the sites before it did. *)
Theorem mutation_leaves_original_pristine
    (σ : store) (root : ref) (t : node) (sites : list site)
    (mutants : list (string * string)) :
  σ !! root = Some t ->
  (forall s,
     (kind s = KConstantBool -> NoDup (bool_positions t)) ->
     exists t',
       let '(tree_copy, σ1) := deepcopy root σ in
       let '(mutated_tree, _, σ2) := apply_in_place s tree_copy σ1 in
       tree_copy <> root /\ σ1 !! tree_copy = Some t /\
       untouched σ σ2 /\ σ2 !! root = Some t /\
       σ2 !! mutated_tree = Some t' /\ (t' = t \/ one_edit t t')) /\
  (exists σ',
     mutant_loop unparse root sites mutants σ
     = (mutants ++ omap (mutant_of unparse t) sites, σ') /\
     untouched σ σ' /\ σ' !! root = Some t).
Proof.
  intros Hroot. split.
  - intros s Hnd. exists (fst (SingleSiteApplier.visit s t false)).
    destruct (deepcopy_fresh σ root t Hroot) as [-> Hfresh].
    rewrite apply_in_place_copy.
    repeat split.
    + done.
    + by rewrite lookup_app_r, Nat.sub_diag.
    + intros r Hr. by rewrite lookup_app_l.
    + by apply lookup_app_l_Some.
    + by rewrite lookup_app_r, Nat.sub_diag.
    + destruct (visit_at_most_one_edit s t Hnd); [by left|by right].
  - destruct (mutant_loop_spec unparse root t sites σ mutants Hroot)
      as [σ' ->].
    exists (σ ++ σ'). repeat split.
    + intros r Hr. by rewrite lookup_app_l.
    + by apply lookup_app_l_Some.
Qed.

End pristine.

(** The loop on [if a == b: return True], and its [ConstantBool] site
    applied to a copy. *)
Lemma scenario_A_stays_pristine :
  [scenarios.scenario_A] !! 0%nat = Some scenarios.scenario_A /\
  NoDup (bool_positions scenarios.scenario_A) /\
  (exists t',
     let '(tree_copy, σ1) := deepcopy 0 [scenarios.scenario_A] in
     let '(mutated_tree, _, σ2) :=
       apply_in_place (ConstantBoolSite 1 18 true false) tree_copy σ1 in
     tree_copy <> 0%nat /\ σ1 !! tree_copy = Some scenarios.scenario_A /\
     untouched [scenarios.scenario_A] σ2 /\
     σ2 !! 0%nat = Some scenarios.scenario_A /\
     σ2 !! mutated_tree = Some t' /\
     (t' = scenarios.scenario_A \/ one_edit scenarios.scenario_A t')) /\
  (exists σ',
     mutant_loop unparser.unparse 0
       (MutationSiteCollector.collect scenarios.scenario_A) []
       [scenarios.scenario_A]
     = ([] ++ omap (mutant_of unparser.unparse scenarios.scenario_A)
                (MutationSiteCollector.collect scenarios.scenario_A), σ') /\
     untouched [scenarios.scenario_A] σ' /\
     σ' !! 0%nat = Some scenarios.scenario_A).
Proof.
  assert ([scenarios.scenario_A] !! 0%nat = Some scenarios.scenario_A) as H1
    by reflexivity.
  assert (NoDup (bool_positions scenarios.scenario_A)) as H2
    by (vm_compute; apply NoDup_singleton).
  split; [exact H1|]. split; [exact H2|].
  destruct (mutation_leaves_original_pristine unparser.unparse
              [scenarios.scenario_A] 0%nat scenarios.scenario_A
              (MutationSiteCollector.collect scenarios.scenario_A) [] H1)
    as [Hsite Hloop].
  split; [|exact Hloop].
  exact (Hsite (ConstantBoolSite 1 18 true false) (fun _ => H2)).
Defined.

(** The copy matters: applied to [root] itself, a site changes the tree
    that the sites after it would start from. *)
Remark in_place_on_root_interferes :
  let '(_, _, σ') :=
    apply_in_place (CompareSite 1 3 0 "Eq" "NotEq") 0 [scenarios.scenario_A] in
  σ' !! 0%nat = Some (scenarios.if_a_b_return "NotEq" true) /\
  σ' !! 0%nat <> Some scenarios.scenario_A.
Proof. split; [reflexivity|discriminate]. Qed.

(** The positions matter: a [ConstantBool] site rewrites every boolean
    literal found at its position, which in a tree that no parse returns
    can be more than one. *)
Remark literals_at_one_position :
  SingleSiteApplier.visit (ConstantBoolSite 1 0 true false)
    (ast.BinOp 1 0 (ast.Constant 1 0 (PyBool true)) "Add"
               (ast.Constant 1 0 (PyBool true))) false
  = (ast.BinOp 1 0 (ast.Constant 1 0 (PyBool false)) "Add"
               (ast.Constant 1 0 (PyBool false)), false).
Proof. reflexivity. Qed.

(** ** The oracle *)
Section oracle_facts.
Import oracle.

Lemma mkdtemp_spec names st :
  (mkdtemp names st = (Raise (OSError "FileExistsError"), st) /\
   Forall (fun name => name ∈ dirs st) names) \/
  exists name,
    name ∈ names /\ (name ∉ dirs st) /\
    mkdtemp names st
    = (Return name, {| cwd := cwd st; dirs := {[name]} ∪ dirs st |}).
Proof.
  induction names as [|name names IH]; simpl; [by left|].
  destruct (decide (name ∈ dirs st)) as [Hin|Hout].
  - destruct IH as [[-> Hall]|(name' & Hin' & Hout' & ->)].
    + left. by split; [|constructor].
    + right. exists name'. by rewrite elem_of_cons; auto.
  - right. exists name. by rewrite elem_of_cons; auto.
Qed.

(** The state in which the test process runs, and the one the [finally]
    clause leaves. *)
Lemma run_in_sandbox w tmpdir original st :
  tmpdir ∈ dirs st -> original ∈ dirs st ->
  try_finally (_ ← chdir tmpdir; run_pytest_in_cwd w) (chdir original) st
  = (match subprocess_run true (test_run w) with
     | Return _ => Return true
     | Raise TimeoutExpired | Raise (CalledProcessError _) => Return false
     | Raise e => Raise e
     end,
     {| cwd := original; dirs := dirs st |}).
Proof.
  intros Htmp Horig. unfold try_finally, mbind, M_bind, chdir; simpl.
  rewrite decide_True by done. unfold run_pytest_in_cwd; simpl.
  destruct (subprocess_run true (test_run w)) as [rc|[]]; simpl;
    by rewrite decide_True.
Qed.

Lemma evaluate_mutant_restores w mutant st :
  cwd st ∈ dirs st ->
  cwd (snd (evaluate_mutant w mutant st)) = cwd st /\
  dirs (snd (evaluate_mutant w mutant st)) = dirs st.
Proof.
  intros Hcwd. destruct mutant as [desc mutated_source].
  pose proof (run_in_sandbox w) as Hrun.
  cbv [evaluate_mutant with_TemporaryDirectory mbind M_bind] in *.
  destruct (mkdtemp_spec (candidates w) st)
    as [[-> _]|(tmpdir & _ & Hfresh & ->)]; [done|].
  cbv [try_finally copy_project_to syscall raise mret M_ret getcwd cleanup] in *.
  destruct (listdir_error w); [simpl; split; [done|set_solver]|].
  destruct (makedirs_error w); [simpl; split; [done|set_solver]|].
  destruct (write_error w); [simpl; split; [done|set_solver]|].
  cbv beta iota. rewrite Hrun by (simpl; set_solver).
  destruct (subprocess_run true (test_run w)) as [rc|[]]; simpl;
    (split; [done|set_solver]).
Qed.

Lemma mkdtemp_free w st :
  (exists name, name ∈ candidates w /\ name ∉ dirs st) ->
  exists tmpdir,
    (tmpdir ∉ dirs st) /\
    mkdtemp (candidates w) st
    = (Return tmpdir, {| cwd := cwd st; dirs := {[tmpdir]} ∪ dirs st |}).
Proof.
  intros (name & Hin & Hfree).
  destruct (mkdtemp_spec (candidates w) st)
    as [[_ Hall]|(tmpdir & _ & Hfresh & Heq)]; [|by eauto].
  rewrite Forall_forall in Hall. by destruct Hfree; auto.
Qed.

(** An evaluation whose set-up meets no obstacle ends as the test run
    does, in the state it started from. *)
Lemma evaluate_mutant_runs w desc mutated_source st :
  cwd st ∈ dirs st -> setup_ok w st ->
  evaluate_mutant w (desc, mutated_source) st
  = (match test_run w with
     | Exited returncode =>
         Return {| mutation := desc; killed := negb (returncode =? 0) |}
     | TimedOut => Return {| mutation := desc; killed := true |}
     | LaunchFailed what => Raise (OSError what)
     end, st).
Proof.
  intros Hcwd (Hfree & Hlist & Hmk & Hwr).
  pose proof (run_in_sandbox w) as Hrun.
  cbv [evaluate_mutant with_TemporaryDirectory mbind M_bind] in *.
  destruct (mkdtemp_free w st Hfree) as (tmpdir & Hfresh & ->).
  cbv [try_finally copy_project_to syscall raise mret M_ret getcwd cleanup] in *.
  rewrite Hlist, Hmk, Hwr. cbv beta iota.
  rewrite Hrun by (simpl; set_solver).
  assert ({| cwd := cwd st; dirs := ({[tmpdir]} ∪ dirs st) ∖ {[tmpdir]} |} = st)
    as Hst.
  { destruct st as [c d]; simpl in *. f_equal. set_solver. }
  destruct (test_run w) as [rc| |what]; simpl.
  - destruct (rc =? 0); simpl; by rewrite Hst.
  - by rewrite Hst.
  - by rewrite Hst.
Qed.

(** Whatever happens, a verdict that is recorded reports how the test
    run ended. *)
Lemma evaluate_mutant_verdict w desc mutated_source st v st' :
  evaluate_mutant w (desc, mutated_source) st = (Return v, st') ->
  (exists returncode,
     test_run w = Exited returncode /\
     v = {| mutation := desc; killed := negb (returncode =? 0) |}) \/
  (test_run w = TimedOut /\ v = {| mutation := desc; killed := true |}).
Proof.
  cbv [evaluate_mutant with_TemporaryDirectory mbind M_bind].
  destruct (mkdtemp_spec (candidates w) st)
    as [[-> _]|(tmpdir & _ & Hfresh & ->)]; [done|].
  cbv [try_finally copy_project_to syscall raise mret M_ret getcwd cleanup
       chdir run_pytest_in_cwd].
  destruct (listdir_error w); [done|].
  destruct (makedirs_error w); [done|].
  destruct (write_error w); [done|].
  cbv beta iota. simpl cwd; simpl dirs.
  rewrite decide_True by set_solver.
  destruct (test_run w) as [rc| |what]; simpl.
  - destruct (rc =? 0) eqn:Hrc; simpl;
      destruct (decide (cwd st ∈ {[tmpdir]} ∪ dirs st)); simpl;
      intros [= <- <-]; left; exists rc; by rewrite Hrc.
  - destruct (decide (cwd st ∈ {[tmpdir]} ∪ dirs st)); simpl;
      intros [= <- <-]. by right.
  - by destruct (decide (cwd st ∈ {[tmpdir]} ∪ dirs st)).
Qed.

Lemma evaluate_all_restores env mutants :
  forall i results st,
    cwd st ∈ dirs st ->
    cwd (snd (evaluate_all env i mutants results st)) = cwd st /\
    dirs (snd (evaluate_all env i mutants results st)) = dirs st.
Proof.
  induction mutants as [|mutant mutants IH]; intros i results st Hcwd;
    [done|].
  simpl. unfold mbind, M_bind.
  destruct (evaluate_mutant_restores (env i) mutant st Hcwd) as [Hc Hd].
  destruct (evaluate_mutant (env i) mutant st) as [[v|e] st1];
    simpl in *; [|done].
  destruct (IH (S i) (results ++ [v]) st1) as [Hc' Hd'];
    [by rewrite Hc, Hd|].
  by rewrite Hc', Hd'.
Qed.

(** C7: on every exit path of a mutant evaluation, whether it records a
    verdict (the tests passed, failed or timed out) or raises (a system
    call of the set-up failed, the test runner could not be launched),
    the sandbox directory is gone and the working directory is the
    original one: the directories that exist afterwards are those that
    existed before.  The same holds for the whole loop over the mutants
    of a file and for [mutate_file_and_test]. *)
Theorem sandbox_always_removed (w : world) (mutant : string * string)
    (env : nat -> world) (mutants : list (string * string))
    (parse : string -> option ast.node) (unparse : ast.node -> string)
    (original : string) (st : os_state) :
  cwd st ∈ dirs st ->
  (cwd (snd (evaluate_mutant w mutant st)) = cwd st /\
   dirs (snd (evaluate_mutant w mutant st)) = dirs st) /\
  (cwd (snd (evaluate_all env 0 mutants [] st)) = cwd st /\
   dirs (snd (evaluate_all env 0 mutants [] st)) = dirs st) /\
  (cwd (snd (mutate_file_and_test parse unparse env original st)) = cwd st /\
   dirs (snd (mutate_file_and_test parse unparse env original st)) = dirs st).
Proof.
  intros Hcwd. split; [|split].
  - by apply evaluate_mutant_restores.
  - by apply evaluate_all_restores.
  - unfold mutate_file_and_test.
    destruct (generate_mutants_from_source unparse parse original); [|done].
    by apply evaluate_all_restores.
Qed.

(** C6: when the set-up of an evaluation meets no obstacle, a test run
    that exits records a verdict whose [killed] flag is false for exit
    code zero and true for any other code, and a test run that times
    out records a verdict whose flag is true.  Conversely, whenever a
    verdict is recorded, its flag is true exactly when the run exited
    with a nonzero code or timed out, and false exactly when it exited
    with code zero. *)
Theorem killed_iff_failed_or_timed_out (w : world) (desc source : string)
    (st : os_state) :
  cwd st ∈ dirs st -> setup_ok w st ->
  (forall returncode,
     test_run w = Exited returncode ->
     evaluate_mutant w (desc, source) st
     = (Return {| mutation := desc; killed := negb (returncode =? 0) |}, st)) /\
  (test_run w = TimedOut ->
   evaluate_mutant w (desc, source) st
   = (Return {| mutation := desc; killed := true |}, st)) /\
  (forall v st',
     evaluate_mutant w (desc, source) st = (Return v, st') ->
     (killed v = true <->
      (exists returncode, test_run w = Exited returncode /\ returncode <> 0)
      \/ test_run w = TimedOut) /\
     (killed v = false <-> test_run w = Exited 0)).
Proof.
  intros Hcwd Hsetup.
  pose proof (evaluate_mutant_runs w desc source st Hcwd Hsetup) as Hrun.
  split; [|split].
  - intros rc Hrc. by rewrite Hrun, Hrc.
  - intros Hto. by rewrite Hrun, Hto.
  - intros v st' Hv.
    destruct (evaluate_mutant_verdict _ _ _ _ _ _ Hv)
      as [(rc & Hrc & ->)|[Hto ->]]; simpl.
    + rewrite Hrc, negb_true_iff, negb_false_iff, Z.eqb_neq, Z.eqb_eq.
      split; split.
      * intros Hne. left. by exists rc.
      * intros [(rc' & [= <-] & Hne)|[=]]. done.
      * by intros ->.
      * by intros [= ->].
    + rewrite Hto. split; split; try done.
      intros _. by right.
Qed.

(** C4 (as amended): if the test runner cannot be launched,
    [run_pytest_in_cwd] raises the launch error; the evaluation records
    no verdict for the mutant, so the run is reported neither as killed
    nor as passed, and when the set-up met no obstacle the error is what
    the evaluation raises, the sandbox having been removed. *)
Theorem launch_failure_propagates (w : world) (what desc source : string)
    (st : os_state) :
  test_run w = LaunchFailed what ->
  run_pytest_in_cwd w st = (Raise (OSError what), st) /\
  (forall v st', evaluate_mutant w (desc, source) st <> (Return v, st')) /\
  (cwd st ∈ dirs st -> setup_ok w st ->
   evaluate_mutant w (desc, source) st = (Raise (OSError what), st)).
Proof.
  intros Hlaunch. repeat split.
  - unfold run_pytest_in_cwd. by rewrite Hlaunch.
  - intros v st' Heq.
    destruct (evaluate_mutant_verdict _ _ _ _ _ _ Heq)
      as [(rc & Hrc & _)|[Hto _]]; congruence.
  - intros Hcwd Hsetup.
    by rewrite (evaluate_mutant_runs w desc source st Hcwd Hsetup), Hlaunch.
Qed.
End oracle_facts.

Section oracle_witnesses.
Import oracle oracle_examples.

(** The example project and its worlds meet the hypotheses. *)
Lemma project_cwd_exists : cwd project ∈ dirs project.
Proof. unfold project; simpl. by apply elem_of_singleton_2. Defined.

Lemma a_world_setup_ok o : setup_ok (a_world o) project.
Proof.
  repeat split; try reflexivity.
  exists "/tmp/tmpa". split; [left|].
  unfold project; simpl. intros Hin.
  apply elem_of_singleton_1 in Hin. discriminate.
Defined.

(** A run that times out in the example project. *)
Lemma sandbox_removed_after_timeout :
  cwd (snd (evaluate_mutant (a_world TimedOut) ("m", "x = 1") project))
  = cwd project /\
  dirs (snd (evaluate_mutant (a_world TimedOut) ("m", "x = 1") project))
  = dirs project.
Proof.
  exact (proj1 (sandbox_always_removed (a_world TimedOut) ("m", "x = 1")
                  (fun _ => a_world TimedOut) [] (fun _ => None)
                  unparser.unparse "" project project_cwd_exists)).
Defined.

(** A run that exits with code 1 in the example project. *)
Lemma failing_run_is_killed :
  evaluate_mutant (a_world (Exited 1)) ("m", "x = 1") project
  = (Return {| mutation := "m"; killed := true |}, project).
Proof.
  exact (proj1 (killed_iff_failed_or_timed_out (a_world (Exited 1)) "m" "x = 1"
                  project project_cwd_exists (a_world_setup_ok _))
           1 eq_refl).
Defined.

(** A run for which [pytest] is not installed, in the example project. *)
Lemma missing_pytest_raises :
  evaluate_mutant (a_world (LaunchFailed "FileNotFoundError")) ("m", "x = 1")
    project
  = (Raise (OSError "FileNotFoundError"), project).
Proof.
  exact (proj2 (proj2 (launch_failure_propagates
                         (a_world (LaunchFailed "FileNotFoundError"))
                         "FileNotFoundError" "m" "x = 1" project eq_refl))
           project_cwd_exists (a_world_setup_ok _)).
Defined.

(** C4 (as stated) fails: with [pytest] missing the oracle raises instead
    of returning the mutant as killed. *)
Lemma launch_failure_is_not_a_verdict :
  run_pytest_in_cwd (a_world (LaunchFailed "FileNotFoundError")) project
  = (Raise (OSError "FileNotFoundError"), project) /\
  run_pytest_in_cwd (a_world (LaunchFailed "FileNotFoundError")) project
  <> (Return false, project) /\
  evaluate_mutant (a_world (LaunchFailed "FileNotFoundError")) ("m", "x = 1")
    project
  <> (Return {| mutation := "m"; killed := true |}, project).
Proof.
  split; [reflexivity|]. split; [discriminate|].
  vm_compute. discriminate.
Qed.
End oracle_witnesses.

(** ** Target discovery *)
Section entry_induction.
Import discovery.
Variable P : entry -> Prop.
Hypothesis P_File : P File.
Hypothesis P_Dir : forall children,
  Forall (fun ne => P (snd ne)) children -> P (Dir children).

Fixpoint entry_induction (e : entry) : P e :=
  match e with
  | File => P_File
  | Dir children =>
      P_Dir children
        ((fix all (l : list (string * entry))
            : Forall (fun ne => P (snd ne)) l :=
            match l with
            | [] => Forall_nil_2 _
            | ne :: l =>
                Forall_cons_2 (fun ne => P (snd ne)) ne l
                  (entry_induction (snd ne)) (all l)
            end) children)
  end.
End entry_induction.

Section discovery_facts.
Import discovery.

Lemma below_snoc top rel name e :
  below top (rel ++ [name]) e <->
  exists children, below top rel (Dir children) /\ (name, e) ∈ children.
Proof.
  split.
  - remember (rel ++ [name]) as p eqn:Hp. intros Hb. revert rel Hp.
    induction Hb as [e|children n e p e' Hin Hb IH]; intros rel Hp.
    + by destruct rel.
    + destruct rel as [|n' rel]; simpl in Hp; simplify_eq.
      * inversion Hb; subst. exists children. split; [constructor|done].
      * destruct (IH rel eq_refl) as (ch & Hb' & Hin').
        exists ch. split; [by econstructor|done].
  - intros (children & Hb & Hin).
    remember (Dir children) as d eqn:Hd. revert Hd.
    induction Hb as [e0|ch n e0 p e' Hin0 Hb IH]; intros ->; simpl.
    + econstructor; [done|constructor].
    + econstructor; [done|by apply IH].
Qed.

(** The triples of [os.walk]: one for each directory at or below the
    top, with the names of the subdirectories and of the files in it. *)
Lemma elem_of_walk e :
  forall root triple,
    triple ∈ walk root e <->
    exists rel children,
      below e rel (Dir children) /\
      triple
      = (root ++ rel,
         fst <$> filter (fun ne => is_dir_entry ne = true) children,
         fst <$> filter (fun ne => is_dir_entry ne = false) children).
Proof.
  induction e as [|children IH] using entry_induction; intros root triple.
  - simpl. rewrite elem_of_nil. split; [done|].
    intros (rel & ch & Hb & _). inversion Hb.
  - simpl. rewrite elem_of_cons, list_elem_of_bind. split.
    + intros [->|([name sub] & Hin & Hsub)].
      * exists [], children. rewrite app_nil_r. split; [constructor|done].
      * rewrite Forall_forall in IH.
        apply (IH _ Hsub) in Hin as (rel & ch & Hb & ->). simpl.
        exists (name :: rel), ch. split; [by econstructor|].
        by rewrite <- app_assoc.
    + intros (rel & ch & Hb & ->).
      inversion Hb as [|? name sub rel' ? Hin Hb']; subst.
      * left. by rewrite app_nil_r.
      * right. exists (name, sub). split; [|done].
        rewrite Forall_forall in IH. apply (IH _ Hin). simpl.
        exists rel', ch. split; [done|]. by rewrite <- app_assoc.
Qed.

Lemma elem_of_filenames name (children : list (string * entry)) :
  name ∈ fst <$> filter (fun ne => is_dir_entry ne = false) children <->
  (name, File) ∈ children.
Proof.
  rewrite list_elem_of_fmap. split.
  - intros ([n e] & -> & Hin). apply list_elem_of_filter in Hin as [Hf Hin].
    by destruct e.
  - intros Hin. exists (name, File). split; [done|].
    by apply list_elem_of_filter.
Qed.

(** C10: target discovery.  When the path names a file the result is
    that path alone, whatever the name ends in; when it names a
    directory the result holds exactly the paths of the files at any
    depth below it whose name ends in [.py]; when it names nothing the
    result is empty. *)
Theorem collect_python_files_spec (fs : entry) (p : path) :
  match resolve fs p with
  | Some File => collect_python_files fs p = [p]
  | Some (Dir children) =>
      forall q,
        q ∈ collect_python_files fs p <->
        exists rel name,
          q = p ++ rel ++ [name] /\
          below (Dir children) (rel ++ [name]) File /\
          endswith name ".py" = true
  | None => collect_python_files fs p = []
  end.
Proof.
  unfold collect_python_files, isfile, isdir.
  destruct (resolve fs p) as [[|children]|]; try done.
  intros q. rewrite list_elem_of_bind. split.
  - intros ([[root dirnames] filenames] & Hq & Htriple).
    apply elem_of_walk in Htriple as (rel & ch & Hb & [= -> -> ->]).
    apply list_elem_of_fmap in Hq as (name & -> & Hname).
    apply list_elem_of_filter in Hname as [Hpy Hname].
    apply elem_of_filenames in Hname.
    exists rel, name. split; [by rewrite app_assoc|]. split; [|done].
    apply below_snoc. eauto.
  - intros (rel & name & -> & Hb & Hpy).
    apply below_snoc in Hb as (ch & Hb & Hin).
    eexists (p ++ rel, _, _). split.
    + apply list_elem_of_fmap. exists name. split; [by rewrite app_assoc|].
      apply list_elem_of_filter. split; [done|].
      by apply elem_of_filenames.
    + apply elem_of_walk. eauto.
Qed.
End discovery_facts.

Example collect_python_files_tree :
  discovery.collect_python_files discovery_examples.tree []
  = [["a.py"]; ["pkg"; "b.py"]; ["d.py"; "c.py"]] /\
  discovery.collect_python_files discovery_examples.tree ["notes.txt"]
  = [["notes.txt"]] /\
  discovery.collect_python_files discovery_examples.tree ["pkg"; "missing"]
  = [].
Proof. repeat split. Qed.

(** * Further properties *)

(** ** The catalog and the tables *)
Section table_facts.
Lemma OP_MUTATION_MAP_changes orig target :
  OP_MUTATION_MAP !! orig = Some target ->
  orig <> target /\ is_Some (OP_MUTATION_MAP !! target).
Proof.
  rewrite OP_MUTATION_MAP_lookup, !elem_of_cons, elem_of_nil.
  intros H.
  repeat (destruct H as [[= -> ->]|H]; [split; [discriminate|by eexists]|]).
  contradiction.
Qed.

Lemma CONST_BOOL_MUTATIONS_flip (b : bool) :
  CONST_BOOL_MUTATIONS !! b = Some (negb b).
Proof. by destruct b. Qed.
End table_facts.

Section catalog_invariant.
Import ast MutationSiteCollector.

Lemma elem_of_compare_loop ln co ops : forall idx s,
  s ∈ compare_loop ln co idx ops [] ->
  exists (k : nat) op target,
    ops !! k = Some op /\ OP_MUTATION_MAP !! op = Some target /\
    s = CompareSite ln co (idx + Z.of_nat k) op target.
Proof.
  induction ops as [|op ops IH]; intros idx s; simpl.
  - by rewrite elem_of_nil.
  - rewrite compare_loop_app, elem_of_app. intros [Hs|Hs].
    + destruct (OP_MUTATION_MAP !! op) as [target|] eqn:Hop; simpl in Hs.
      * apply list_elem_of_singleton in Hs as ->.
        exists 0%nat, op, target. by rewrite Z.add_0_r.
      * by apply elem_of_nil in Hs.
    + apply IH in Hs as (k & op' & target & Hk & Hop & ->).
      exists (S k), op', target. repeat split; try done. f_equal. lia.
Qed.

Lemma elem_of_flat_map {A B} (f : A -> list B) (l : list A) (y : B) :
  y ∈ flat_map f l <-> exists x, x ∈ l /\ y ∈ f x.
Proof.
  rewrite list_elem_of_In, in_flat_map.
  by setoid_rewrite list_elem_of_In.
Qed.

(** Where a site of the catalog comes from. *)
Lemma elem_of_collect_Compare ln co l ops cs s :
  s ∈ collect (Compare ln co l ops cs) <->
  s ∈ compare_loop ln co 0 ops [] \/ s ∈ collect l \/
  exists c, c ∈ cs /\ s ∈ collect c.
Proof.
  unfold collect at 1. rewrite visit_Compare; simpl.
  by rewrite !elem_of_app, elem_of_flat_map.
Qed.

Lemma elem_of_collect_BinOp ln co l op r s :
  s ∈ collect (BinOp ln co l op r) <->
  s ∈ binop_step ln co op [] \/ s ∈ collect l \/ s ∈ collect r.
Proof.
  unfold collect at 1. rewrite visit_BinOp; simpl.
  by rewrite !elem_of_app.
Qed.

Lemma collect_Other cls pos fields :
  collect (Other cls pos fields)
  = flat_map (fun fv => visit_value (snd fv) []) fields.
Proof.
  unfold collect; simpl.
  rewrite (fold_left_app_sites (fun acc fv => visit_value (snd fv) acc)).
  - done.
  - apply Forall_forall. intros fv _ sites. apply visit_app_both.
Qed.

Lemma collect_VList items :
  visit_value (VList items) []
  = flat_map (fun item => match item with VNode n => collect n | _ => [] end)
      items.
Proof.
  simpl.
  rewrite (fold_left_app_sites
             (fun acc item =>
                match item with VNode n => visit n acc | _ => acc end)).
  - done.
  - apply Forall_forall. intros [n|its|c] _ sites; simpl;
      rewrite ?app_nil_r; try done. apply visit_app.
Qed.

Lemma collect_from_tables_both :
  (forall n s, s ∈ collect n -> from_tables s) /\
  (forall v s, s ∈ visit_value v [] -> from_tables s).
Proof.
  apply tree_induction.
  - intros ln co l ops cs IHl IHcs s.
    rewrite elem_of_collect_Compare. intros [Hs|[Hs|(c & Hc & Hs)]].
    + apply elem_of_compare_loop in Hs as (k & op & target & _ & Hop & ->).
      simpl. split; [lia|done].
    + by apply IHl.
    + rewrite Forall_forall in IHcs. by eapply IHcs.
  - intros ln co l op r IHl IHr s.
    rewrite elem_of_collect_BinOp. intros [Hs|[Hs|Hs]]; [|by apply IHl|by apply IHr].
    unfold binop_step in Hs.
    destruct (OP_MUTATION_MAP !! op) as [target|] eqn:Hop; simpl in Hs.
    + by apply list_elem_of_singleton in Hs as ->.
    + by apply elem_of_nil in Hs.
  - intros ln co v s. unfold collect; simpl. destruct v as [b| | | |]; simpl;
      try by rewrite elem_of_nil.
    destruct (CONST_BOOL_MUTATIONS !! b) as [target|] eqn:Hb; simpl.
    + by intros ->%list_elem_of_singleton.
    + by rewrite elem_of_nil.
  - intros cls pos fields IH s. rewrite collect_Other, elem_of_flat_map.
    intros (fv & Hfv & Hs). rewrite Forall_forall in IH. by eapply IH.
  - intros n IH s. apply IH.
  - intros items IH s. rewrite collect_VList, elem_of_flat_map.
    intros ([n|its|c] & Hit & Hs); try by apply elem_of_nil in Hs.
    rewrite Forall_forall in IH. by apply (IH _ Hit).
  - intros c s. simpl. by rewrite elem_of_nil.
Qed.

Lemma from_tables_changes (s : site) : from_tables s -> changes s.
Proof.
  intros Hft.
  destruct s as [ln co idx orig target|ln co orig target|ln co orig target];
    simpl in *.
  - destruct Hft as [_ Hft]. by apply OP_MUTATION_MAP_changes in Hft as [? _].
  - by apply OP_MUTATION_MAP_changes in Hft as [? _].
  - rewrite CONST_BOOL_MUTATIONS_flip in Hft. injection Hft as <-.
    by destruct orig.
Qed.

(** X1: every site of a catalog is an item of the table of its kind,
    with an index that is not negative, and its target differs from its
    original: no site asks for a mutation that changes nothing. *)
Theorem catalog_sites_change (root : node) (s : site) :
  s ∈ collect root -> from_tables s /\ changes s.
Proof.
  intros Hs. pose proof (proj1 collect_from_tables_both root s Hs) as Hft.
  split; [done|by apply from_tables_changes].
Qed.
End catalog_invariant.

(** ** Cataloged sites are applied *)
Section reach.
Context {A : Type} (f : A -> bool -> A * bool).

Lemma map_state_reaches (l : list A) :
  Forall (fun x => f x true = (x, true)) l ->
  (exists x, x ∈ l /\ snd (f x false) = true) ->
  snd (map_state f l false) = true.
Proof.
  induction 1 as [|x l Hx Hl IH]; intros (y & Hy & Hflag).
  - by apply elem_of_nil in Hy.
  - simpl. destruct (f x false) as [x' a] eqn:Hfx. destruct a.
    + by rewrite (map_state_applied f l Hl).
    + apply elem_of_cons in Hy as [->|Hy].
      * rewrite Hfx in Hflag. done.
      * assert (snd (map_state f l false) = true) as Hrest by eauto.
        by destruct (map_state f l false).
Qed.
End reach.

Section applied_facts.
Import ast SingleSiteApplier.

Lemma visit_applied_flag s n : snd (visit s n true) = true.
Proof. by rewrite (proj1 (visit_applied_both s)). Qed.

Lemma generic_Compare_flag s ln co l ops cs :
  snd (visit s l false) = true \/
    (exists c, c ∈ cs /\ snd (visit s c false) = true) ->
  snd (generic_Compare s ln co l ops cs false) = true.
Proof.
  intros H. unfold generic_Compare.
  destruct (visit s l false) as [l' a] eqn:Hl. destruct a.
  - rewrite map_state_applied; [done|].
    apply Forall_forall. intros c _. apply visit_applied_both.
  - destruct H as [H|H]; [done|].
    pose proof (map_state_reaches (visit s) cs) as Hreach.
    destruct (map_state (visit s) cs false) as [cs' a]. simpl in *.
    apply Hreach; [|done].
    apply Forall_forall. intros c _. apply visit_applied_both.
Qed.

Lemma generic_BinOp_flag s ln co l op r :
  snd (visit s l false) = true \/ snd (visit s r false) = true ->
  snd (generic_BinOp s ln co l op r false) = true.
Proof.
  intros H. unfold generic_BinOp.
  destruct (visit s l false) as [l' a] eqn:Hl. destruct a.
  - pose proof (visit_applied_flag s r). by destruct (visit s r true).
  - destruct H as [H|H]; [done|]. by destruct (visit s r false).
Qed.

Lemma mutate_ops_own ln co ops (k : nat) op target :
  ops !! k = Some op ->
  mutate_ops (CompareSite ln co (Z.of_nat k) op target) ln co ops
  = Some (<[k := target]> ops).
Proof.
  intros Hk. unfold mutate_ops, matches_location; simpl.
  rewrite !Z.eqb_refl; simpl.
  assert ((0 <=? Z.of_nat k) = true) as -> by (apply Z.leb_le; lia).
  assert ((Z.of_nat k <? Z.of_nat (length ops)) = true) as ->.
  { apply Z.ltb_lt. apply lookup_lt_Some in Hk. lia. }
  simpl. by rewrite Nat2Z.id, Hk, String.eqb_refl.
Qed.

Lemma mutate_op_own ln co op target :
  mutate_op (BinOpSite ln co op target) ln co op = Some target.
Proof.
  unfold mutate_op, matches_location; simpl.
  by rewrite !Z.eqb_refl, String.eqb_refl.
Qed.

(** A site the collector recorded for an operator is applied when the
    transformer visits the tree it was recorded in. *)
Lemma visit_cataloged_both :
  (forall n s,
     s ∈ MutationSiteCollector.collect n -> is_operator_site s = true ->
     snd (visit s n false) = true) /\
  (forall v s,
     s ∈ MutationSiteCollector.visit_value v [] -> is_operator_site s = true ->
     snd (visit_value s v false) = true).
Proof.
  apply tree_induction.
  - intros ln co l ops cs IHl IHcs s Hs Hop.
    rewrite visit_Compare_eq.
    apply elem_of_collect_Compare in Hs as [Hs|Hs].
    + apply elem_of_compare_loop in Hs as (k & op & target & Hk & _ & ->).
      rewrite Z.add_0_l. by rewrite (mutate_ops_own _ _ _ _ _ _ Hk).
    + assert (snd (generic_Compare s ln co l ops cs false) = true) as Hgen.
      { apply generic_Compare_flag. destruct Hs as [Hs|(c & Hc & Hs)].
        - left. by apply IHl.
        - right. exists c. split; [done|].
          rewrite Forall_forall in IHcs. by apply IHcs. }
      destruct (false || negb (kind_is s KCompare)); [done|].
      by destruct (mutate_ops s ln co ops).
  - intros ln co l op r IHl IHr s Hs Hop.
    rewrite visit_BinOp_eq.
    apply elem_of_collect_BinOp in Hs as [Hs|Hs].
    + unfold MutationSiteCollector.binop_step in Hs.
      destruct (OP_MUTATION_MAP !! op) as [target|]; simpl in Hs;
        [|by apply elem_of_nil in Hs].
      apply list_elem_of_singleton in Hs as ->.
      by rewrite mutate_op_own.
    + assert (snd (generic_BinOp s ln co l op r false) = true) as Hgen.
      { apply generic_BinOp_flag. destruct Hs as [Hs|Hs]; [left|right]; auto. }
      destruct (false || negb (kind_is s KBinOp)); [done|].
      by destruct (mutate_op s ln co op).
  - intros ln co v s Hs Hop. exfalso.
    apply (proj1 collect_from_tables_both) in Hs as Hft.
    unfold MutationSiteCollector.collect in Hs; simpl in Hs.
    destruct v as [b| | | |]; simpl in Hs; try by apply elem_of_nil in Hs.
    destruct (CONST_BOOL_MUTATIONS !! b); simpl in Hs;
      [|by apply elem_of_nil in Hs].
    apply list_elem_of_singleton in Hs as ->. done.
  - intros cls pos fields IH s Hs Hop. rewrite visit_Other_eq.
    rewrite collect_Other, elem_of_flat_map in Hs.
    destruct Hs as (fv & Hfv & Hs).
    pose proof (map_state_reaches (visit_field s) fields) as Hreach.
    destruct (map_state (visit_field s) fields false) as [fields' a].
    simpl in *. apply Hreach.
    + apply Forall_forall. intros [name v] _. unfold visit_field; simpl.
      by rewrite (proj2 (visit_applied_both s)).
    + exists fv. split; [done|]. rewrite Forall_forall in IH.
      specialize (IH fv Hfv s Hs Hop). unfold visit_field.
      by destruct (visit_value s (snd fv) false).
  - intros n IH s Hs Hop. rewrite visit_VNode_eq.
    specialize (IH s Hs Hop). by destruct (visit s n false).
  - intros items IH s Hs Hop. rewrite visit_VList_eq.
    rewrite collect_VList, elem_of_flat_map in Hs.
    destruct Hs as (item & Hitem & Hs).
    pose proof (map_state_reaches (visit_item s) items) as Hreach.
    destruct (map_state (visit_item s) items false) as [items' a].
    simpl in *. apply Hreach.
    + apply Forall_forall. intros [n|its|c] _; simpl; try done.
      by rewrite (proj1 (visit_applied_both s)).
    + exists item. split; [done|].
      destruct item as [n|its|c]; try by apply elem_of_nil in Hs.
      rewrite Forall_forall in IH. specialize (IH _ Hitem s Hs Hop).
      rewrite visit_VNode_eq in IH. simpl.
      by destruct (visit s n false).
  - intros c s Hs. by apply elem_of_nil in Hs.
Qed.
End applied_facts.

(** ** The flag and the change *)
Section change_facts.
Import ast SingleSiteApplier.
Variable s : site.
Hypothesis Hop : is_operator_site s = true.
Hypothesis Hchanges : changes s.

Lemma mutate_ops_differs ln co ops ops' :
  mutate_ops s ln co ops = Some ops' -> ops' <> ops.
Proof.
  unfold mutate_ops. destruct s as [sl sc idx orig target| |]; try done.
  destruct (matches_location _ _ _); [|done].
  destruct (_ && _); [|done].
  destruct (ops !! Z.to_nat idx) as [op|] eqn:Hk; [|done].
  destruct (String.eqb_spec op orig) as [->|]; [|done].
  intros [= <-] Heq.
  assert (<[Z.to_nat idx := target]> ops !! Z.to_nat idx = Some target) as Hnew.
  { apply list_lookup_insert_eq. by eapply lookup_lt_Some. }
  rewrite Heq, Hk in Hnew. simpl in Hchanges. congruence.
Qed.

Lemma mutate_op_differs ln co op op' :
  mutate_op s ln co op = Some op' -> op' <> op.
Proof.
  unfold mutate_op. destruct s as [|sl sc orig target|]; try done.
  destruct (matches_location _ _ _); [|done].
  destruct (String.eqb_spec op orig) as [->|]; [|done].
  intros [= <-]. simpl in Hchanges. congruence.
Qed.

(** The flag tells whether the tree was changed. *)
Lemma visit_changes_both :
  (forall n,
     visit s n false = (n, false) \/
     exists n', visit s n false = (n', true) /\ n' <> n) /\
  (forall v,
     visit_value s v false = (v, false) \/
     exists v', visit_value s v false = (v', true) /\ v' <> v).
Proof.
  assert (kind s <> KConstantBool) as Hkind.
  { unfold is_operator_site in Hop. by destruct (kind s). }
  apply tree_induction.
  - intros ln co l ops cs IHl IHcs.
    assert (generic_Compare s ln co l ops cs false
            = (Compare ln co l ops cs, false) \/
            exists n', generic_Compare s ln co l ops cs false = (n', true) /\
                       n' <> Compare ln co l ops cs) as Hgen.
    { unfold generic_Compare.
      destruct IHl as [->|(l' & -> & Hl)].
      - destruct (map_state_first_match (visit s) (fun c c' => c' <> c) cs)
          as [->|(cs1 & c & c' & cs2 & -> & Hc & ->)].
        + eapply Forall_impl; [exact IHcs|]. intros c Hc. split; [|done].
          apply visit_applied_both.
        + by left.
        + right. eexists. split; [done|]. intros [= Heq].
          apply app_inv_head in Heq. congruence.
      - rewrite map_state_applied.
        + right. eexists. split; [done|]. congruence.
        + apply Forall_forall. intros c _. apply visit_applied_both. }
    rewrite visit_Compare_eq.
    destruct (false || negb (kind_is s KCompare)); [done|].
    destruct (mutate_ops s ln co ops) as [ops'|] eqn:Hops; [|done].
    right. eexists. split; [done|].
    apply mutate_ops_differs in Hops. congruence.
  - intros ln co l op r IHl IHr.
    assert (generic_BinOp s ln co l op r false = (BinOp ln co l op r, false) \/
            exists n', generic_BinOp s ln co l op r false = (n', true) /\
                       n' <> BinOp ln co l op r) as Hgen.
    { unfold generic_BinOp.
      destruct IHl as [->|(l' & -> & Hl)].
      - destruct IHr as [->|(r' & -> & Hr)]; [by left|].
        right. eexists. split; [done|]. congruence.
      - rewrite (proj1 (visit_applied_both s)).
        right. eexists. split; [done|]. congruence. }
    rewrite visit_BinOp_eq.
    destruct (false || negb (kind_is s KBinOp)); [done|].
    destruct (mutate_op s ln co op) as [op'|] eqn:Hm; [|done].
    right. eexists. split; [done|].
    apply mutate_op_differs in Hm. congruence.
  - intros ln co v. left. simpl.
    replace (kind_is s KConstantBool) with false; [done|].
    unfold kind_is. by destruct (kind s).
  - intros cls pos fields IH. rewrite visit_Other_eq.
    destruct (map_state_first_match (visit_field s)
                (fun fv fv' => fv' <> fv) fields)
      as [->|(fs1 & fv & fv' & fs2 & -> & Hfv & ->)].
    + eapply Forall_impl; [exact IH|]. intros [name v] Hv; simpl in *.
      unfold visit_field; simpl. split.
      * by rewrite (proj2 (visit_applied_both s)).
      * destruct Hv as [->|(v' & -> & Hv)]; [by left|].
        right. eexists. split; [done|]. congruence.
    + by left.
    + right. eexists. split; [done|]. intros [= Heq].
      apply app_inv_head in Heq. congruence.
  - intros n IH. rewrite visit_VNode_eq.
    destruct IH as [->|(n' & -> & Hn)]; [by left|].
    right. eexists. split; [done|]. congruence.
  - intros items IH. rewrite visit_VList_eq.
    destruct (map_state_first_match (visit_item s)
                (fun it it' => it' <> it) items)
      as [->|(is1 & it & it' & is2 & -> & Hit & ->)].
    + eapply Forall_impl; [exact IH|]. intros [n|its|c] Hv; simpl.
      * split; [by rewrite (proj1 (visit_applied_both s))|].
        rewrite visit_VNode_eq in Hv.
        destruct (visit s n false) as [n' a] eqn:Hvis.
        destruct Hv as [Hv|(v' & Hv & He)]; simplify_eq; [by left|].
        right. by eexists.
      * split; [done|by left].
      * split; [done|by left].
    + by left.
    + right. eexists. split; [done|]. intros [= Heq].
      apply app_inv_head in Heq. congruence.
  - intros c. by left.
Qed.
End change_facts.

Section generator_facts.
Import ast.

(** X2: a [Compare] or [BinOp] site of the catalog of a tree is applied
    when the transformer visits that tree, and the tree it returns
    differs from the original; the skip of the generator is never taken
    for it. *)
Theorem cataloged_operator_site_applied (root : node) (s : site) :
  s ∈ MutationSiteCollector.collect root ->
  is_operator_site s = true ->
  exists mutated,
    SingleSiteApplier.visit s root false = (mutated, true) /\
    mutated <> root.
Proof.
  intros Hs Hop.
  pose proof (proj1 visit_cataloged_both root s Hs Hop) as Hflag.
  pose proof (from_tables_changes s
                (proj1 collect_from_tables_both root s Hs)) as Hch.
  destruct (proj1 (visit_changes_both s Hop Hch) root)
    as [Heq|(n' & Heq & Hne)]; rewrite Heq in *; [done|by eauto].
Qed.


Lemma omap_mutant_of unparse root (sites : list site) :
  (forall s, s ∈ sites -> s ∈ MutationSiteCollector.collect root) ->
  omap (mutant_of unparse root) sites
  = (fun s => (description s,
               unparse (fst (SingleSiteApplier.visit s root false))))
      <$> filter (fun s => is_operator_site s = true) sites.
Proof.
  induction sites as [|s sites IH]; intros Hsub; [done|].
  rewrite filter_cons.
  change (omap (mutant_of unparse root) (s :: sites))
    with (match mutant_of unparse root s with
          | Some m => m :: omap (mutant_of unparse root) sites
          | None => omap (mutant_of unparse root) sites
          end).
  rewrite IH by (intros s' Hs'; apply Hsub; by right).
  case_decide as Hop.
  - assert (s ∈ MutationSiteCollector.collect root) as Hs
      by (apply Hsub; left).
    pose proof (proj1 visit_cataloged_both root s Hs Hop) as Hflag.
    unfold mutant_of. rewrite fmap_cons.
    destruct (SingleSiteApplier.visit s root false) as [t' applied].
    simpl in Hflag. by subst applied.
  - rewrite constant_site_never_a_mutant; [done|].
    unfold is_operator_site in Hop. by destruct (kind s).
Qed.

(** X3: the mutants of a tree are, in catalog order, one for each
    [Compare] and [BinOp] site of its catalog and none for the others,
    each labelled by its site and printed from the tree its site gives
    on the original. *)
Theorem mutants_of_operator_sites (unparse : node -> string) (parsed : node) :
  generate_mutants unparse parsed
  = (fun s => (description s,
               unparse (fst (SingleSiteApplier.visit s parsed false))))
      <$> filter (fun s => is_operator_site s = true)
            (MutationSiteCollector.collect parsed).
Proof. rewrite generate_mutants_spec. by apply omap_mutant_of. Qed.
End generator_facts.

(** ** The sites of a mutant *)
Section preserve.
Context {A B : Type} (f : A -> bool -> A * bool) (g : A -> list B).

Lemma map_state_preserves (l : list A) :
  Forall (fun x => forall a, g (fst (f x a)) = g x) l ->
  forall a, flat_map g (fst (map_state f l a)) = flat_map g l.
Proof.
  induction 1 as [|x l Hx _ IH]; intros a; simpl; [done|].
  specialize (Hx a). destruct (f x a) as [x' a1]; simpl in Hx.
  specialize (IH a1). destruct (map_state f l a1) as [l' a2]; simpl in *.
  by rewrite Hx, IH.
Qed.
End preserve.

Lemma fmap_flat_map {A B C} (h : B -> C) (g : A -> list B) (l : list A) :
  h <$> flat_map g l = flat_map (fun x => h <$> g x) l.
Proof. induction l as [|x l IH]; simpl; [done|]. by rewrite fmap_app, IH. Qed.

Section keys_facts.
Import ast MutationSiteCollector.

Lemma compare_loop_keys_insert ln co ops : forall idx (k : nat) orig target,
  ops !! k = Some orig ->
  is_Some (OP_MUTATION_MAP !! orig) -> is_Some (OP_MUTATION_MAP !! target) ->
  site_key <$> compare_loop ln co idx (<[k := target]> ops) []
  = site_key <$> compare_loop ln co idx ops [].
Proof.
  induction ops as [|op ops IH]; intros idx k orig target Hk Ho Ht; [done|].
  destruct k as [|k]; simpl in *.
  - injection Hk as ->. rewrite (compare_loop_app _ _ _ _ (match _ with Some _ => _ | None => _ end)).
    rewrite (compare_loop_app _ _ _ ops (match OP_MUTATION_MAP !! orig with Some _ => _ | None => _ end)).
    rewrite !fmap_app. f_equal.
    destruct Ho as [? ->], Ht as [? ->]. done.
  - rewrite (compare_loop_app _ _ _ _ (match _ with Some _ => _ | None => _ end)).
    rewrite (compare_loop_app _ _ _ ops (match _ with Some _ => _ | None => _ end)).
    rewrite !fmap_app. f_equal. by eapply IH.
Qed.

Lemma keys_Compare ln co l ops cs :
  keys (Compare ln co l ops cs)
  = (site_key <$> compare_loop ln co 0 ops []) ++ keys l ++ flat_map keys cs.
Proof.
  unfold keys, collect at 1. rewrite visit_Compare; simpl.
  by rewrite !fmap_app, fmap_flat_map.
Qed.

Lemma keys_BinOp ln co l op r :
  keys (BinOp ln co l op r)
  = (site_key <$> binop_step ln co op []) ++ keys l ++ keys r.
Proof.
  unfold keys, collect at 1. rewrite visit_BinOp; simpl.
  by rewrite !fmap_app.
Qed.

Lemma keys_Other cls pos fields :
  keys (Other cls pos fields) = flat_map (fun fv => keys_value (snd fv)) fields.
Proof. unfold keys. by rewrite collect_Other, fmap_flat_map. Qed.

Lemma keys_VList items :
  keys_value (VList items)
  = flat_map (fun item => match item with VNode n => keys n | _ => [] end) items.
Proof.
  unfold keys_value. rewrite collect_VList, fmap_flat_map.
  apply flat_map_ext. by intros [n|its|c].
Qed.

Import SingleSiteApplier.

(** Neither pass makes a mutation site appear or disappear. *)
Lemma visit_keeps_keys_both s :
  from_tables s ->
  (forall n a, keys (fst (visit s n a)) = keys n) /\
  (forall v a, keys_value (fst (visit_value s v a)) = keys_value v).
Proof.
  intros Hft. apply tree_induction.
  - intros ln co l ops cs IHl IHcs a.
    assert (keys (fst (generic_Compare s ln co l ops cs a))
            = keys (Compare ln co l ops cs)) as Hgen.
    { unfold generic_Compare. specialize (IHl a).
      destruct (visit s l a) as [l' a1]; simpl in IHl.
      pose proof (map_state_preserves (visit s) keys cs IHcs a1) as Hcs.
      destruct (map_state (visit s) cs a1) as [cs' a2]; simpl in *.
      by rewrite !keys_Compare, IHl, Hcs. }
    rewrite visit_Compare_eq.
    destruct (a || negb (kind_is s KCompare)); [done|].
    destruct (mutate_ops s ln co ops) as [ops'|] eqn:Hops; [|done].
    simpl. rewrite !keys_Compare. f_equal.
    unfold mutate_ops in Hops.
    destruct s as [sl sc idx orig target| |]; try done.
    destruct (matches_location _ _ _); [|done].
    destruct (_ && _); [|done].
    destruct (ops !! Z.to_nat idx) as [op|] eqn:Hk; [|done].
    destruct (String.eqb_spec op orig) as [->|]; [|done].
    injection Hops as <-. destruct Hft as [_ Hft].
    eapply compare_loop_keys_insert; [done|by eexists|].
    by apply OP_MUTATION_MAP_changes in Hft as [_ ?].
  - intros ln co l op r IHl IHr a.
    assert (keys (fst (generic_BinOp s ln co l op r a))
            = keys (BinOp ln co l op r)) as Hgen.
    { unfold generic_BinOp. specialize (IHl a).
      destruct (visit s l a) as [l' a1]; simpl in IHl.
      specialize (IHr a1). destruct (visit s r a1) as [r' a2]; simpl in *.
      by rewrite !keys_BinOp, IHl, IHr. }
    rewrite visit_BinOp_eq.
    destruct (a || negb (kind_is s KBinOp)); [done|].
    destruct (mutate_op s ln co op) as [op'|] eqn:Hm; [|done].
    simpl. rewrite !keys_BinOp. f_equal.
    unfold mutate_op in Hm.
    destruct s as [|sl sc orig target|]; try done.
    destruct (matches_location _ _ _); [|done].
    destruct (String.eqb_spec op orig) as [->|]; [|done].
    injection Hm as <-. simpl in Hft. unfold binop_step. rewrite Hft.
    apply OP_MUTATION_MAP_changes in Hft as [_ [t' ->]]. done.
  - intros ln co v a. simpl.
    destruct (a || negb (kind_is s KConstantBool)); [done|].
    destruct (mutate_value s ln co v) as [v'|] eqn:Hm; [|done].
    simpl. unfold mutate_value in Hm.
    destruct s as [| |sl sc orig target]; try done.
    destruct (matches_location _ _ _); [|done].
    destruct v as [b| | | |]; try done.
    destruct (Bool.eqb b orig); [|done]. injection Hm as <-.
    unfold keys, collect; simpl.
    by rewrite !CONST_BOOL_MUTATIONS_flip.
  - intros cls pos fields IH a. rewrite visit_Other_eq.
    assert (Forall (fun fv => forall a,
                      keys_value (snd (fst (visit_field s fv a)))
                      = keys_value (snd fv)) fields) as IH'.
    { eapply Forall_impl; [exact IH|]. intros [name v] Hv a'; simpl in *.
      unfold visit_field; simpl. specialize (Hv a').
      by destruct (visit_value s v a'). }
    pose proof (map_state_preserves (visit_field s)
                  (fun fv => keys_value (snd fv)) fields IH' a) as Hfs.
    destruct (map_state (visit_field s) fields a) as [fields' a']; simpl in *.
    by rewrite !keys_Other.
  - intros n IH a. rewrite visit_VNode_eq. specialize (IH a).
    by destruct (visit s n a).
  - intros items IH a. rewrite visit_VList_eq.
    set (g := fun item => match item with VNode n => keys n | _ => [] end).
    assert (Forall (fun it => forall a, g (fst (visit_item s it a)) = g it)
              items) as IH'.
    { eapply Forall_impl; [exact IH|]. intros [n|its|c] Hv a'; simpl; try done.
      specialize (Hv a'). rewrite visit_VNode_eq in Hv.
      by destruct (visit s n a'). }
    pose proof (map_state_preserves (visit_item s) g items IH' a) as His.
    destruct (map_state (visit_item s) items a) as [items' a']; simpl in *.
    by rewrite !keys_VList.
  - done.
Qed.

(** X5: the catalog of a mutant has the keys of the catalog of the
    original, in the same order: applying a cataloged site makes no
    mutation site appear or disappear. *)
Theorem mutant_has_the_sites_of_the_original (root : node) (s : site) :
  s ∈ collect root ->
  site_key <$> collect (fst (visit s root false)) = site_key <$> collect root.
Proof.
  intros Hs. apply (proj1 (visit_keeps_keys_both s
                             (proj1 collect_from_tables_both root s Hs))).
Qed.
End keys_facts.

Section tree_witnesses.
Import ast scenarios.

Lemma eq_site_of_scenario_A :
  CompareSite 1 3 0 "Eq" "NotEq" ∈ MutationSiteCollector.collect scenario_A.
Proof. vm_compute. left. Defined.

Lemma catalog_sites_change_scenario_A :
  CompareSite 1 3 0 "Eq" "NotEq" ∈ MutationSiteCollector.collect scenario_A /\
  from_tables (CompareSite 1 3 0 "Eq" "NotEq") /\
  changes (CompareSite 1 3 0 "Eq" "NotEq").
Proof.
  split; [exact eq_site_of_scenario_A|].
  exact (catalog_sites_change scenario_A _ eq_site_of_scenario_A).
Defined.

Lemma eq_site_applied_to_scenario_A :
  exists mutated,
    SingleSiteApplier.visit (CompareSite 1 3 0 "Eq" "NotEq") scenario_A false
    = (mutated, true) /\ mutated <> scenario_A.
Proof.
  exact (cataloged_operator_site_applied scenario_A _
           eq_site_of_scenario_A eq_refl).
Defined.


Lemma mutant_of_scenario_A_has_its_sites :
  site_key <$> MutationSiteCollector.collect
    (fst (SingleSiteApplier.visit (CompareSite 1 3 0 "Eq" "NotEq")
            scenario_A false))
  = site_key <$> MutationSiteCollector.collect scenario_A.
Proof.
  exact (mutant_has_the_sites_of_the_original scenario_A _
           eq_site_of_scenario_A).
Defined.
End tree_witnesses.

(** ** The loop over the mutants *)
Section loop_facts.
Import oracle.

Lemma evaluate_mutant_state w mutant st :
  cwd st ∈ dirs st -> snd (evaluate_mutant w mutant st) = st.
Proof.
  intros Hcwd. destruct (evaluate_mutant_restores w mutant st Hcwd) as [Hc Hd].
  destruct (snd (evaluate_mutant w mutant st)) as [c d], st as [c0 d0].
  simpl in *. by subst.
Qed.

Lemma evaluate_all_cons env i mutant mutants results st :
  evaluate_all env i (mutant :: mutants) results st
  = match evaluate_mutant (env i) mutant st with
    | (Return v, st') => evaluate_all env (S i) mutants (results ++ [v]) st'
    | (Raise e, st') => (Raise e, st')
    end.
Proof. reflexivity. Qed.

Lemma evaluate_all_verdicts env mutants st :
  cwd st ∈ dirs st ->
  forall i results,
    (forall j, (j < length mutants)%nat ->
               setup_ok (env (i + j)%nat) st /\
               forall what, test_run (env (i + j)%nat) <> LaunchFailed what) ->
    evaluate_all env i mutants results st
    = (Return (results ++
               imap (fun j m => verdict_of (fst m) (test_run (env (i + j)%nat)))
                 mutants), st).
Proof.
  intros Hcwd. induction mutants as [|[desc source] mutants IH];
    intros i results Hok.
  - simpl. by rewrite app_nil_r.
  - rewrite evaluate_all_cons.
    destruct (Hok 0%nat) as [Hsetup Hlaunch]; [simpl; lia|].
    rewrite Nat.add_0_r in Hsetup, Hlaunch.
    rewrite (evaluate_mutant_runs (env i) desc source st Hcwd Hsetup).
    assert (match test_run (env i) with
            | Exited returncode =>
                Return {| mutation := desc; killed := negb (returncode =? 0) |}
            | TimedOut => Return {| mutation := desc; killed := true |}
            | LaunchFailed what => Raise (OSError what)
            end = Return (verdict_of desc (test_run (env i)))) as ->.
    { destruct (test_run (env i)) as [rc| |what] eqn:Hrun; try done.
      by destruct (Hlaunch what). }
    rewrite IH.
    + rewrite <- app_assoc. simpl. rewrite Nat.add_0_r. do 4 f_equal.
      apply imap_ext. intros j m _. simpl.
      by replace (i + S j)%nat with (S (i + j)) by lia.
    + intros j Hj. replace (S i + j)%nat with (i + S j)%nat by lia.
      apply Hok. simpl. lia.
Qed.

(** X6: when every sandbox can be set up and every test run can be
    launched, the loop returns one verdict per mutant, in the order of
    the mutants and under the mutant's description; a mutant is killed
    unless its run exits with code 0, and the working directory and the
    directories are afterwards what they were. *)
Theorem verdicts_in_catalog_order (env : nat -> world)
    (mutants : list (string * string)) (st : os_state) :
  cwd st ∈ dirs st ->
  (forall i, (i < length mutants)%nat ->
             setup_ok (env i) st /\
             forall what, test_run (env i) <> LaunchFailed what) ->
  evaluate_all env 0 mutants [] st
  = (Return (imap (fun i m => verdict_of (fst m) (test_run (env i))) mutants),
     st).
Proof.
  intros Hcwd Hok. by rewrite (evaluate_all_verdicts env mutants st Hcwd 0 []).
Qed.

Lemma evaluate_all_aborts env before mutant after e st :
  cwd st ∈ dirs st ->
  forall i results,
    (forall j m, before !! j = Some m ->
                 exists v, fst (evaluate_mutant (env (i + j)%nat) m st) = Return v) ->
    fst (evaluate_mutant (env (i + length before)%nat) mutant st) = Raise e ->
    evaluate_all env i (before ++ mutant :: after) results st = (Raise e, st).
Proof.
  intros Hcwd. induction before as [|m before IH]; intros i results Hbefore Hfail.
  - simpl app. rewrite evaluate_all_cons.
    simpl in Hfail. rewrite Nat.add_0_r in Hfail.
    pose proof (evaluate_mutant_state (env i) mutant st Hcwd) as Hst.
    destruct (evaluate_mutant (env i) mutant st) as [[v|e'] st']; simpl in *;
      by simplify_eq.
  - simpl app. rewrite evaluate_all_cons.
    destruct (Hbefore 0%nat m eq_refl) as [v Hv]. rewrite Nat.add_0_r in Hv.
    pose proof (evaluate_mutant_state (env i) m st Hcwd) as Hst.
    destruct (evaluate_mutant (env i) m st) as [[v'|e'] st']; simpl in *;
      simplify_eq.
    apply IH.
    + intros j m' Hj. replace (S i + j)%nat with (i + S j)%nat by lia.
      by apply Hbefore.
    + by replace (S i + length before)%nat with (i + S (length before))%nat by lia.
Qed.

(** X7: when the evaluation of one mutant raises, the loop raises the
    same exception and returns no verdict at all: the verdicts of the
    mutants evaluated before it are lost, the mutants after it are not
    run, and the working directory and the directories are restored. *)
Theorem first_failure_loses_all_verdicts (env : nat -> world)
    (before : list (string * string)) (mutant : string * string)
    (after : list (string * string)) (e : exn) (st : os_state) :
  cwd st ∈ dirs st ->
  (forall i m, before !! i = Some m ->
               exists v, fst (evaluate_mutant (env i) m st) = Return v) ->
  fst (evaluate_mutant (env (length before)) mutant st) = Raise e ->
  evaluate_all env 0 (before ++ mutant :: after) [] st = (Raise e, st).
Proof.
  intros Hcwd Hbefore Hfail.
  by apply (evaluate_all_aborts env before mutant after e st Hcwd 0 []).
Qed.
End loop_facts.

Section loop_witnesses.
Import oracle oracle_examples.

Lemma two_verdicts_in_order :
  evaluate_all (fun i => a_world (if i is 0%nat then Exited 0 else TimedOut)) 0
    [("m0", "x = 1"); ("m1", "x = 2")] [] project
  = (Return [ {| mutation := "m0"; killed := false |};
              {| mutation := "m1"; killed := true |} ], project).
Proof.
  refine (verdicts_in_catalog_order _ [("m0", "x = 1"); ("m1", "x = 2")] project
            project_cwd_exists _).
  intros i _. split; [apply a_world_setup_ok|].
  intros what. by destruct i.
Defined.

Lemma failure_at_second_mutant :
  evaluate_all
    (fun i => a_world (if i is 1%nat then LaunchFailed "PermissionError"
                       else Exited 1)) 0
    ([("m0", "x = 1")] ++ ("m1", "x = 2") :: [("m2", "x = 3")]) [] project
  = (Raise (OSError "PermissionError"), project).
Proof.
  refine (first_failure_loses_all_verdicts _ [("m0", "x = 1")] ("m1", "x = 2")
            [("m2", "x = 3")] _ project project_cwd_exists _ _).
  - intros [|i] m [=]. subst. by eexists.
  - reflexivity.
Defined.
End loop_witnesses.

(** ** The files of the sandbox *)
Section files_facts.
Import files.

Lemma lookup_entry_cons name n x l :
  lookup name ((n, x) :: l) = if String.eqb name n then Some x else lookup name l.
Proof. unfold lookup; simpl. by destruct (String.eqb name n). Qed.

Lemma lookup_set_entry name name' e l :
  lookup name' (set_entry name e l)
  = if String.eqb name' name then Some e else lookup name' l.
Proof.
  induction l as [|[n x] l IH]; simpl.
  - rewrite lookup_entry_cons. done.
  - destruct (String.eqb name n) eqn:Hn.
    + apply String.eqb_eq in Hn as ->. rewrite !lookup_entry_cons.
      by destruct (String.eqb name' n).
    + rewrite !lookup_entry_cons, IH.
      destruct (String.eqb name' n) eqn:Hn'; [|done].
      apply String.eqb_eq in Hn' as ->. by rewrite String.eqb_sym, Hn.
Qed.

Lemma lookup_set_entry_eq name e l : lookup name (set_entry name e l) = Some e.
Proof. by rewrite lookup_set_entry, String.eqb_refl. Qed.

Lemma lookup_set_entry_ne name name' e l :
  name' <> name -> lookup name' (set_entry name e l) = lookup name' l.
Proof.
  intros Hne. rewrite lookup_set_entry.
  by apply String.eqb_neq in Hne as ->.
Qed.

Lemma set_entry_same name e l : lookup name l = Some e -> set_entry name e l = l.
Proof.
  induction l as [|[n x] l IH]; [done|]. rewrite lookup_entry_cons. simpl.
  destruct (String.eqb name n) eqn:Hn.
  - by intros [= ->].
  - intros H. by rewrite IH.
Qed.

Lemma lookup_entry_None name l : lookup name l = None <-> name ∉ l.*1.
Proof.
  induction l as [|[n x] l IH].
  - split; [intros _; apply not_elem_of_nil|done].
  - rewrite lookup_entry_cons, fmap_cons, not_elem_of_cons. simpl.
    destruct (String.eqb name n) eqn:Hn.
    + apply String.eqb_eq in Hn. split; [done|]. by intros [? _].
    + apply String.eqb_neq in Hn. rewrite IH. tauto.
Qed.

Lemma set_entry_new name e l :
  lookup name l = None -> set_entry name e l = l ++ [(name, e)].
Proof.
  induction l as [|[n x] l IH]; [done|]. rewrite lookup_entry_cons. simpl.
  destruct (String.eqb name n); [done|]. intros H. by rewrite IH.
Qed.

Lemma get_app n p q : get n (p ++ q) = get n p ≫= fun e => get e q.
Proof.
  revert n. induction p as [|name p IH]; intros n; [done|]. simpl.
  destruct n as [c|l]; [done|].
  destruct (lookup name l) as [e|]; simpl; [apply IH|done].
Qed.

Lemma get_File c q e : get (File c) q = Some e -> q = [] /\ e = File c.
Proof. destruct q; simpl; [by intros [= <-]|done]. Qed.

Lemma apart_sym p q : apart p q = apart q p.
Proof.
  revert q. induction p as [|x p IH]; intros [|y q]; simpl; try done.
  rewrite (String.eqb_sym y x). destruct (String.eqb x y); [apply IH|done].
Qed.

Lemma apart_app p q r s : apart p q = true -> apart (p ++ r) (q ++ s) = true.
Proof.
  revert q. induction p as [|x p IH]; intros [|y q]; simpl; try done.
  destruct (String.eqb x y); [apply IH|done].
Qed.

Lemma apart_snoc p x y r s : x <> y -> apart (p ++ x :: r) (p ++ y :: s) = true.
Proof.
  intros Hne. induction p as [|z p IH]; simpl.
  - by apply String.eqb_neq in Hne as ->.
  - by rewrite String.eqb_refl.
Qed.

Lemma apart_ne p q : apart p q = true -> p <> q.
Proof.
  intros H ->. induction q as [|x q IH]; simpl in H; [done|].
  rewrite String.eqb_refl in H. auto.
Qed.

Lemma apart_irrefl_app p r : apart p (p ++ r) = false.
Proof.
  induction p as [|x p IH]; simpl; [done|]. by rewrite String.eqb_refl.
Qed.

(** Paths that do not part ways lead one through the other. *)
Lemma apart_false p q :
  apart p q = false -> (exists r, q = p ++ r) \/ (exists r, p = q ++ r).
Proof.
  revert q. induction p as [|x p IH]; intros [|y q]; simpl; eauto.
  destruct (String.eqb x y) eqn:Hxy; [|done].
  apply String.eqb_eq in Hxy as ->.
  intros [[r ->]|[r ->]]%IH; eauto.
Qed.

Lemma put_get n p e n' r :
  put n p e = Some n' -> get n' (p ++ r) = get e r.
Proof.
  revert n n'. induction p as [|name p IH]; intros n n'; simpl.
  - by intros [= ->].
  - destruct n as [c|l]; [done|]. intros H.
    apply bind_Some in H as (sub & Hsub & [= <-]). simpl.
    rewrite lookup_set_entry_eq. simpl.
    destruct (lookup name l) as [old|]; [by eapply IH|].
    destruct p; by simplify_eq.
Qed.

Lemma put_apart n p e n' q :
  put n p e = Some n' -> apart p q = true -> get n' q = get n q.
Proof.
  revert n n' q. induction p as [|name p IH]; intros n n' [|x q]; simpl;
    try done.
  destruct n as [c|l]; [done|]. intros H.
  apply bind_Some in H as (sub & Hsub & [= <-]). simpl.
  destruct (String.eqb name x) eqn:Hx.
  - apply String.eqb_eq in Hx as <-. rewrite lookup_set_entry_eq. simpl.
    destruct (lookup name l) as [old|]; simpl.
    + intros Hq. by eapply IH.
    + destruct p; [done|done].
  - apply String.eqb_neq in Hx. intros _.
    by rewrite lookup_set_entry_ne.
Qed.

(** A directory that holds the place stays a directory. *)
Lemma put_above n p x r e n' l :
  put n (p ++ x :: r) e = Some n' -> get n p = Some (Dir l) ->
  exists l', get n' p = Some (Dir l').
Proof.
  revert n n' l. induction p as [|name p IH]; intros n n' l; simpl.
  - destruct n as [c|l0]; [done|]. intros H _.
    apply bind_Some in H as (sub & Hsub & [= <-]). eauto.
  - destruct n as [c|l0]; [done|]. intros H.
    apply bind_Some in H as (sub & Hsub & [= <-]). simpl.
    rewrite lookup_set_entry_eq. simpl.
    destruct (lookup name l0) as [old|]; simpl; [|done].
    intros Hold. by eapply IH.
Qed.

Lemma put_child n p name e l :
  get n p = Some (Dir l) ->
  exists n', put n (p ++ [name]) e = Some n' /\
             get n' p = Some (Dir (set_entry name e l)).
Proof.
  revert n. induction p as [|x p IH]; intros n; simpl.
  - intros [= ->]. destruct (lookup name l); simpl; eauto.
  - destruct n as [c|l0]; [done|].
    destruct (lookup x l0) as [old|] eqn:Hold; simpl; [|done].
    intros Hp. destruct (IH old Hp) as (n' & -> & Hn'). simpl.
    eexists; split; [done|]. simpl. by rewrite lookup_set_entry_eq.
Qed.

Lemma bind_Return {A B} (r : result A) (f : A -> result B) b :
  bind r f = Return b -> exists a, r = Return a /\ f a = Return b.
Proof. destruct r as [a|e]; simpl; [eauto|done]. Qed.

Lemma makedirs_existing n p l : get n p = Some (Dir l) -> makedirs n p = Return n.
Proof.
  revert n. induction p as [|name p IH]; intros n; simpl.
  - by intros [= ->].
  - destruct n as [c|l0]; [done|].
    destruct (lookup name l0) as [old|] eqn:Hold; simpl; [|done].
    intros Hp. rewrite (IH _ Hp). simpl. by rewrite set_entry_same.
Qed.

Lemma makedirs_isdir n p n' :
  makedirs n p = Return n' -> exists l, get n' p = Some (Dir l).
Proof.
  revert n n'. induction p as [|name p IH]; intros n n'; simpl.
  - destruct n as [c|l]; [done|]. intros [= <-]. eauto.
  - destruct n as [c|l]; [done|].
    intros (sub & Hsub & [= <-])%bind_Return. simpl.
    rewrite lookup_set_entry_eq. simpl. by eapply IH.
Qed.

(** [os.makedirs] changes nothing but the directories on its path. *)
Lemma makedirs_frame n p n' q :
  makedirs n p = Return n' -> (forall r, p <> q ++ r) -> get n' q = get n q.
Proof.
  revert n n' q. induction p as [|name p IH]; intros n n' q; simpl.
  - destruct n as [c|l]; [done|]. by intros [= <-].
  - destruct n as [c|l]; [done|].
    intros (sub & Hsub & [= <-])%bind_Return Hq.
    destruct q as [|x q]; [by destruct (Hq (name :: p))|]. simpl.
    destruct (String.eqb x name) eqn:Hx.
    + apply String.eqb_eq in Hx as ->. rewrite lookup_set_entry_eq. simpl.
      assert (forall r, p <> q ++ r) as Hq'.
      { intros r ->. by apply (Hq r). }
      rewrite (IH _ _ _ Hsub Hq').
      destruct (lookup name l) as [old|]; simpl; [done|].
      destruct q as [|y q]; [by destruct (Hq' p)|done].
    + apply String.eqb_neq in Hx. by rewrite lookup_set_entry_ne.
Qed.

(** It makes and removes no file. *)
Lemma makedirs_files n p n' q c :
  makedirs n p = Return n' ->
  get n' q = Some (File c) <-> get n q = Some (File c).
Proof.
  revert n n' q. induction p as [|name p IH]; intros n n' q; simpl.
  - destruct n as [c0|l]; [done|]. by intros [= <-].
  - destruct n as [c0|l]; [done|].
    intros (sub & Hsub & [= <-])%bind_Return.
    destruct q as [|x q]; [done|]. simpl.
    destruct (String.eqb x name) eqn:Hx.
    + apply String.eqb_eq in Hx as ->. rewrite lookup_set_entry_eq. simpl.
      rewrite (IH _ _ q Hsub).
      destruct (lookup name l) as [old|]; simpl; [done|].
      by destruct q.
    + apply String.eqb_neq in Hx. by rewrite lookup_set_entry_ne.
Qed.

(** It succeeds unless a file is in its way. *)
Lemma makedirs_ok n p :
  (forall q r c, p = q ++ r -> get n q <> Some (File c)) ->
  exists n', makedirs n p = Return n'.
Proof.
  revert n. induction p as [|name p IH]; intros n Hn; simpl.
  - destruct n as [c|l]; [|eauto]. by destruct (Hn [] [] c).
  - destruct n as [c|l]; [by destruct (Hn [] (name :: p) c)|].
    destruct (IH (default (Dir []) (lookup name l))) as [sub ->];
      [|simpl; eauto].
    intros q r c ->. specialize (Hn (name :: q) r c eq_refl). simpl in Hn.
    destruct (lookup name l) as [old|]; simpl in *; [done|].
    by destruct q.
Qed.

Lemma write_file_put n p text n' :
  write_file n p text = Return n' -> put n p (File text) = Some n'.
Proof.
  revert n n'. induction p as [|name p IH]; intros n n'; simpl.
  - destruct n as [c|l]; [|done]. by intros [= <-].
  - destruct n as [c|l]; [done|].
    intros (sub & Hsub & [= <-])%bind_Return.
    destruct (lookup name l) as [old|].
    + by rewrite (IH _ _ Hsub).
    + destruct p; [|done]. by injection Hsub as <-.
Qed.

(** Writing a file changes no other file. *)
Lemma write_file_files n p text n' q c :
  write_file n p text = Return n' -> q <> p ->
  get n' q = Some (File c) <-> get n q = Some (File c).
Proof.
  revert n n' q. induction p as [|name p IH]; intros n n' q; simpl.
  - destruct n as [c0|l]; [|done]. intros [= <-] Hq.
    destruct q; [done|]. done.
  - destruct n as [c0|l]; [done|].
    intros (sub & Hsub & [= <-])%bind_Return Hq.
    destruct q as [|x q]; [done|]. simpl.
    destruct (String.eqb x name) eqn:Hx.
    + apply String.eqb_eq in Hx as ->. rewrite lookup_set_entry_eq. simpl.
      assert (q <> p) as Hq' by congruence.
      destruct (lookup name l) as [old|]; simpl; [by apply IH|].
      destruct p; [|done]. injection Hsub as <-. by destruct q.
    + apply String.eqb_neq in Hx. by rewrite lookup_set_entry_ne.
Qed.

(** It succeeds when the directory of the file exists and the path is
    not that of a directory. *)
Lemma write_file_ok n p name text l :
  get n p = Some (Dir l) ->
  (forall l', lookup name l <> Some (Dir l')) ->
  exists n', write_file n (p ++ [name]) text = Return n'.
Proof.
  revert n. induction p as [|x p IH]; intros n; simpl.
  - intros [= ->] Hname. destruct (lookup name l) as [[c|l']|]; simpl; eauto.
    by destruct (Hname l').
  - destruct n as [c|l0]; [done|].
    destruct (lookup x l0) as [old|]; simpl; [|done].
    intros Hp Hname. destruct (IH old Hp Hname) as [n' ->]. simpl. eauto.
Qed.

Lemma lookup_copy_of name l :
  lookup name
    ((fix copy (l : listing) : listing :=
        match l with
        | [] => []
        | (name, e) :: l =>
            if ignored name then copy l else (name, copy_of e) :: copy l
        end) l)
  = if ignored name then None else copy_of <$> lookup name l.
Proof.
  induction l as [|[n x] l IH]; [by destruct (ignored name)|].
  rewrite lookup_entry_cons.
  destruct (ignored n) eqn:Hig.
  - rewrite IH. destruct (String.eqb name n) eqn:Hn; [|done].
    apply String.eqb_eq in Hn as ->. by rewrite Hig.
  - rewrite lookup_entry_cons, IH. destruct (String.eqb name n) eqn:Hn; [|done].
    apply String.eqb_eq in Hn as ->. by rewrite Hig.
Qed.

(** The copy of a tree has the entries whose path has no ignored name. *)
Lemma get_copy_of n q :
  get (copy_of n) q
  = if forallb (fun name => negb (ignored name)) q
    then copy_of <$> get n q else None.
Proof.
  revert n. induction q as [|x q IH]; intros n; [done|].
  destruct n as [c|l]; [simpl; by destruct (_ && _)|].
  cbn [copy_of get forallb]. rewrite lookup_copy_of.
  destruct (ignored x); simpl; [done|].
  destruct (lookup x l) as [e|]; simpl; [apply IH|].
  by destruct (forallb _ q).
Qed.

Lemma copy_of_File e c : copy_of e = File c <-> e = File c.
Proof. destruct e; simpl; split; by intros [= ->] || (intros; congruence). Qed.

Lemma copy_of_Dir e l : copy_of e = Dir l -> exists l', e = Dir l'.
Proof. destruct e; simpl; [done|eauto]. Qed.

Lemma lookup_sandbox_of ex name project :
  lookup name (sandbox_of ex project)
  = if bool_decide (name ∈ ex) then None else copy_of <$> lookup name project.
Proof.
  unfold sandbox_of. induction project as [|[n x] l IH]; [by case_bool_decide|].
  rewrite lookup_entry_cons.
  change (omap ?f ((n, x) :: l))
    with (match (if bool_decide (n ∈ ex) then None else Some (n, copy_of x)) with
          | Some y => y :: omap f l
          | None => omap f l
          end).
  destruct (bool_decide (n ∈ ex)) eqn:Hex.
  - rewrite IH. destruct (String.eqb name n) eqn:Hn; [|done].
    apply String.eqb_eq in Hn as ->. by rewrite Hex.
  - rewrite lookup_entry_cons, IH. destruct (String.eqb name n) eqn:Hn; [|done].
    apply String.eqb_eq in Hn as ->. by rewrite Hex.
Qed.

Lemma get_sandbox_of ex project q :
  q <> [] ->
  get (Dir (sandbox_of ex project)) q
  = if copied ex q then copy_of <$> get (Dir project) q else None.
Proof.
  destruct q as [|x q]; [done|]. intros _. simpl.
  rewrite lookup_sandbox_of. case_bool_decide; simpl; [done|].
  destruct (lookup x project) as [e|]; simpl; [apply get_copy_of|].
  by destruct (forallb _ q).
Qed.

Lemma sandbox_of_snoc ex done name e :
  sandbox_of ex (done ++ [(name, e)])
  = sandbox_of ex done
    ++ (if bool_decide (name ∈ ex) then [] else [(name, copy_of e)]).
Proof.
  unfold sandbox_of. rewrite omap_app. f_equal. simpl. by case_bool_decide.
Qed.

Lemma sandbox_of_names ex l name :
  name ∈ (sandbox_of ex l).*1 -> name ∈ l.*1.
Proof.
  intros Hin. destruct (decide (name ∈ l.*1)) as [|Hnin]; [done|].
  apply lookup_entry_None in Hnin.
  destruct (proj1 (lookup_entry_None name (sandbox_of ex l))); [|done].
  rewrite lookup_sandbox_of, Hnin. by case_bool_decide.
Qed.

Lemma lookup_entry_NoDup done name e rest :
  NoDup (done ++ (name, e) :: rest).*1 ->
  lookup name (done ++ (name, e) :: rest) = Some e.
Proof.
  rewrite fmap_app, fmap_cons. simpl. intros Hnd.
  apply NoDup_app in Hnd as (_ & Hdone & _).
  assert (name ∉ done.*1) as Hnin by (intros Hin; apply (Hdone _ Hin); left).
  clear Hdone. induction done as [|[n x] done IH]; simpl.
  - by rewrite lookup_entry_cons, String.eqb_refl.
  - rewrite fmap_cons, not_elem_of_cons in Hnin. destruct Hnin as [Hne Hnin].
    rewrite lookup_entry_cons. simpl in Hne. apply String.eqb_neq in Hne as ->. auto.
Qed.

Lemma dirname_snoc p name : dirname (p ++ [name]) = p.
Proof. apply removelast_last. Qed.

Section copy_loop.
Context (errors : copy_errors) (ex : list string) (cwd tmpdir : path)
  (fs : node) (project : listing).
Hypothesis Herrors : forall item, errors item = None.
Hypothesis Hcwd : get fs cwd = Some (Dir project).
Hypothesis Hnodup : NoDup project.*1.
Hypothesis Hapart : apart cwd tmpdir = true.

Lemma copy_loop_ok rest : forall done fs_i,
  project = done ++ rest ->
  get fs_i tmpdir = Some (Dir (sandbox_of ex done)) ->
  (forall q, apart tmpdir q = true -> get fs_i q = get fs q) ->
  exists fs',
    fold_left (copy_item errors ex cwd tmpdir) rest.*1 (fs_i, []) = (fs', []) /\
    get fs' tmpdir = Some (Dir (sandbox_of ex project)) /\
    (forall q, apart tmpdir q = true -> get fs' q = get fs q).
Proof.
  induction rest as [|[name e] rest IH]; intros done fs_i Hsplit Htmp Hframe.
  - rewrite app_nil_r in Hsplit. subst done. simpl. eauto.
  - rewrite fmap_cons. cbn [fold_left fst].
    assert (exists fs_j,
      copy_item errors ex cwd tmpdir (fs_i, []) name = (fs_j, []) /\
      get fs_j tmpdir = Some (Dir (sandbox_of ex (done ++ [(name, e)]))) /\
      (forall q, apart tmpdir q = true -> get fs_j q = get fs q))
      as (fs_j & -> & Htmp' & Hframe').
    { unfold copy_item. rewrite sandbox_of_snoc.
      case_bool_decide as Hex; [rewrite app_nil_r; eauto|].
      rewrite Herrors.
      assert (get fs_i (cwd ++ [name]) = Some e) as Hsrc.
      { rewrite Hframe.
        2:{ rewrite apart_sym, <- (app_nil_r tmpdir). by apply apart_app. }
        rewrite get_app, Hcwd. simpl. rewrite Hsplit.
        rewrite lookup_entry_NoDup by (by rewrite <- Hsplit). by destruct e. }
      assert (lookup name (sandbox_of ex done) = None) as Hfresh.
      { apply lookup_entry_None. intros Hin%sandbox_of_names.
        rewrite Hsplit, fmap_app, fmap_cons in Hnodup.
        apply NoDup_app in Hnodup as (_ & Hdone & _).
        apply (Hdone _ Hin). left. }
      assert (get fs_i (tmpdir ++ [name]) = None) as Hdst.
      { rewrite get_app, Htmp. simpl. by rewrite Hfresh. }
      destruct (put_child fs_i tmpdir name (copy_of e) _ Htmp)
        as (fs_j & Hput & Hj).
      rewrite (set_entry_new _ _ _ Hfresh) in Hj.
      assert (forall q, apart tmpdir q = true -> get fs_j q = get fs q) as Hfr.
      { intros q Hq. rewrite <- Hframe by done.
        apply (put_apart _ _ _ _ _ Hput).
        rewrite <- (app_nil_r q). by apply apart_app. }
      unfold isdir. rewrite Hsrc. destruct e as [c|l].
      - unfold copy2. rewrite Hsrc. unfold isdir. rewrite Hdst.
        rewrite decide_False.
        2:{ apply apart_ne. by apply apart_app. }
        destruct (write_file_ok fs_i tmpdir name c _ Htmp) as [fs_k Hw].
        { by rewrite Hfresh. }
        rewrite Hw. apply write_file_put in Hw. simpl in Hput.
        rewrite Hput in Hw. injection Hw as <-. eauto.
      - unfold copytree. rewrite Hsrc, Hdst, dirname_snoc.
        rewrite (makedirs_existing _ _ _ Htmp). cbn [bind]. rewrite Hput.
        eauto. }
    apply (IH (done ++ [(name, e)]) fs_j); [|done|done].
    by rewrite <- app_assoc.
Qed.
End copy_loop.

Lemma copy_project_to_ok errors exclude_names cwd tmpdir fs project :
  (forall item, errors item = None) ->
  get fs cwd = Some (Dir project) ->
  NoDup project.*1 ->
  get fs tmpdir = Some (Dir []) ->
  apart cwd tmpdir = true ->
  exists fs',
    copy_project_to errors cwd tmpdir exclude_names fs = Return (fs', []) /\
    get fs' tmpdir
    = Some (Dir (sandbox_of (default default_exclude_names exclude_names) project)) /\
    (forall q, apart tmpdir q = true -> get fs' q = get fs q).
Proof.
  intros Herrors Hcwd Hnodup Htmp Hapart. unfold copy_project_to. rewrite Hcwd.
  destruct (copy_loop_ok errors (default default_exclude_names exclude_names)
              cwd tmpdir fs project Herrors Hcwd Hnodup Hapart project [] fs)
    as (fs' & -> & ? & ?); eauto.
Qed.

Lemma get_sandbox ex cwd tmpdir fs fs' project q :
  get fs cwd = Some (Dir project) ->
  get fs' tmpdir = Some (Dir (sandbox_of ex project)) ->
  q <> [] ->
  get fs' (tmpdir ++ q)
  = if copied ex q then copy_of <$> get fs (cwd ++ q) else None.
Proof.
  intros Hcwd Htmp Hq. rewrite !get_app, Hcwd, Htmp. simpl.
  by apply get_sandbox_of.
Qed.

Lemma sandbox_file ex cwd tmpdir fs fs' project q c :
  get fs cwd = Some (Dir project) ->
  get fs' tmpdir = Some (Dir (sandbox_of ex project)) ->
  get fs' (tmpdir ++ q) = Some (File c)
  <-> copied ex q = true /\ get fs (cwd ++ q) = Some (File c).
Proof.
  intros Hcwd Htmp. destruct q as [|x q].
  - rewrite app_nil_r, Htmp. simpl. split; [done|by intros [? ?]].
  - rewrite (get_sandbox ex cwd tmpdir fs fs' project) by done.
    destruct (copied ex (x :: q)); [|split; [done|by intros [? ?]]].
    destruct (get fs (cwd ++ x :: q)) as [e|]; simpl.
    + split.
      * intros [= ->%copy_of_File]. done.
      * intros [_ [= ->]]. done.
    + split; [done|by intros [? ?]].
Qed.

(** X8: when no copy fails, [copy_project_to] prints no warning and
    leaves in an empty temporary directory the files of the project,
    each with its text, whose first name is not excluded and whose
    further names are not ignored, and no other file; outside the
    temporary directory it changes nothing. *)
Theorem sandbox_holds_the_copied_files (errors : copy_errors)
    (exclude_names : option (list string)) (cwd tmpdir : path) (fs : node)
    (project : listing) :
  (forall item, errors item = None) ->
  get fs cwd = Some (Dir project) ->
  NoDup project.*1 ->
  get fs tmpdir = Some (Dir []) ->
  apart cwd tmpdir = true ->
  exists fs',
    copy_project_to errors cwd tmpdir exclude_names fs = Return (fs', []) /\
    (forall q c,
       get fs' (tmpdir ++ q) = Some (File c)
       <-> copied (default default_exclude_names exclude_names) q = true /\
           get fs (cwd ++ q) = Some (File c)) /\
    (forall q, apart tmpdir q = true -> get fs' q = get fs q).
Proof.
  intros Herrors Hcwd Hnodup Htmp Hapart.
  destruct (copy_project_to_ok errors exclude_names cwd tmpdir fs project)
    as (fs' & Hcopy & Htmp' & Hframe); try done.
  exists fs'. split; [done|]. split; [|done].
  intros q c. by eapply sandbox_file.
Qed.

Lemma put_without tmpdir name item r e fs fs' :
  item <> name ->
  put fs (tmpdir ++ item :: r) e = Some fs' ->
  without tmpdir name fs -> without tmpdir name fs'.
Proof.
  intros Hne Hput [[l Hl] Hname]. split.
  - by eapply put_above.
  - rewrite <- Hname. apply (put_apart _ _ _ _ _ Hput). by apply apart_snoc.
Qed.

Lemma copy_item_without errors ex cwd tmpdir name fs warned item :
  name ∈ ex ->
  without tmpdir name fs ->
  without tmpdir name (copy_item errors ex cwd tmpdir (fs, warned) item).1.
Proof.
  intros Hex Hinv. unfold copy_item.
  case_bool_decide as Hitem; [done|].
  assert (item <> name) as Hne by (by intros ->).
  destruct (errors item) as [[e|]|]; simpl.
  - destruct (put fs (tmpdir ++ [item]) e) as [fs'|] eqn:Hput; simpl; [|done].
    by eapply put_without.
  - done.
  - destruct (isdir fs (cwd ++ [item])).
    + unfold copytree.
      destruct (get fs (cwd ++ [item])) as [tree|]; [|done].
      destruct (get fs (tmpdir ++ [item])); [done|].
      rewrite dirname_snoc. destruct Hinv as [[l Hl] Hname].
      rewrite (makedirs_existing _ _ _ Hl). cbn [bind].
      destruct (put fs (tmpdir ++ [item]) (copy_of tree)) as [fs'|] eqn:Hput;
        simpl; [|by split; eauto].
      eapply put_without; [done..|by split; eauto].
    + unfold copy2.
      destruct (get fs (cwd ++ [item])) as [[content|?]|]; [|done..].
      destruct (isdir fs (tmpdir ++ [item])).
      * case_decide; [done|].
        destruct (write_file fs _ content) as [fs'|] eqn:Hw; [|done].
        apply write_file_put in Hw. rewrite <- app_assoc in Hw. simpl in *.
        by eapply put_without.
      * case_decide; [done|].
        destruct (write_file fs _ content) as [fs'|] eqn:Hw; [|done].
        apply write_file_put in Hw. simpl. by eapply put_without.
Qed.

Lemma copy_loop_without errors ex cwd tmpdir name items : forall st,
  name ∈ ex ->
  without tmpdir name st.1 ->
  without tmpdir name (fold_left (copy_item errors ex cwd tmpdir) items st).1.
Proof.
  induction items as [|item items IH]; intros [fs warned] Hex Hinv; [done|].
  cbn [fold_left]. apply IH; [done|].
  destruct (copy_item errors ex cwd tmpdir (fs, warned) item) as [fs' warned'] eqn:Hstep.
  pose proof (copy_item_without errors ex cwd tmpdir name fs warned item Hex Hinv)
    as Hinv'.
  by rewrite Hstep in Hinv'.
Qed.

(** X9: whatever fails while the entries are copied, [copy_project_to]
    returns, and the temporary directory, empty before, has no entry of
    an excluded name afterwards. *)
Theorem excluded_names_are_not_copied (errors : copy_errors)
    (exclude_names : option (list string)) (cwd tmpdir : path) (fs : node)
    (project : listing) :
  get fs cwd = Some (Dir project) ->
  get fs tmpdir = Some (Dir []) ->
  exists fs' warned,
    copy_project_to errors cwd tmpdir exclude_names fs = Return (fs', warned) /\
    forall name,
      name ∈ default default_exclude_names exclude_names ->
      get fs' (tmpdir ++ [name]) = None.
Proof.
  intros Hcwd Htmp. unfold copy_project_to. rewrite Hcwd.
  destruct (fold_left _ project.*1 (fs, [])) as [fs' warned] eqn:Hloop.
  exists fs', warned. split; [done|]. intros name Hex.
  pose proof (copy_loop_without errors _ cwd tmpdir name project.*1 (fs, [])
                Hex) as Hinv.
  rewrite Hloop in Hinv. apply Hinv. split; simpl; [eauto|].
  by rewrite get_app, Htmp.
Qed.

Lemma makedirs_app_ok n a e b e' :
  get n a = Some e -> makedirs e b = Return e' ->
  exists n', makedirs n (a ++ b) = Return n'.
Proof.
  revert n. induction a as [|x a IH]; intros n; simpl.
  - intros [= ->]. eauto.
  - destruct n as [c|l]; [done|].
    destruct (lookup x l) as [sub|]; simpl; [|done].
    intros Ha Hb. destruct (IH _ Ha Hb) as [n' ->]. simpl. eauto.
Qed.

Lemma get_snoc_Some n p x e :
  get n (p ++ [x]) = Some e ->
  exists l, get n p = Some (Dir l) /\ lookup x l = Some e.
Proof.
  rewrite get_app. destruct (get n p) as [[c|l]|]; simpl; [done| |done].
  destruct (lookup x l) as [e0|] eqn:Hx; simpl; [|done].
  intros [= ->]. by exists l.
Qed.

(** The write of the mutated source, after the copy. *)
Lemma write_target fs t x text l :
  get fs t = Some (Dir l) ->
  (forall l', lookup x l <> Some (Dir l')) ->
  exists fs',
    write_file fs (t ++ [x]) text = Return fs' /\
    get fs' (t ++ [x]) = Some (File text) /\
    (forall q c, q <> t ++ [x] ->
                 get fs' q = Some (File c) <-> get fs q = Some (File c)) /\
    (forall q, apart (t ++ [x]) q = true -> get fs' q = get fs q).
Proof.
  intros Ht Hx. destruct (write_file_ok fs t x text l Ht Hx) as [fs' Hw].
  exists fs'. split; [done|]. split; [|split].
  - apply write_file_put in Hw.
    rewrite <- (app_nil_r (t ++ [x])). by rewrite (put_get _ _ _ _ [] Hw).
  - intros q c Hq. by eapply write_file_files.
  - intros q Hq. apply write_file_put in Hw. by eapply put_apart.
Qed.

(** X10: with a path relative to the working directory, the sandbox of
    a mutant is made whenever no copy fails: the mutated source is the
    text of the file in the sandbox, every other file of the sandbox is a
    copied file of the project with its own text, and nothing outside
    the sandbox changes, the file of the project included. *)
Theorem mutant_written_into_the_sandbox (errors : copy_errors)
    (cwd tmpdir : path) (fs : node) (project : listing) (p : path)
    (original mutated_source : string) :
  (forall item, errors item = None) ->
  get fs cwd = Some (Dir project) ->
  NoDup project.*1 ->
  get fs tmpdir = Some (Dir []) ->
  apart cwd tmpdir = true ->
  get fs (cwd ++ p) = Some (File original) ->
  exists fs',
    stage_mutant errors cwd tmpdir (Relative p) mutated_source fs = Return fs' /\
    get fs' (tmpdir ++ p) = Some (File mutated_source) /\
    (forall q c,
       q <> p ->
       get fs' (tmpdir ++ q) = Some (File c)
       <-> copied default_exclude_names q = true /\
           get fs (cwd ++ q) = Some (File c)) /\
    (forall q, apart tmpdir q = true -> get fs' q = get fs q).
Proof.
  intros Herrors Hcwd Hnodup Htmp Hapart Hfile.
  destruct (copy_project_to_ok errors None cwd tmpdir fs project)
    as (fs1 & Hcopy & Htmp1 & Hframe1); try done.
  simpl in Htmp1.
  destruct p as [|x p0 _] using rev_ind.
  { rewrite app_nil_r, Hcwd in Hfile. done. }
  assert (get (Dir project) (p0 ++ [x]) = Some (File original)) as Hfile'.
  { by rewrite get_app, Hcwd in Hfile. }
  unfold stage_mutant. rewrite Hcopy. cbn [bind os_path_join].
  rewrite app_assoc, dirname_snoc.
  assert (exists e', makedirs (Dir (sandbox_of default_exclude_names project)) p0
                     = Return e') as [e' He'].
  { apply makedirs_ok. intros q r c -> Hq.
    destruct q as [|y q]; [done|].
    rewrite get_sandbox_of in Hq by done.
    destruct (copied _ _); [|done].
    destruct (get (Dir project) (y :: q)) as [e|] eqn:He; [|done].
    injection Hq as ->%copy_of_File.
    rewrite <- app_assoc, get_app, He in Hfile'. simpl in Hfile'.
    apply get_File in Hfile' as [Hnil _]. by destruct r. }
  destruct (makedirs_app_ok fs1 tmpdir _ p0 e' Htmp1 He') as [fs2 Hmk].
  rewrite Hmk. cbn [bind].
  destruct (makedirs_isdir _ _ _ Hmk) as [l2 Hl2].
  assert (forall r, tmpdir ++ p0 <> ((tmpdir ++ p0) ++ [x]) ++ r) as Hlen.
  { intros r Heq. apply (f_equal length) in Heq.
    rewrite !length_app in Heq. simpl in Heq. lia. }
  destruct (write_target fs2 (tmpdir ++ p0) x mutated_source l2 Hl2)
    as (fs3 & Hw & Hget & Hfiles & Hframe3).
  { intros l' Hl'.
    assert (get fs2 ((tmpdir ++ p0) ++ [x]) = Some (Dir l')) as Hdir.
    { rewrite get_app, Hl2. simpl. by rewrite Hl'. }
    rewrite (makedirs_frame _ _ _ _ Hmk Hlen), <- app_assoc in Hdir.
    rewrite (get_sandbox default_exclude_names cwd tmpdir fs fs1 project)
      in Hdir; [|done|done|by destruct p0].
    rewrite Hfile in Hdir. by destruct (copied _ _). }
  exists fs3. split; [done|]. split; [done|]. split.
  - intros q c Hq. rewrite <- app_assoc in Hfiles.
    rewrite Hfiles by (by intros ?%app_inv_head).
    rewrite (makedirs_files _ _ _ _ _ Hmk).
    by eapply sandbox_file.
  - intros q Hq. rewrite Hframe3.
    2:{ rewrite <- (app_nil_r q), <- app_assoc. by apply apart_app. }
    rewrite (makedirs_frame _ _ _ _ Hmk); [by apply Hframe1|].
    intros r. apply apart_ne. by apply apart_app.
Qed.

Lemma file_apart_from_empty_directory fs tmpdir a c :
  get fs tmpdir = Some (Dir []) -> get fs a = Some (File c) ->
  apart tmpdir a = true.
Proof.
  intros Htmp Ha. destruct (apart tmpdir a) eqn:Hap; [done|].
  apply apart_false in Hap as [[r ->]|[r ->]].
  - rewrite get_app, Htmp in Ha. simpl in Ha. by destruct r.
  - rewrite get_app, Ha in Htmp. simpl in Htmp.
    by apply get_File in Htmp as [_ ?].
Qed.

(** X11: with an absolute path, [os.path.join] discards the temporary
    directory: the mutated source is written over the file itself, and
    the files of the sandbox are the copied files of the project with
    the text they had before, that of the mutated file included. *)
Theorem absolute_path_overwrites_the_original (errors : copy_errors)
    (cwd tmpdir : path) (fs : node) (project : listing) (a : path)
    (original mutated_source : string) :
  (forall item, errors item = None) ->
  get fs cwd = Some (Dir project) ->
  NoDup project.*1 ->
  get fs tmpdir = Some (Dir []) ->
  apart cwd tmpdir = true ->
  get fs a = Some (File original) ->
  exists fs',
    stage_mutant errors cwd tmpdir (Absolute a) mutated_source fs = Return fs' /\
    get fs' a = Some (File mutated_source) /\
    (forall q c,
       get fs' (tmpdir ++ q) = Some (File c)
       <-> copied default_exclude_names q = true /\
           get fs (cwd ++ q) = Some (File c)).
Proof.
  intros Herrors Hcwd Hnodup Htmp Hapart Hfile.
  pose proof (file_apart_from_empty_directory _ _ _ _ Htmp Hfile) as Ha.
  destruct (copy_project_to_ok errors None cwd tmpdir fs project)
    as (fs1 & Hcopy & Htmp1 & Hframe1); try done.
  simpl in Htmp1.
  destruct a as [|x a0 _] using rev_ind.
  { by destruct tmpdir. }
  unfold stage_mutant. rewrite Hcopy. cbn [bind os_path_join].
  rewrite dirname_snoc.
  rewrite <- (Hframe1 _ Ha) in Hfile.
  apply get_snoc_Some in Hfile as (l & Hl & Hx).
  rewrite (makedirs_existing _ _ _ Hl). cbn [bind].
  destruct (write_target fs1 a0 x mutated_source l Hl)
    as (fs3 & Hw & Hget & Hfiles & _).
  { intros l'. by rewrite Hx. }
  exists fs3. split; [done|]. split; [done|].
  intros q c. rewrite Hfiles.
  - by eapply sandbox_file.
  - apply apart_ne. rewrite <- (app_nil_r (a0 ++ [x])). by apply apart_app.
Qed.
End files_facts.

Section files_witnesses.
Import files files_examples.

Lemma project_names_differ : NoDup project.*1.
Proof. apply (bool_decide_unpack _). vm_compute. exact I. Qed.

Lemma sandbox_of_the_example_project :
  exists fs',
    copy_project_to no_errors cwd tmpdir None fs = Return (fs', []) /\
    (forall q c,
       get fs' (tmpdir ++ q) = Some (File c)
       <-> copied default_exclude_names q = true /\
           get fs (cwd ++ q) = Some (File c)) /\
    (forall q, apart tmpdir q = true -> get fs' q = get fs q).
Proof.
  apply (sandbox_holds_the_copied_files no_errors None cwd tmpdir fs project);
    [done|reflexivity|exact project_names_differ|reflexivity|reflexivity].
Defined.

Lemma no_git_in_the_example_sandbox :
  exists fs' warned,
    copy_project_to tests_fail cwd tmpdir None fs = Return (fs', warned) /\
    forall name,
      name ∈ default default_exclude_names None ->
      get fs' (tmpdir ++ [name]) = None.
Proof.
  apply (excluded_names_are_not_copied tests_fail None cwd tmpdir fs project);
    reflexivity.
Defined.

Lemma mutant_of_test_math_in_the_sandbox :
  exists fs',
    stage_mutant no_errors cwd tmpdir (Relative ["tests"; "test_math.py"])
      "assert inc(1) != 2" fs = Return fs' /\
    get fs' (tmpdir ++ ["tests"; "test_math.py"])
    = Some (File "assert inc(1) != 2") /\
    (forall q c,
       q <> ["tests"; "test_math.py"] ->
       get fs' (tmpdir ++ q) = Some (File c)
       <-> copied default_exclude_names q = true /\
           get fs (cwd ++ q) = Some (File c)) /\
    (forall q, apart tmpdir q = true -> get fs' q = get fs q).
Proof.
  apply (mutant_written_into_the_sandbox no_errors cwd tmpdir fs project
           ["tests"; "test_math.py"] "assert inc(1) == 2");
    [done|reflexivity|exact project_names_differ|reflexivity|reflexivity
    |reflexivity].
Defined.

Lemma mathfuncs_overwritten :
  exists fs',
    stage_mutant no_errors cwd tmpdir
      (Absolute ["home"; "project"; "mathfuncs.py"])
      "def inc(x): return x - 1" fs = Return fs' /\
    get fs' ["home"; "project"; "mathfuncs.py"]
    = Some (File "def inc(x): return x - 1") /\
    (forall q c,
       get fs' (tmpdir ++ q) = Some (File c)
       <-> copied default_exclude_names q = true /\
           get fs (cwd ++ q) = Some (File c)).
Proof.
  apply (absolute_path_overwrites_the_original no_errors cwd tmpdir fs project
           ["home"; "project"; "mathfuncs.py"] "def inc(x): return x + 1");
    [done|reflexivity|exact project_names_differ|reflexivity|reflexivity
    |reflexivity].
Defined.

(** In the example the tests of the sandbox run on [x + 1] while the
    file of the project has become [x - 1]. *)
Remark tests_run_on_the_original :
  match stage_mutant no_errors cwd tmpdir
          (Absolute ["home"; "project"; "mathfuncs.py"])
          "def inc(x): return x - 1" fs with
  | oracle.Return fs' =>
      get fs' (tmpdir ++ ["mathfuncs.py"])
      = Some (File "def inc(x): return x + 1") /\
      get fs' (cwd ++ ["mathfuncs.py"])
      = Some (File "def inc(x): return x - 1")
  | oracle.Raise _ => False
  end.
Proof. vm_compute. done. Qed.

(** A [.pytest_cache] at the top of the project is copied: the ignore
    patterns apply below the copied directories only. *)
Remark top_level_pytest_cache_is_copied :
  copied default_exclude_names [".pytest_cache"; "v"] = true /\
  copied default_exclude_names ["tests"; ".pytest_cache"] = false.
Proof. done. Qed.
End files_witnesses.

(** ** From the source text to the verdicts *)
Section file_facts.
Import oracle.
Context (parse : string -> option ast.node) (unparse : ast.node -> string).

(** X12: for a text that parses, when the working directory exists, every
    sandbox can be set up and every test run can be launched,
    [mutate_file_and_test] returns one verdict for each [Compare] and
    [BinOp] site of the catalog and none for the other sites, in catalog
    order, each under the description of its site and killed unless its
    run exits with code 0. *)
Theorem one_verdict_per_operator_site (env : nat -> world) (original : string)
    (tree : ast.node) (st : os_state) :
  parse original = Some tree ->
  cwd st ∈ dirs st ->
  (forall i, setup_ok (env i) st /\
             forall what, test_run (env i) <> LaunchFailed what) ->
  mutate_file_and_test parse unparse env original st
  = (Return (imap (fun i s => verdict_of (description s) (test_run (env i)))
               (filter (fun s => is_operator_site s = true)
                  (MutationSiteCollector.collect tree))), st).
Proof.
  intros Hparse Hcwd Hok. unfold mutate_file_and_test,
    generate_mutants_from_source. rewrite Hparse. simpl.
  rewrite (evaluate_all_verdicts env _ st Hcwd 0 []) by (intros; apply Hok).
  rewrite generate_mutants_spec, omap_mutant_of by done.
  simpl. by rewrite imap_fmap.
Qed.

(** X13: a text whose catalog has no [Compare] and no [BinOp] site has
    no mutant, whatever else the catalog holds: [mutate_file_and_test]
    returns the empty list and leaves the state as it is, in every
    world; no temporary directory is made and no test is run. *)
Theorem no_operator_site_no_test_run (env : nat -> world) (original : string)
    (tree : ast.node) (st : os_state) :
  parse original = Some tree ->
  (forall s, s ∈ MutationSiteCollector.collect tree ->
             is_operator_site s = false) ->
  mutate_file_and_test parse unparse env original st = (Return [], st).
Proof.
  intros Hparse Hnone. unfold mutate_file_and_test,
    generate_mutants_from_source. rewrite Hparse. simpl.
  rewrite generate_mutants_spec, omap_mutant_of by done.
  induction (MutationSiteCollector.collect tree) as [|s sites IH]; [done|].
  rewrite filter_cons, (Hnone s) by left. rewrite decide_False by done.
  apply IH. intros s' Hs'. apply Hnone. by right.
Qed.
End file_facts.

Section file_witnesses.
Import oracle oracle_examples.

Lemma scenario_A_has_one_verdict :
  mutate_file_and_test (fun _ => Some scenarios.scenario_A)
    (fun _ => "if a != b: return True")
    (fun _ => a_world (Exited 1)) "if a == b: return True" project
  = (Return [ {| mutation := "Compare @ 1:3 (Eq -> NotEq)"; killed := true |} ],
     project).
Proof.
  refine (one_verdict_per_operator_site _ _ _ "if a == b: return True"
            scenarios.scenario_A project eq_refl project_cwd_exists _).
  intros i. split; [apply a_world_setup_ok|done].
Defined.

Lemma boolean_only_source_is_not_tested :
  mutate_file_and_test (fun _ => Some assign_x_True) (fun _ => "x = False")
    (fun _ => a_world (Exited 1)) "x = True" project
  = (Return [], project).
Proof.
  refine (no_operator_site_no_test_run _ _ _ "x = True" assign_x_True project
            eq_refl _).
  intros s Hs. vm_compute in Hs.
  apply list_elem_of_singleton in Hs as ->. done.
Defined.
End file_witnesses.

(** ** The report of [main] *)
Section main_facts.
Import oracle cli.
Context (collect_python_files : string -> P (list string))
  (mutate_file_and_test : string -> M (list verdict)).

Lemma P_bind_Return {A B} (m : P A) (f : A -> P B) p a p' :
  m p = (Return a, p') -> (m ≫= f) p = f a p'.
Proof. intros H. unfold mbind, P_bind. by rewrite H. Qed.

Lemma P_bind_Raise {A B} (m : P A) (f : A -> P B) p e p' :
  m p = (Raise e, p') -> (m ≫= f) p = (Raise e, p').
Proof. intros H. unfold mbind, P_bind. by rewrite H. Qed.

Lemma bind_print {B} text (f : unit -> P B) p :
  (print text ≫= f) p = f tt {| stdout := stdout p ++ [text]; os := os p |}.
Proof. reflexivity. Qed.

Lemma call_Return {A} (m : M A) p a st :
  m (os p) = (Return a, st) ->
  call m p = (Return a, {| stdout := stdout p; os := st |}).
Proof. intros H. unfold call. by rewrite H. Qed.

Lemma call_Raise {A} (m : M A) p e st :
  m (os p) = (Raise e, st) ->
  call m p = (Raise e, {| stdout := stdout p; os := st |}).
Proof. intros H. unfold call. by rewrite H. Qed.

Lemma print_results_spec res p :
  print_results res p
  = (Return tt, {| stdout := stdout p ++ (result_line <$> res); os := os p |}).
Proof.
  revert p. induction res as [|r res IH]; intros [out st]; simpl.
  - by rewrite app_nil_r.
  - unfold mbind, P_bind, print. simpl. rewrite IH. simpl.
    by rewrite <- app_assoc.
Qed.

Lemma summarize_spec all_results : forall total_killed total_mutants p,
  summarize all_results total_killed total_mutants p
  = (Return ((total_killed + sum_list ((killed_of ∘ snd) <$> all_results))%nat,
             (total_mutants + sum_list ((length ∘ snd) <$> all_results))%nat),
     {| stdout :=
          stdout p
          ++ ((fun fr => file_line fr.1 (killed_of fr.2) (length fr.2))
                <$> all_results);
        os := os p |}).
Proof.
  induction all_results as [|[filename results] all_results IH];
    intros total_killed total_mutants [out st]; simpl.
  - by rewrite !Nat.add_0_r, app_nil_r.
  - unfold mbind, P_bind, print. simpl. rewrite IH. simpl.
    by rewrite <- app_assoc, !Nat.add_assoc.
Qed.

Lemma killed_of_le results : (killed_of results <= length results)%nat.
Proof.
  unfold killed_of. induction results as [|r results IH]; [done|].
  rewrite filter_cons. case_decide.
  - apply le_n_S, IH.
  - transitivity (length results); [apply IH|simpl; lia].
Qed.

Section returns.
Context (results : string -> list verdict).

Lemma mutate_targets_spec targets : forall all_results p,
  (forall t, t ∈ targets ->
             mutate_file_and_test t (os p) = (Return (results t), os p)) ->
  mutate_targets mutate_file_and_test targets all_results p
  = (Return (all_results
             ++ ((fun t => (t, results t))
                   <$> filter (fun t => results t <> []) targets)),
     {| stdout := stdout p ++ flat_map (fun t => section_lines t (results t)) targets;
        os := os p |}).
Proof.
  induction targets as [|t targets IH]; intros all_results [out st] Hret.
  - simpl. by rewrite !app_nil_r.
  - cbn [mutate_targets stdout os] in *.
    rewrite bind_print. cbn [stdout os].
    rewrite (P_bind_Return _ _ _ _ _
               (call_Return (mutate_file_and_test t)
                  {| stdout := out ++ [mutating_line t]; os := st |} _ _
                  (Hret t ltac:(left)))).
    cbn [stdout os].
    rewrite filter_cons. cbn [flat_map section_lines].
    destruct (results t) as [|r res] eqn:Hres.
    + rewrite decide_False by (by intros ?).
      rewrite bind_print. cbn [stdout os].
      rewrite IH by (intros t' Ht'; apply Hret; by right).
      cbn [stdout os]. by rewrite <- !app_assoc.
    + rewrite decide_True by done.
      rewrite (P_bind_Return _ _ _ tt _ (print_results_spec _ _)).
      rewrite IH by (intros t' Ht'; apply Hret; by right).
      cbn [stdout os]. rewrite !fmap_cons, <- !app_assoc. cbn beta.
      by rewrite Hres.
Qed.

Lemma sum_list_listed (f : list verdict -> nat) targets :
  f [] = 0%nat ->
  sum_list ((f ∘ snd) <$> ((fun t => (t, results t))
                             <$> filter (fun t => results t <> []) targets))
  = sum_list (f ∘ results <$> targets).
Proof.
  intros Hnil. induction targets as [|t targets IH]; [done|].
  rewrite filter_cons. case_decide as Hres.
  - rewrite !fmap_cons. simpl. f_equal. apply IH.
  - rewrite fmap_cons. simpl. rewrite Hres, Hnil. apply IH.
Qed.

(** X14: when the targets are found and every call of
    [mutate_file_and_test] returns, leaving the state of the oracle as it
    found it, [main] returns and prints the report: a section for each
    target, then the summary with one line for each target that has a
    verdict, none for the others, and last the line of the sums over all
    targets, of which the first never exceeds the second. *)
Theorem main_prints_the_report (path : string) (targets : list string)
    (p0 p1 : process) :
  collect_python_files path p0 = (Return targets, p1) ->
  targets <> [] ->
  (forall t, t ∈ targets ->
             mutate_file_and_test t (os p1) = (Return (results t), os p1)) ->
  main collect_python_files mutate_file_and_test path p0
  = (Return tt, {| stdout := stdout p1 ++ report targets results; os := os p1 |})
  /\ (sum_list (killed_of ∘ results <$> targets)
      <= sum_list (length ∘ results <$> targets))%nat.
Proof.
  intros Hcollect Hne Hret. split.
  - unfold main. rewrite (P_bind_Return _ _ _ _ _ Hcollect).
    destruct targets as [|t targets]; [done|].
    rewrite (P_bind_Return _ _ _ _ _
               (mutate_targets_spec (t :: targets) [] p1 Hret)).
    rewrite bind_print.
    rewrite (P_bind_Return _ _ _ _ _ (summarize_spec _ _ _ _)).
    unfold print. cbn [stdout os fst snd app].
    rewrite !(sum_list_listed _ (t :: targets)) by done.
    unfold report. rewrite <- list_fmap_compose, <- !app_assoc. done.
  - clear. induction targets as [|t targets IH]; [done|].
    rewrite !fmap_cons. simpl.
    apply Nat.add_le_mono; [apply killed_of_le|apply IH].
Qed.
End returns.

Lemma mutate_targets_raises results before t after e st' : forall all_results p,
  (forall t', t' ∈ before ->
              mutate_file_and_test t' (os p) = (Return (results t'), os p)) ->
  mutate_file_and_test t (os p) = (Raise e, st') ->
  mutate_targets mutate_file_and_test (before ++ t :: after) all_results p
  = (Raise e,
     {| stdout := stdout p
                  ++ flat_map (fun t => section_lines t (results t)) before
                  ++ [mutating_line t];
        os := st' |}).
Proof.
  induction before as [|t0 before IH]; intros all_results [out st] Hret Hfail.
  - cbn [app mutate_targets stdout os] in *.
    rewrite bind_print. cbn [stdout os].
    by rewrite (P_bind_Raise _ _ _ _ _
                  (call_Raise (mutate_file_and_test t)
                     {| stdout := out ++ [mutating_line t]; os := st |} _ _
                     Hfail)).
  - cbn [app mutate_targets stdout os] in *.
    rewrite bind_print. cbn [stdout os].
    rewrite (P_bind_Return _ _ _ _ _
               (call_Return (mutate_file_and_test t0)
                  {| stdout := out ++ [mutating_line t0]; os := st |} _ _
                  (Hret t0 ltac:(left)))).
    cbn [stdout os flat_map section_lines].
    destruct (results t0) as [|r res] eqn:Hres.
    + rewrite bind_print.
      rewrite IH by (try done; intros t' Ht'; apply Hret; by right).
      cbn [stdout os]. by rewrite <- !app_assoc.
    + rewrite (P_bind_Return _ _ _ tt _ (print_results_spec _ _)).
      rewrite IH by (try done; intros t' Ht'; apply Hret; by right).
      cbn [stdout os]. by rewrite <- !app_assoc.
Qed.

Lemma summary_line_not_in_section t res : summary_line ∉ section_lines t res.
Proof.
  unfold section_lines. rewrite not_elem_of_cons. split; [done|].
  destruct res as [|r res]; [by rewrite list_elem_of_singleton|].
  intros (r' & Heq & _)%list_elem_of_fmap. done.
Qed.

(** X15: when [mutate_file_and_test] raises for a target, after it has
    returned for the targets before, [main] ends with that exception:
    it has printed the sections of the targets before and the heading of
    the one that failed, and prints no summary; the targets after it are
    not run. *)
Theorem failing_target_ends_main (path : string)
    (results : string -> list verdict) (before : list string) (t : string)
    (after : list string) (e : exn) (st' : os_state) (p0 p1 : process) :
  collect_python_files path p0 = (Return (before ++ t :: after), p1) ->
  (forall t', t' ∈ before ->
              mutate_file_and_test t' (os p1) = (Return (results t'), os p1)) ->
  mutate_file_and_test t (os p1) = (Raise e, st') ->
  exists printed,
    main collect_python_files mutate_file_and_test path p0
    = (Raise e, {| stdout := stdout p1 ++ printed; os := st' |}) /\
    printed = flat_map (fun t => section_lines t (results t)) before
              ++ [mutating_line t] /\
    summary_line ∉ printed.
Proof.
  intros Hcollect Hret Hfail. eexists. split; [|split; [done|]].
  - unfold main. rewrite (P_bind_Return _ _ _ _ _ Hcollect).
    destruct (before ++ t :: after) as [|t0 ts] eqn:Hts; [by destruct before|].
    rewrite <- Hts.
    by rewrite (P_bind_Raise _ _ _ _ _
                  (mutate_targets_raises results before t after e st' [] p1
                     Hret Hfail)).
  - rewrite not_elem_of_app, list_elem_of_singleton. split; [|done].
    rewrite elem_of_flat_map. intros (t' & _ & Hin).
    by apply summary_line_not_in_section in Hin.
Qed.
End main_facts.

Section main_witnesses.
Import oracle cli cli_examples.

Lemma report_of_two_targets :
  main found returns "." start
  = (Return tt,
     {| stdout := stdout start ++ report ["a.py"; "b.py"] verdicts;
        os := os start |})
  /\ (sum_list (killed_of ∘ verdicts <$> ["a.py"; "b.py"])
      <= sum_list (length ∘ verdicts <$> ["a.py"; "b.py"]))%nat.
Proof.
  apply (main_prints_the_report found returns verdicts "." ["a.py"; "b.py"]
           start start); [reflexivity|done|].
  intros t _. reflexivity.
Defined.

Lemma syntax_error_ends_the_run :
  exists printed,
    main found b_fails "." start
    = (Raise SyntaxError, {| stdout := stdout start ++ printed; os := os start |}) /\
    printed = flat_map (fun t => section_lines t (verdicts t)) ["a.py"]
              ++ [mutating_line "b.py"] /\
    summary_line ∉ printed.
Proof.
  apply (failing_target_ends_main found b_fails "." verdicts ["a.py"] "b.py" []
           SyntaxError (os start) start start); [reflexivity| |reflexivity].
  intros t ->%list_elem_of_singleton. reflexivity.
Defined.

(** The report of the example: the second target is not in the
    summary. *)
Remark report_of_the_example :
  report ["a.py"; "b.py"] verdicts
  = [ nl +:+ "=== Mutating a.py ===";
      "  Compare @ 1:3 (Eq -> NotEq): killed";
      "  BinOp @ 2:4 (Sub -> Add): survived";
      nl +:+ "=== Mutating b.py ===";
      "  No mutation sites found.";
      nl +:+ "=== Summary ===";
      "a.py: 1/2 killed";
      nl +:+ "Overall: 1/2 killed" ].
Proof. reflexivity. Qed.
End main_witnesses.

(** ** The targets *)
Section target_facts.
Import discovery.


Lemma distinct_names_Dir children :
  distinct_names (Dir children) = true <->
  NoDup children.*1 /\
  forall name e, (name, e) ∈ children -> distinct_names e = true.
Proof.
  simpl. rewrite andb_true_iff, bool_decide_eq_true, forallb_forall.
  split; intros [Hnd Hall]; (split; [done|]).
  - intros name e Hin. apply (Hall (name, e)). by apply list_elem_of_In.
  - intros [name e] Hin. apply (Hall name). by apply list_elem_of_In.
Qed.

Lemma NoDup_fst_eq {A} (l : list (string * A)) name a b :
  NoDup l.*1 -> (name, a) ∈ l -> (name, b) ∈ l -> a = b.
Proof.
  induction l as [|[n x] l IH]; [by intros _ ?%elem_of_nil|].
  rewrite fmap_cons, NoDup_cons. simpl. intros [Hn Hnd].
  rewrite !elem_of_cons. intros [Ha|Ha] [Hb|Hb]; simplify_eq; try done.
  - destruct Hn. apply list_elem_of_fmap. by exists (n, b).
  - destruct Hn. apply list_elem_of_fmap. by exists (n, a).
  - by apply IH.
Qed.

Lemma child_elem name children e :
  NoDup children.*1 -> (name, e) ∈ children -> child name children = Some e.
Proof.
  intros Hnd Hin. unfold child.
  destruct (find _ children) as [[n x]|] eqn:Hfind; simpl.
  - apply find_some in Hfind as [Hin' Heq]. simpl in Heq.
    apply String.eqb_eq in Heq as <-. apply list_elem_of_In in Hin'.
    f_equal. by eapply NoDup_fst_eq.
  - apply list_elem_of_In in Hin.
    apply (find_none _ _ Hfind) in Hin. simpl in Hin.
    by rewrite String.eqb_refl in Hin.
Qed.

Lemma below_distinct top rel e :
  below top rel e -> distinct_names top = true ->
  resolve top rel = Some e /\ distinct_names e = true.
Proof.
  induction 1 as [e|children name e rel e' Hin Hb IH]; [done|].
  intros [Hnd Hall]%distinct_names_Dir. simpl.
  rewrite (child_elem _ _ _ Hnd Hin). apply IH. by eapply Hall.
Qed.

Lemma resolve_below top rel e : resolve top rel = Some e -> below top rel e.
Proof.
  revert top. induction rel as [|name rel IH]; intros top; simpl.
  - intros [= ->]. constructor.
  - destruct top as [|children]; [done|]. unfold child.
    destruct (find _ children) as [[n x]|] eqn:Hfind; simpl; [|done].
    apply find_some in Hfind as [Hin Heq]. simpl in Heq.
    apply String.eqb_eq in Heq as <-. apply list_elem_of_In in Hin.
    intros Hres. econstructor; [done|by apply IH].
Qed.


Lemma fmap_bind_list {A B C} (f : B -> C) (g : A -> list B) (l : list A) :
  f <$> (l ≫= g) = l ≫= fun x => f <$> g x.
Proof.
  induction l as [|x l IH]; [done|].
  by rewrite !bind_cons, fmap_app, IH.
Qed.

Lemma walk_roots e : forall root,
  distinct_names e = true -> NoDup ((fun t => t.1.1) <$> walk root e).
Proof.
  induction e as [|children IH] using entry_induction; intros root Hd.
  - constructor.
  - apply distinct_names_Dir in Hd as [Hnd Hall]. simpl.
    apply NoDup_cons. split.
    + intros ([[r ds] fs] & Hr & Hin)%list_elem_of_fmap. simpl in Hr. subst r.
      apply list_elem_of_bind in Hin as ([name sub] & Hin & _).
      apply elem_of_walk in Hin as (rel & ch & _ & [= Hroot _ _]).
      simpl in Hroot. apply (f_equal length) in Hroot.
      rewrite !length_app in Hroot. simpl in Hroot. lia.
    + rewrite fmap_bind_list. apply NoDup_bind.
      * intros [n1 e1] [n2 e2] r Hin1 Hin2 Hr1 Hr2. simpl in *.
        apply list_elem_of_fmap in Hr1 as (t1 & -> & Ht1).
        apply list_elem_of_fmap in Hr2 as (t2 & Heq & Ht2).
        apply elem_of_walk in Ht1 as (rel1 & ch1 & _ & ->).
        apply elem_of_walk in Ht2 as (rel2 & ch2 & _ & ->).
        simpl in Heq. rewrite <- !app_assoc in Heq.
        apply app_inv_head in Heq. injection Heq as -> _.
        f_equal. by eapply NoDup_fst_eq.
      * intros [name sub] Hin. simpl. rewrite Forall_forall in IH.
        apply (IH _ Hin). by eapply Hall.
      * by eapply NoDup_fmap_1.
Qed.

(** X17: in such a file system [collect_python_files] returns no path
    twice, so that no file is mutated and tested more than once. *)
Theorem targets_are_distinct (fs : entry) (p : path) :
  distinct_names fs = true -> NoDup (collect_python_files fs p).
Proof.
  intros Hfs. unfold collect_python_files.
  destruct (isfile fs p); [apply NoDup_singleton|].
  destruct (isdir fs p); [|constructor].
  destruct (resolve fs p) as [top|] eqn:Hp; [|constructor].
  destruct (below_distinct fs p top (resolve_below _ _ _ Hp) Hfs)
    as [_ Htop].
  pose proof (walk_roots top p Htop) as Hroots.
  apply NoDup_bind.
  - intros [[r1 ds1] fs1] [[r2 ds2] fs2] q Hin1 Hin2 Hq1 Hq2.
    apply list_elem_of_fmap in Hq1 as (f1 & -> & _).
    apply list_elem_of_fmap in Hq2 as (f2 & [-> _]%app_inj_tail & _).
    apply elem_of_walk in Hin1 as (rel1 & ch1 & Hb1 & [= Hr1 -> ->]).
    apply elem_of_walk in Hin2 as (rel2 & ch2 & Hb2 & [= Hr2 -> ->]).
    rewrite Hr1 in Hr2. apply app_inv_head in Hr2 as <-.
    apply below_distinct in Hb1 as [Hres1 _]; [|done].
    apply below_distinct in Hb2 as [Hres2 _]; [|done].
    rewrite Hres1 in Hres2. by injection Hres2 as <-.
  - intros [[root ds] filenames] Hin.
    apply elem_of_walk in Hin as (rel & ch & Hb & [= -> -> ->]).
    apply below_distinct in Hb as [_ [Hnd _]%distinct_names_Dir]; [|done].
    apply NoDup_fmap_2; [intros f1 f2 Heq; by apply app_inv_head in Heq as [= ->]|].
    apply NoDup_filter. apply NoDup_fmap_2_strong.
    + intros [n1 e1] [n2 e2] Hin1%list_elem_of_filter Hin2%list_elem_of_filter.
      simpl. intros ->. f_equal. destruct Hin1, Hin2. by eapply NoDup_fst_eq.
    + apply NoDup_filter. by eapply NoDup_fmap_1.
  - by eapply NoDup_fmap_1.
Qed.
End target_facts.

Section target_witnesses.
Import discovery discovery_examples.


Lemma targets_of_tree_are_distinct : NoDup (collect_python_files tree []).
Proof. apply (targets_are_distinct tree []). reflexivity. Defined.
End target_witnesses.
